(** * wayfinder (ukbench): task enumeration and core-aware scheduling

    A shallow embedding of the Go package [job] (the file [job.go] and the
    file that declares [Task]) and of the parsing of the core sets in the
    command [run], together with the properties its specification states
    and further properties of the code.

    Conventions of the embedding:
    - Go's [int] is a 64-bit two's complement integer, modelled as [Z]
      with the wrap-around of [+] written out ([int_add]);
    - Go strings are byte strings, modelled as [string];
    - a function returning [(T, error)] returns a [result T]; a run-time
      panic (index out of range) is the outcome [Panic]; loops whose
      termination is not evident take a fuel argument and answer
      [OutOfFuel] when the budget does not suffice;
    - pointers to tasks are indices into a task store, so that the run
      queue of a task is shared between the scheduler and the run
      supervisors as it is in the program. *)

From Stdlib Require Import ZArith String Ascii List Lia DecimalString.
From Stdlib Require DecimalPos.
From stdpp Require Import base option list gmap strings.

Local Open Scope Z_scope.

(** ** Outcomes *)

Inductive error : Type :=
| ErrAtoi (s : string)
| ErrMinGreaterMax (name : string) (min max : Z)
| ErrInvalidStep (name step : string)
| ErrUnknownStepMode (name mode : string)
| ErrUnknownType (ty name : string)
| ErrTooManyCores (name : string) (cores pool : Z).

Inductive result (A : Type) : Type :=
| Ok (a : A)
| Err (e : error)
| Panic
| OutOfFuel.

Arguments Ok {A} a.
Arguments Err {A} e.
Arguments Panic {A}.
Arguments OutOfFuel {A}.

#[global] Instance result_ret : MRet result := fun A a => Ok a.

#[global] Instance result_bind : MBind result := fun A B k r =>
  match r with
  | Ok a => k a
  | Err e => Err e
  | Panic => Panic
  | OutOfFuel => OutOfFuel
  end.

Definition is_err {A : Type} (r : result A) : bool :=
  match r with Err _ => true | _ => false end.

(** ** Go's [int] *)

Definition MaxInt : Z := 9223372036854775807.
Definition MinInt : Z := -9223372036854775808.

Definition wrap (z : Z) : Z := (z + 2 ^ 63) mod 2 ^ 64 - 2 ^ 63.

Definition int_add (a b : Z) : Z := wrap (a + b).

Definition len {A : Type} (l : list A) : Z := Z.of_nat (length l).
Definition slen (s : string) : Z := Z.of_nat (String.length s).

(** ** [strconv.Atoi] and [strconv.Itoa] (Go standard library)

    [Atoi] accepts an optional sign followed by at least one decimal
    digit and fails when the value does not fit an [int]. *)

Definition is_digit (c : ascii) : bool :=
  (48 <=? Z.of_nat (nat_of_ascii c)) && (Z.of_nat (nat_of_ascii c) <=? 57).

Fixpoint parse_digits (s : string) (acc : Z) : option Z :=
  match s with
  | EmptyString => Some acc
  | String c s' =>
      if is_digit c
      then parse_digits s' (acc * 10 + (Z.of_nat (nat_of_ascii c) - 48))
      else None
  end.

Definition Atoi (s : string) : result Z :=
  match s with
  | EmptyString => Err (ErrAtoi s)
  | String c s' =>
      let neg := Ascii.eqb c "-" in
      let digits := if neg || Ascii.eqb c "+" then s' else s in
      match digits with
      | EmptyString => Err (ErrAtoi s)
      | _ =>
          match parse_digits digits 0 with
          | None => Err (ErrAtoi s)
          | Some n =>
              let v := if neg then - n else n in
              if (MinInt <=? v) && (v <=? MaxInt) then Ok v else Err (ErrAtoi s)
          end
      end
  end.

Definition Itoa (i : Z) : string := NilZero.string_of_int (Z.to_int i).

(** ** A [for init; cond; post] loop over an [int] variable

    [for_loop fuel cond post body i acc] runs
    [for ; cond(i); i = post(i) { acc = body(i, acc) }]. *)

Fixpoint for_loop {S : Type} (fuel : nat) (cond : Z -> bool) (post : Z -> Z)
    (body : Z -> S -> S) (i : Z) (acc : S) : result S :=
  match fuel with
  | O => OutOfFuel
  | Datatypes.S fuel' =>
      if cond i then for_loop fuel' cond post body (post i) (body i acc)
      else Ok acc
  end.

(** ** Job description ([job.go]) *)

Record JobParam : Type := {
  jpName : string;
  jpType : string;
  jpDefault : string;
  jpOnly : list string;
  jpMin : string;
  jpMax : string;
  jpStep : string;
  jpStepMode : string
}.

Record TaskParam : Type := {
  tpName : string;
  tpType : string;
  tpValue : string
}.

Definition mkTaskParam (param : JobParam) (val : string) : TaskParam :=
  {| tpName := jpName param; tpType := jpType param; tpValue := val |}.

(** [for _, val := range param.Only { params = append(params, ...) }] *)
Definition append_only (param : JobParam) (params : list TaskParam) : list TaskParam :=
  fold_left (fun ps val => ps ++ [mkTaskParam param val]) (jpOnly param) params.

Definition parseParamStr (param : JobParam) : result (list TaskParam) :=
  let params : list TaskParam := [] in
  if 0 <? len (jpOnly param) then Ok (append_only param params)
  else if 0 <? slen (jpDefault param) then
    Ok (params ++ [mkTaskParam param (jpDefault param)])
  else Ok params.

Definition parseParamInt (fuel : nat) (param : JobParam) : result (list TaskParam) :=
  let params : list TaskParam := [] in
  if 0 <? len (jpOnly param) then Ok (append_only param params)
  else if 0 <? slen (jpMin param) then
    min ← Atoi (jpMin param);
    max ← Atoi (jpMax param);
    if max <? min then Err (ErrMinGreaterMax (jpName param) min max)
    else
      step ← (if 0 <? slen (jpStep param) then
                 match Atoi (jpStep param) with
                 | Ok step =>
                     if step =? 0
                     then Err (ErrInvalidStep (jpName param) (jpStep param))
                     else Ok step
                 | _ => Err (ErrInvalidStep (jpName param) (jpStep param))
                 end
               else Ok 1);
      let body := fun i ps => ps ++ [mkTaskParam param (Itoa i)] in
      if (slen (jpStepMode param) =? 0) || String.eqb (jpStepMode param) "increment"
      then for_loop fuel (fun i => i <=? max) (fun i => int_add i step) body min params
      else if String.eqb (jpStepMode param) "power"
      then
        (* the post statement [math.Pow(float64(step), float64(i))] computes a
           value and discards it: the loop variable is left as it is *)
        for_loop fuel (fun i => i <=? max) (fun i => i) body min params
      else Err (ErrUnknownStepMode (jpName param) (jpStepMode param))
  else if 0 <? slen (jpDefault param) then
    Ok (params ++ [mkTaskParam param (jpDefault param)])
  else Ok params.

Definition paramPermutations (fuel : nat) (param : JobParam) : result (list TaskParam) :=
  if String.eqb (jpType param) "string" then parseParamStr param
  else if String.eqb (jpType param) "int" then parseParamInt fuel param
  else if String.eqb (jpType param) "integer" then parseParamInt fuel param
  else Err (ErrUnknownType (jpType param) (jpName param)).

(** [for _, x := range l { st = body(st, x) }], where the body may fail. *)
Fixpoint range_loop {A S : Type} (body : S -> A -> result S) (l : list A) (st : S)
    : result S :=
  match l with
  | [] => Ok st
  | x :: l' => st' ← body st x; range_loop body l' st'
  end.

Record Input : Type := { inName : string; inPath : string }.

Record Output : Type := { outName : string; outPath : string }.

Record Run : Type := {
  rName : string;
  rImage : string;
  rCores : Z;
  rDevices : list string;
  rCmd : string;
  rPath : string;
  rexitCode : Z
}.

(** ** Run queue *)

(** Modelled from the spec: the type [Queue], which is not part of the
    available sources; the spec describes the FIFO of the pending run
    stages of a task.  [Task.Init] sizes the queue to the number of runs
    it then enqueues, so the bound is never reached and is not
    represented. *)
Definition Queue : Type := list Run.

(** Modelled from the spec: [NewQueue], an empty queue. *)
Definition NewQueue (size : Z) : Queue := [].

(** Modelled from the spec: [Queue.Enqueue], at the tail. *)
Definition Enqueue (q : Queue) (r : Run) : Queue := q ++ [r].

(** Modelled from the spec: [Queue.Peak], "peek() → r | empty", which
    leaves the queue as it is. *)
Definition Peak (q : Queue) : option Run := head q.

(** Modelled from the spec: [Queue.Dequeue], "dequeue() → r | empty", which
    removes the head. *)
Definition Dequeue (q : Queue) : option Run * Queue := (head q, tail q).

(** Modelled from the spec: [Queue.Len]. *)
Definition QLen (q : Queue) : Z := len q.

(** Modelled from the spec: [Queue.Clear], which empties the queue. *)
Definition Clear (q : Queue) : Queue := [].

(** ** Tasks *)

(** [Inputs] and [Outputs] point to the lists of the job, which nothing
    writes after load; [runs] is the nil pointer until [Init]. *)
Record Task : Type := {
  tParams : list TaskParam;
  tInputs : list Input;
  tOutputs : list Output;
  truns : option Queue;
  tuuid : string
}.

Record Job : Type := {
  jParams : list JobParam;
  jInputs : list Input;
  jOutputs : list Output;
  jRuns : list Run;
  jwaitList : list nat;
  jscheduleGrace : Z
}.

Definition zeroTaskParam : TaskParam :=
  {| tpName := ""; tpType := ""; tpValue := "" |}.

(** [p := make([]TaskParam, n); copy(p, src)] *)
Definition make_copy (n : nat) (src : list TaskParam) : list TaskParam :=
  take n src ++ replicate (n - length src) zeroTaskParam.

Definition newTask (j : Job) (p : list TaskParam) : Task :=
  {| tParams := p; tInputs := jInputs j; tOutputs := jOutputs j;
     truns := None; tuuid := "" |}.

(** The body of the loop of [nextTask] up to [curr = append(curr, param)]. *)
Definition replace_last (curr : list TaskParam) (param : TaskParam) : list TaskParam :=
  let curr :=
    if 0 <? len curr then
      match last curr with
      | Some l => if String.eqb (tpName l) (tpName param) then removelast curr else curr
      | None => curr
      end
    else curr in
  curr ++ [param].

(** [nextTask].  The slice [curr] shares its backing array with the
    callee, which writes only at positions the caller writes again before
    it reads them, so a list passed by value behaves the same.  The fuel
    bounds the recursion depth and the loops of [parseParamInt]. *)
Fixpoint nextTask (fuel : nat) (j : Job) (i : nat) (tasks : list Task)
    (curr : list TaskParam) : result (list Task) :=
  match fuel with
  | O => OutOfFuel
  | S fuel' =>
      match jParams j !! i with
      | None => Panic
      | Some jp =>
          params ← paramPermutations fuel' jp;
          st ← range_loop
                 (fun (st : list Task * list TaskParam) param =>
                    let '(tasks, curr) := st in
                    let curr := replace_last curr param in
                    if (Z.of_nat i + 1 =? len (jParams j))
                    then
                      let p := make_copy (length (jParams j)) curr in
                      Ok (tasks ++ [newTask j p], curr)
                    else
                      nextTasks ← nextTask fuel' j (i + 1) [] curr;
                      Ok (tasks ++ nextTasks, curr))
                 params (tasks, curr);
          Ok (fst st)
      end
  end.

Definition tasks (fuel : nat) (j : Job) : result (list Task) :=
  nextTask fuel j 0 [] [].

(** [Task.Init] *)
Definition Init (t : Task) (runs : list Run) : Task :=
  {| tParams := tParams t; tInputs := tInputs t; tOutputs := tOutputs t;
     truns := Some (fold_left Enqueue runs (NewQueue (len runs)));
     tuuid := tuuid t |}.

(** [Task.Cancel]: [t.runs.Clear()]; on the nil queue the call panics. *)
Definition Cancel (t : Task) : option Task :=
  q ← truns t;
  Some {| tParams := tParams t; tInputs := tInputs t; tOutputs := tOutputs t;
          truns := Some (Clear q); tuuid := tuuid t |}.

(** ** [crypto/md5] (Go standard library), after RFC 1321 *)

Module MD5.

Definition mask32 (x : Z) : Z := x mod 2 ^ 32.
Definition add32 (x y : Z) : Z := mask32 (x + y).
Definition not32 (x : Z) : Z := 2 ^ 32 - 1 - x.
Definition rotl32 (x : Z) (n : Z) : Z :=
  Z.lor (mask32 (Z.shiftl x n)) (Z.shiftr x (32 - n)).

Definition K : list Z := [
  3614090360; 3905402710; 606105819; 3250441966;
  4118548399; 1200080426; 2821735955; 4249261313;
  1770035416; 2336552879; 4294925233; 2304563134;
  1804603682; 4254626195; 2792965006; 1236535329;
  4129170786; 3225465664; 643717713; 3921069994;
  3593408605; 38016083; 3634488961; 3889429448;
  568446438; 3275163606; 4107603335; 1163531501;
  2850285829; 4243563512; 1735328473; 2368359562;
  4294588738; 2272392833; 1839030562; 4259657740;
  2763975236; 1272893353; 4139469664; 3200236656;
  681279174; 3936430074; 3572445317; 76029189;
  3654602809; 3873151461; 530742520; 3299628645;
  4096336452; 1126891415; 2878612391; 4237533241;
  1700485571; 2399980690; 4293915773; 2240044497;
  1873313359; 4264355552; 2734768916; 1309151649;
  4149444226; 3174756917; 718787259; 3951481745 ].

Definition shifts : list Z := [
  7; 12; 17; 22; 7; 12; 17; 22; 7; 12; 17; 22; 7; 12; 17; 22;
  5; 9; 14; 20; 5; 9; 14; 20; 5; 9; 14; 20; 5; 9; 14; 20;
  4; 11; 16; 23; 4; 11; 16; 23; 4; 11; 16; 23; 4; 11; 16; 23;
  6; 10; 15; 21; 6; 10; 15; 21; 6; 10; 15; 21; 6; 10; 15; 21 ].

Definition bytes_of_string (s : string) : list Z :=
  map (fun c => Z.of_nat (nat_of_ascii c)) (list_ascii_of_string s).

(** little-endian bytes of [x], [n] of them *)
Fixpoint le_bytes (n : nat) (x : Z) : list Z :=
  match n with
  | O => []
  | S n' => x mod 256 :: le_bytes n' (x / 256)
  end.

Fixpoint le_word (bs : list Z) : Z :=
  match bs with
  | [] => 0
  | b :: bs' => b + 256 * le_word bs'
  end.

Definition pad (msg : list Z) : list Z :=
  let n := length msg in
  let zeros := ((119 - n mod 64) mod 64)%nat in
  msg ++ 128 :: replicate zeros 0 ++ le_bytes 8 ((8 * Z.of_nat n) mod 2 ^ 64).

Fixpoint chunks {A : Type} (size : nat) (count : nat) (l : list A) : list (list A) :=
  match count with
  | O => []
  | S count' => take size l :: chunks size count' (drop size l)
  end.

Definition round (M : list Z) (st : Z * Z * Z * Z) (i : nat) : Z * Z * Z * Z :=
  let '(a, b, c, d) := st in
  let '(f, g) :=
    if (i <? 16)%nat then (Z.lor (Z.land b c) (Z.land (not32 b) d), i)
    else if (i <? 32)%nat then (Z.lor (Z.land d b) (Z.land (not32 d) c), (5 * i + 1) mod 16)%nat
    else if (i <? 48)%nat then (Z.lxor (Z.lxor b c) d, (3 * i + 5) mod 16)%nat
    else (Z.lxor c (Z.lor b (not32 d)), (7 * i) mod 16)%nat in
  let f := add32 (add32 (add32 f a) (nth i K 0)) (nth g M 0) in
  (d, add32 b (rotl32 f (nth i shifts 0)), b, c).

Definition block (st : Z * Z * Z * Z) (blk : list Z) : Z * Z * Z * Z :=
  let M := map le_word (chunks 4 16 blk) in
  let '(a, b, c, d) := st in
  let '(a', b', c', d') := fold_left (round M) (seq 0 64) st in
  (add32 a a', add32 b b', add32 c c', add32 d d').

Definition init : Z * Z * Z * Z := (1732584193, 4023233417, 2562383102, 271733878).

(** the 16 bytes of the digest *)
Definition sum (s : string) : list Z :=
  let padded := pad (bytes_of_string s) in
  let '(a, b, c, d) := fold_left block (chunks 64 (length padded / 64) padded) init in
  le_bytes 4 a ++ le_bytes 4 b ++ le_bytes 4 c ++ le_bytes 4 d.

End MD5.

(** [fmt.Sprintf("%x", bytes)]: two lowercase hexadecimal digits per byte. *)
Definition hex_digit (n : Z) : ascii :=
  if n <? 10 then ascii_of_nat (Z.to_nat (48 + n)) else ascii_of_nat (Z.to_nat (87 + n)).

Fixpoint hex (bs : list Z) : string :=
  match bs with
  | [] => EmptyString
  | b :: bs' => String (hex_digit (b / 16)) (String (hex_digit (b mod 16)) (hex bs'))
  end.

Definition newline : string := String (ascii_of_nat 10) EmptyString.

(** [fmt.Sprintf("%s=%s\n", param.Name, param.Value)] *)
Definition param_line (param : TaskParam) : string :=
  (tpName param +:+ "=" +:+ tpValue param +:+ newline).

(** [Task.UUID].  The hash [md5val] is represented by the bytes written to
    it so far; [Sum(nil)] is the digest of these.  The method also stores
    the identifier in the task, so it returns the task as well. *)
Definition UUID (t : Task) : string * Task :=
  if slen (tuuid t) =? 0 then
    let md5val := fold_left (fun written param => written +:+ param_line param)
                    (tParams t) "" in
    let uuid := hex (MD5.sum md5val) in
    (uuid, {| tParams := tParams t; tInputs := tInputs t; tOutputs := tOutputs t;
              truns := truns t; tuuid := uuid |})
  else (tuuid t, t).

(** ** Wait list

    The type [List] is not part of the available sources; the spec
    describes an ordered collection addressed by position.  Its elements
    are pointers to tasks, and its length is [len]. *)

(** Modelled from the spec: [NewList], an empty list. *)
Definition NewList (size : Z) : list nat := [].

(** Modelled from the spec: [List.Add], at the end. *)
Definition Add (l : list nat) (task : nat) : list nat := l ++ [task].

(** Modelled from the spec: [List.Get], "get(i) → task | error", which
    fails outside the list. *)
Definition Get (l : list nat) (i : Z) : option nat :=
  if i <? 0 then None else l !! Z.to_nat i.

(** Modelled from the spec: [List.Remove], "removal shifts subsequent
    elements left by one"; outside the list it has no effect. *)
Definition Remove (l : list nat) (i : Z) : list nat :=
  if i <? 0 then l else delete (Z.to_nat i) l.

(** ** Active task runs and the core map *)

(** The record of a dispatched stage.  [aid] stands for the address of the
    record, [aTask] is the pointer to the task. *)
Record ActiveTaskRun : Type := {
  aid : nat;
  aTask : nat;
  arun : Run;
  aCoreIds : list Z
}.

(** Modelled from the spec: [NewActiveTaskRun], which is not part of the
    available sources: "construct an ActiveTaskRun(task, next, cores)";
    the construction may fail, which [fails] decides.  [addr] is the
    address of the new record. *)
Definition NewActiveTaskRun (addr : nat) (fails : bool) (task : nat) (run : Run)
    (cores : list Z) : option ActiveTaskRun :=
  if fails then None
  else Some {| aid := addr; aTask := task; arun := run; aCoreIds := cores |}.

(** The type [CoreMap] is not part of the available sources; the spec
    describes a mapping from the configured core ids to the active run
    that occupies the core, or vacant.  A vacant core holds the nil
    pointer ([None]), which is what the scheduler tests for.  The lock of
    the map makes each of its operations one step of the interleaving. *)

(** Modelled from the spec: [NewCoreMap], "constructed from the configured
    core-id list", every core vacant. *)
Definition NewCoreMap (cpus : list Z) : gmap Z (option ActiveTaskRun) :=
  list_to_map ((fun c => (c, None)) <$> cpus).

(** Modelled from the spec: [CoreMap.FreeCores], "snapshot list of vacant
    coreIds"; the order of the snapshot is the one in which the map
    enumerates its keys. *)
Definition FreeCores (m : gmap Z (option ActiveTaskRun)) : list Z :=
  omap (fun '(c, v) => match v with None => Some c | Some _ => None end)
       (map_to_list m).

(** Modelled from the spec: [CoreMap.All], "snapshot list of current
    ActiveTaskRun values", nil for a vacant core. *)
Definition All (m : gmap Z (option ActiveTaskRun)) : list (option ActiveTaskRun) :=
  snd <$> map_to_list m.

(** Modelled from the spec: [CoreMap.Set], which "fails if coreId is not a
    configured key or is already occupied". *)
Definition Set_ (m : gmap Z (option ActiveTaskRun)) (coreId : Z) (atr : ActiveTaskRun)
    : option (gmap Z (option ActiveTaskRun)) :=
  match m !! coreId with
  | Some None => Some (<[coreId := Some atr]> m)
  | _ => None
  end.

(** Modelled from the spec: [CoreMap.Unset], which "marks vacant;
    idempotent". *)
Definition Unset_ (m : gmap Z (option ActiveTaskRun)) (coreId : Z)
    : gmap Z (option ActiveTaskRun) :=
  match m !! coreId with
  | Some _ => <[coreId := None]> m
  | None => m
  end.

(** ** [NewJob]

    The function is modelled from the point where the job document has
    been read and parsed into [job].  It returns the job with its wait
    list, the tasks the wait list points to, and the core map it stores in
    the global [tasksInFlight]. *)

Record RuntimeConfig : Type := {
  Cpus : list Z;
  ScheduleGrace : Z
}.

Definition set_Cores (run : Run) (cores : Z) : Run :=
  {| rName := rName run; rImage := rImage run; rCores := cores;
     rDevices := rDevices run; rCmd := rCmd run; rPath := rPath run;
     rexitCode := rexitCode run |}.

(** The body of [for i, run := range job.Runs { ... }] in [NewJob]: the
    state is [job.Runs], and [run] is the element read at step [i]. *)
Definition check_run (cfg : RuntimeConfig) (runs : list Run) (ir : nat * Run)
    : result (list Run) :=
  let '(i, run) := ir in
  if len (Cpus cfg) <? rCores run
  then Err (ErrTooManyCores (rName run) (rCores run) (len (Cpus cfg)))
  else if rCores run =? 0
  then Ok (alter (fun r => set_Cores r 1) i runs)
  else Ok runs.

Definition check_runs (cfg : RuntimeConfig) (runs : list Run) : result (list Run) :=
  range_loop (check_run cfg) (imap pair runs) runs.

Definition set_job (job : Job) (runs : list Run) (waitList : list nat) (grace : Z) : Job :=
  {| jParams := jParams job; jInputs := jInputs job; jOutputs := jOutputs job;
     jRuns := runs; jwaitList := waitList; jscheduleGrace := grace |}.

Definition NewJob (fuel : nat) (job : Job) (cfg : RuntimeConfig)
    : result (Job * list Task * gmap Z (option ActiveTaskRun)) :=
  tasks ← tasks fuel job;
  let job := set_job job (jRuns job) (NewList (len tasks)) (ScheduleGrace cfg) in
  st ← range_loop
         (fun (st : Job * list Task) task =>
            let '(job, heap) := st in
            runs ← check_runs cfg (jRuns job);
            let task := Init task runs in
            Ok (set_job job runs (Add (jwaitList job) (length heap)) (jscheduleGrace job),
                heap ++ [task]))
         tasks (job, []);
  Ok (st, NewCoreMap (Cpus cfg)).

(** ** [Job.Start]: the scheduler loop and the run supervisors

    The driver and the goroutines it starts are threads of an interleaving
    semantics.  A step of a thread contains at most one access to the
    state the threads share (the core map, the run queues, the wait
    group); what lies between two such accesses is local to the thread and
    belongs to the step.  The points of the driver between its steps: *)

Inductive driver : Type :=
| DTop
    (* the head of the loop *)
| DPeak (freeCores : list Z) (task : nat)
    (* before [task.runs.Peak()] *)
| DExcl (freeCores : list Z) (task : nat) (nextRun : Run)
    (* before [tasksInFlight.RLock()] *)
| DNew (freeCores : list Z) (task : nat) (nextRun : Run)
    (* after [tasksInFlight.RUnlock()], before the selection of the cores *)
| DSet (task : nat) (activeTaskRun : ActiveTaskRun) (cores : list Z) (j : Z)
    (* the head of the loop [for len(cores) > 0] *)
| DIter (task : nat)
    (* the label [iterator] *)
| DWait
    (* [wg.Wait()] *)
| DDone
    (* [Start] has returned *)
| DPanic.
    (* the program has stopped on a run-time panic *)

(** The points of a run supervisor (the goroutine of [Start]). *)
Inductive super : Type :=
| SRun
    (* inside [activeTaskRun.Start()] *)
| SSignal
    (* before [wg.Done()] *)
| SRelease (coreIds : list Z).
    (* in the loop over [activeTaskRun.CoreIds]; returned when none is left *)

Record State : Type := {
  job : Job;
  heap : list Task;
  tasksInFlight : gmap Z (option ActiveTaskRun);
  drv : driver;
  cursor : Z;
  sups : list (ActiveTaskRun * super);
  wg : Z
}.

Definition start (w : Job * list Task * gmap Z (option ActiveTaskRun)) : State :=
  {| job := w.1.1; heap := w.1.2; tasksInFlight := w.2;
     drv := DTop; cursor := 0; sups := []; wg := 0 |}.

Definition set_drv (s : State) (d : driver) : State :=
  {| job := job s; heap := heap s; tasksInFlight := tasksInFlight s;
     drv := d; cursor := cursor s; sups := sups s; wg := wg s |}.

Definition set_heap (s : State) (h : list Task) : State :=
  {| job := job s; heap := h; tasksInFlight := tasksInFlight s;
     drv := drv s; cursor := cursor s; sups := sups s; wg := wg s |}.

Definition set_cores (s : State) (m : gmap Z (option ActiveTaskRun)) : State :=
  {| job := job s; heap := heap s; tasksInFlight := m;
     drv := drv s; cursor := cursor s; sups := sups s; wg := wg s |}.

Definition set_cursor (s : State) (i : Z) : State :=
  {| job := job s; heap := heap s; tasksInFlight := tasksInFlight s;
     drv := drv s; cursor := i; sups := sups s; wg := wg s |}.

Definition set_waitList (s : State) (l : list nat) : State :=
  {| job := set_job (job s) (jRuns (job s)) l (jscheduleGrace (job s));
     heap := heap s; tasksInFlight := tasksInFlight s;
     drv := drv s; cursor := cursor s; sups := sups s; wg := wg s |}.

Definition set_sups (s : State) (l : list (ActiveTaskRun * super)) (n : Z) : State :=
  {| job := job s; heap := heap s; tasksInFlight := tasksInFlight s;
     drv := drv s; cursor := cursor s; sups := l; wg := n |}.

Definition set_runs (t : Task) (q : Queue) : Task :=
  {| tParams := tParams t; tInputs := tInputs t; tOutputs := tOutputs t;
     truns := Some q; tuuid := tuuid t |}.

(** [heap[task].UUID()] *)
Definition callUUID (heap : list Task) (task : nat) : option (string * list Task) :=
  t ← heap !! task;
  Some ((UUID t).1, <[task := (UUID t).2]> heap).

(** The exclusion test: the loop over [tasksInFlight.All()]; the answer is
    [true] when the loop leaves through [goto iterator]. *)
Fixpoint excluded (all : list (option ActiveTaskRun)) (task : nat) (heap : list Task)
    : option (bool * list Task) :=
  match all with
  | [] => Some (false, heap)
  | None :: all' => excluded all' task heap
  | Some atr :: all' =>
      '(u1, heap) ← callUUID heap (aTask atr);
      '(u2, heap) ← callUUID heap task;
      if String.eqb u1 u2 then Some (true, heap) else excluded all' task heap
  end.

(** [for j := 0; j < n; j++ { cores = append(cores, freeCores[len(freeCores)-1]);
    freeCores = freeCores[:len(freeCores)-1] }] *)
Fixpoint select_cores (n : nat) (freeCores cores : list Z) : option (list Z * list Z) :=
  match n with
  | O => Some (cores, freeCores)
  | S n' =>
      c ← last freeCores;
      select_cores n' (removelast freeCores) (cores ++ [c])
  end.

(** [s[i]] for an [int] index. *)
Definition index {A : Type} (l : list A) (i : Z) : option A :=
  if i <? 0 then None else l !! Z.to_nat i.

Definition panic (s : State) : option State := Some (set_drv s DPanic).

(** One step of the driver.  [newErr] tells whether [NewActiveTaskRun]
    fails, should the step call it.  A driver that waits (no free core, or
    [wg.Wait()] with runs outstanding) has no effect or no step.  The
    cursor and the offset [j] stay far from the bounds of [int], so their
    arithmetic is the one of [Z]. *)
Definition driver_step (newErr : bool) (s : State) : option State :=
  match drv s with
  | DTop =>
      if 0 <? len (jwaitList (job s)) then
        let freeCores := FreeCores (tasksInFlight s) in
        if len freeCores =? 0 then Some s
        else
          match Get (jwaitList (job s)) (cursor s) with
          | None => Some (set_cursor s 0)
          | Some task => Some (set_drv s (DPeak freeCores task))
          end
      else Some (set_drv s DWait)
  | DPeak freeCores task =>
      match heap s !! task ≫= truns with
      | None => panic s
      | Some q =>
          match Peak q with
          | None => Some (set_drv s (DIter task))
          | Some nextRun =>
              if rCores nextRun <=? len freeCores
              then Some (set_drv s (DExcl freeCores task nextRun))
              else Some (set_drv s (DIter task))
          end
      end
  | DExcl freeCores task nextRun =>
      match excluded (All (tasksInFlight s)) task (heap s) with
      | None => panic s
      | Some (true, h) => Some (set_drv (set_heap s h) (DIter task))
      | Some (false, h) => Some (set_drv (set_heap s h) (DNew freeCores task nextRun))
      end
  | DNew freeCores task nextRun =>
      match select_cores (Z.to_nat (rCores nextRun)) freeCores [] with
      | None => panic s
      | Some (cores, _) =>
          match NewActiveTaskRun (length (sups s)) newErr task nextRun cores with
          | None =>
              match heap s !! task ≫= Cancel with
              | None => panic s
              | Some t => Some (set_drv (set_heap s (<[task := t]> (heap s))) (DIter task))
              end
          | Some activeTaskRun =>
              (* [task.UUID()] for the log, then [task.runs.Dequeue()] *)
              match callUUID (heap s) task with
              | None => panic s
              | Some (_, h) =>
                  match h !! task with
                  | Some t =>
                      match truns t with
                      | Some q =>
                          Some (set_drv (set_heap s (<[task := set_runs t (Dequeue q).2]> h))
                                  (DSet task activeTaskRun cores 1))
                      | None => panic s
                      end
                  | None => panic s
                  end
              end
          end
      end
  | DSet task activeTaskRun cores j =>
      if 0 <? len cores then
        match index cores (len cores - j) with
        | None => panic s
        | Some coreId =>
            match Set_ (tasksInFlight s) coreId activeTaskRun with
            | None =>
                let j := if len cores <=? j then 1 else j + 1 in
                Some (set_drv s (DSet task activeTaskRun cores j))
            | Some m =>
                let cores := take (Z.to_nat (len cores - j)) cores in
                Some (set_drv (set_cores s m) (DSet task activeTaskRun cores j))
            end
        end
      else
        Some (set_drv (set_sups s (sups s ++ [(activeTaskRun, SRun)]) (wg s + 1))
                (DIter task))
  | DIter task =>
      match heap s !! task ≫= truns with
      | None => panic s
      | Some q =>
          let '(waitList, i) :=
            if QLen q =? 0
            then (Remove (jwaitList (job s)) (cursor s), cursor s - 1)
            else (jwaitList (job s), cursor s) in
          let i := if len waitList =? i + 1 then 0 else i + 1 in
          Some (set_drv (set_cursor (set_waitList s waitList) i) DTop)
      end
  | DWait => if wg s =? 0 then Some (set_drv s DDone) else None
  | DDone => None
  | DPanic => None
  end.

(** One step of the supervisor of the [k]-th run started.  The method
    [ActiveTaskRun.Start] is not part of the available sources: it runs
    the stage and returns when the stage has ended; [returnCode] and
    [startErr] are what it returns, should the step be its return. *)
Definition super_step (k : nat) (returnCode : Z) (startErr : bool) (s : State)
    : option State :=
  '(activeTaskRun, pc) ← sups s !! k;
  match pc with
  | SRun =>
      if startErr || negb (returnCode =? 0) then
        match heap s !! aTask activeTaskRun ≫= Cancel with
        | None => panic s
        | Some t =>
            Some (set_sups (set_heap s (<[aTask activeTaskRun := t]> (heap s)))
                    (<[k := (activeTaskRun, SSignal)]> (sups s)) (wg s))
        end
      else Some (set_sups s (<[k := (activeTaskRun, SSignal)]> (sups s)) (wg s))
  | SSignal =>
      Some (set_sups s (<[k := (activeTaskRun, SRelease (aCoreIds activeTaskRun))]> (sups s))
              (wg s - 1))
  | SRelease [] => None
  | SRelease (coreId :: rest) =>
      Some (set_sups (set_cores s (Unset_ (tasksInFlight s) coreId))
              (<[k := (activeTaskRun, SRelease rest)]> (sups s)) (wg s))
  end.

(** The scheduling decisions and the answers of the environment. *)
Inductive label : Type :=
| Drive (newErr : bool)
| Supervise (k : nat) (returnCode : Z) (startErr : bool).

Definition step (l : label) (s : State) : option State :=
  match drv s with
  | DPanic => None
  | _ =>
      match l with
      | Drive newErr => driver_step newErr s
      | Supervise k returnCode startErr => super_step k returnCode startErr s
      end
  end.

Fixpoint exec (ls : list label) (s : State) : option State :=
  match ls with
  | [] => Some s
  | l :: ls' => s' ← step l s; exec ls' s'
  end.

(** ** The command [run] ([cmd/run.go]) *)

(** [strings.Contains] and [strings.Split] (Go standard library), for a
    separator of one byte, which is how [parseCpuSets] calls them.
    [Split] cuts at every occurrence of the separator and returns the
    pieces between, of which there is always at least one. *)
Fixpoint Contains (s : string) (sep : ascii) : bool :=
  match s with
  | EmptyString => false
  | String c s' => Ascii.eqb c sep || Contains s' sep
  end.

Fixpoint Split (s : string) (sep : ascii) : list string :=
  match s with
  | EmptyString => [EmptyString]
  | String c s' =>
      if Ascii.eqb c sep then EmptyString :: Split s' sep
      else
        match Split s' sep with
        | [] => [String c EmptyString]
        | piece :: pieces => String c piece :: pieces
        end
  end.

(** The loop [for i := range c { j, err := strconv.Atoi(c[i]); ... }] of
    [parseCpuSets], which returns from the function at the first piece
    that is not a number. *)
Fixpoint parse_pieces (c : list string) (cpus : list Z) : list Z * bool :=
  match c with
  | [] => (cpus, false)
  | ci :: c' =>
      match Atoi ci with
      | Ok j => parse_pieces c' (cpus ++ [j])
      | _ => (cpus, true)
      end
  end.

(** [parseCpuSets].  The function returns a slice and an error, and on an
    error the slice it has built so far; the outcome [Ok (cpus, err)]
    carries both, [err] telling whether the error is not nil (its text is
    always "Invalid syntax for CPU sets").  [Panic] is an index out of
    range, and the fuel bounds the loop [for i := start; i < end; i++]. *)
Definition parseCpuSets (fuel : nat) (cpuSets : string) : result (list Z * bool) :=
  let cpus : list Z := [] in
  let list_part := fun cpus : list Z =>
    if Contains cpuSets "," then Ok (parse_pieces (Split cpuSets ",") cpus)
    else Ok (cpus, false) in
  if Contains cpuSets "-" then
    let c := Split cpuSets "-" in
    if 2 <? len c then Ok (cpus, true)
    else
      match index c 0 with
      | None => Panic
      | Some c0 =>
          match Atoi c0 with
          | Ok start =>
              match index c 1 with
              | None => Panic
              | Some c1 =>
                  match Atoi c1 with
                  | Ok end_ =>
                      cpus ← for_loop fuel (fun i => i <? end_) (fun i => int_add i 1)
                               (fun i cpus => cpus ++ [i]) start cpus;
                      list_part cpus
                  | _ => Ok (cpus, true)
                  end
              end
          | _ => Ok (cpus, true)
          end
      end
  else list_part cpus.

(** The default of the flag [--cpu-sets] in [init]:
    [fmt.Sprintf("1-%d", runtime.NumCPU())]. *)
Definition default_CpuSets (numCPU : Z) : string := "1-" +:+ Itoa numCPU.

(** ** What the properties are stated with

    The definitions in quotation marks follow the words of the
    specification; the others name what the code does. *)

(** The task parameters of a list of integer values. *)
Definition values_of (param : JobParam) (l : list Z) : list TaskParam :=
  (fun v => mkTaskParam param (Itoa v)) <$> l.

(** "values are min, min+step, min+2·step, … while ≤ max" *)
Definition increment_values (min max step : Z) (l : list Z) : Prop :=
  (∀ (k : nat) (v : Z), l !! k = Some v → v = min + Z.of_nat k * step ∧ v ≤ max)
  ∧ max < min + len l * step.

(** "values are min, min·step, min·step², … while ≤ max" *)
Definition power_values (min max step : Z) (l : list Z) : Prop :=
  (∀ (k : nat) (v : Z), l !! k = Some v → v = min * step ^ Z.of_nat k ∧ v ≤ max)
  ∧ max < min * step ^ len l.

(** The first [n] values of the progression from [i]. *)
Fixpoint increments (n : nat) (i step : Z) : list Z :=
  match n with
  | O => []
  | S n' => i :: increments n' (i + step) step
  end.

(** How many values of the progression from [min] are [≤ max]. *)
Definition count (min max step : Z) : nat := Z.to_nat ((max - min) / step + 1).

(** The step of a declaration: [1] when absent. *)
Definition step_is (param : JobParam) (step : Z) : Prop :=
  (jpStep param = "" ∧ step = 1) ∨ (jpStep param ≠ "" ∧ Atoi (jpStep param) = Ok step).

(** A declaration with [min ≤ max] and a valid step. *)
Definition range_fields (param : JobParam) (min max step : Z) : Prop :=
  jpMin param ≠ "" ∧
  Atoi (jpMin param) = Ok min ∧ Atoi (jpMax param) = Ok max ∧ min ≤ max ∧
  step_is param step ∧ step ≠ 0.

(** A declaration that expands by the range between [min] and [max]: one
    without an [only] list. *)
Definition range_decl (param : JobParam) (min max step : Z) : Prop :=
  jpOnly param = [] ∧ range_fields param min max step.

(** The increment mode of the specification, for one declaration. *)
Definition increment_claim (param : JobParam) : Prop :=
  ∀ min max step : Z,
    range_fields param min max step →
    jpStepMode param = "" ∨ jpStepMode param = "increment" →
    ∃ (fuel : nat) (l : list Z),
      parseParamInt fuel param = Ok (values_of param l) ∧
      increment_values min max step l.

(** The power mode as the design notes of the specification describe the
    source, for one declaration: "the loop behaves as increment with
    step=1". *)
Definition power_as_increment_claim (param : JobParam) : Prop :=
  ∀ min max step : Z,
    range_fields param min max step →
    jpStepMode param = "power" →
    ∃ (fuel : nat) (l : list Z),
      parseParamInt fuel param = Ok (values_of param l) ∧
      increment_values min max 1 l.

(** The cartesian product of the value lists, the rightmost varying
    fastest. *)
Fixpoint product (vals : list (list TaskParam)) : list (list TaskParam) :=
  match vals with
  | [] => [[]]
  | vs :: rest => v ← vs; (fun a => v :: a) <$> product rest
  end.

(** No two consecutive declarations have the same name. *)
Definition distinct_neighbours (params : list JobParam) : Prop :=
  ∀ (i : nat) (p q : JobParam),
    params !! i = Some p → params !! S i = Some q → jpName p ≠ jpName q.

(** The declarations which the specification calls invalid: "an integer
    declaration with max < min, a step that is zero or unparsable, an
    unknown step_mode, or a declaration whose type is neither string nor
    integer". *)
Definition parses (s : string) : bool :=
  match Atoi s with Ok _ => true | _ => false end.

Definition max_below_min (param : JobParam) : bool :=
  match Atoi (jpMin param), Atoi (jpMax param) with
  | Ok min, Ok max => max <? min
  | _, _ => false
  end.

Definition bad_step (param : JobParam) : bool :=
  negb (String.eqb (jpStep param) "") &&
  match Atoi (jpStep param) with Ok step => step =? 0 | _ => true end.

Definition unknown_mode (param : JobParam) : bool :=
  negb (String.eqb (jpStepMode param) "" || String.eqb (jpStepMode param) "increment"
        || String.eqb (jpStepMode param) "power").

Definition spec_invalid (param : JobParam) : bool :=
  negb (String.eqb (jpType param) "string" || String.eqb (jpType param) "integer")
  || String.eqb (jpType param) "integer"
     && (max_below_min param || bad_step param || unknown_mode param).

(** The declarations for which [paramPermutations] reports an error, as
    the code decides it. *)
Definition rejects (param : JobParam) : bool :=
  if String.eqb (jpType param) "string" then false
  else if String.eqb (jpType param) "int" || String.eqb (jpType param) "integer" then
    match jpOnly param with
    | [] =>
        negb (String.eqb (jpMin param) "") &&
        (negb (parses (jpMin param)) || negb (parses (jpMax param))
         || max_below_min param || bad_step param || unknown_mode param)
    | _ :: _ => false
    end
  else true.

(** A declaration that yields at least one value. *)
Definition yields (param : JobParam) : Prop :=
  ∃ (fuel : nat) (vs : list TaskParam), paramPermutations fuel param = Ok vs ∧ vs ≠ [].

(** The expansion of the specification, for one job: the cartesian
    product of the value lists of its declarations, one task each. *)
Definition expansion_claim (j : Job) : Prop :=
  ∀ (fuel0 : nat) (vals : list (list TaskParam)),
    Forall2 (fun p vs => paramPermutations fuel0 p = Ok vs ∧ vs ≠ []) (jParams j) vals →
    ∃ fuel : nat, tasks fuel j = Ok (newTask j <$> product vals).

(** The identifier of the specification: the hexadecimal digest of the
    MD5 hash of the lines ["{name}={value}\n"], in the order of the
    parameters. *)
Definition uuid_of (nvs : list (string * string)) : string :=
  hex (MD5.sum (foldr (fun nv s => nv.1 +:+ "=" +:+ nv.2 +:+ newline +:+ s) "" nvs)).

Definition name_values (t : Task) : list (string * string) :=
  (fun tp => (tpName tp, tpValue tp)) <$> tParams t.

(** The (name, value) pairs of the tasks of an expansion. *)
Definition assignments (r : result (list Task)) : result (list (list (string * string))) :=
  match r with
  | Ok ts => Ok (name_values <$> ts)
  | Err e => Err e
  | Panic => Panic
  | OutOfFuel => OutOfFuel
  end.

(** The identifier stored in a task is absent or the one of its
    parameters. *)
Definition uuid_ok (t : Task) : Prop :=
  tuuid t = "" ∨ tuuid t = uuid_of (name_values t).

Definition is_lower_hex (c : ascii) : bool :=
  let n := Z.of_nat (nat_of_ascii c) in
  ((48 <=? n) && (n <=? 57)) || ((97 <=? n) && (n <=? 102)).

Fixpoint all_chars (f : ascii → bool) (s : string) : bool :=
  match s with
  | EmptyString => true
  | String c s' => f c && all_chars f s'
  end.

(** "[0] is rewritten to [1] at load" *)
Definition default_cores (run : Run) : Run :=
  if rCores run =? 0 then set_Cores run 1 else run.

(** a stage fits the pool *)
Definition fits (cfg : RuntimeConfig) (run : Run) : Prop := rCores run ≤ len (Cpus cfg).

(** (P1) at most one active run of a task occupies cores of the map *)
Definition exclusive (m : gmap Z (option ActiveTaskRun)) : Prop :=
  ∀ (c1 c2 : Z) (a1 a2 : ActiveTaskRun),
    m !! c1 = Some (Some a1) → m !! c2 = Some (Some a2) →
    aTask a1 = aTask a2 → a1 = a2.

(** no run of [task] occupies a core *)
Definition free_of (m : gmap Z (option ActiveTaskRun)) (task : nat) : Prop :=
  ∀ (c : Z) (a : ActiveTaskRun), m !! c = Some (Some a) → aTask a ≠ task.

(** no run of the task of [atr] other than [atr] occupies a core *)
Definition only_of (m : gmap Z (option ActiveTaskRun)) (atr : ActiveTaskRun) : Prop :=
  ∀ (c : Z) (a : ActiveTaskRun), m !! c = Some (Some a) → aTask a = aTask atr → a = atr.

(** What the exclusion test has established where the driver stands. *)
Definition driver_ok (s : State) : Prop :=
  match drv s with
  | DNew _ task _ => free_of (tasksInFlight s) task
  | DSet task atr _ _ => aTask atr = task ∧ only_of (tasksInFlight s) atr
  | _ => True
  end.

(** The records of the runs stand for the runs: the [k]-th run started has
    [aid = k], and a run in the core map is one that was started or the
    one the driver is allocating (until a panic stops the program). *)
Definition registered (s : State) : Prop :=
  (∀ k a pc, sups s !! k = Some (a, pc) → aid a = k) ∧
  (∀ c a, tasksInFlight s !! c = Some (Some a) →
     (∃ pc, sups s !! aid a = Some (a, pc)) ∨
     (∃ task cores j, drv s = DSet task a cores j) ∨ drv s = DPanic) ∧
  (∀ task a cores j, drv s = DSet task a cores j → aid a = length (sups s)).

(** The invariant of the scheduler and its supervisors. *)
Definition scheduler_inv (s : State) : Prop :=
  exclusive (tasksInFlight s) ∧ driver_ok s ∧ registered s.

(** [strings.Join], for a separator of one byte. *)
Fixpoint Join (pieces : list string) (sep : ascii) : string :=
  match pieces with
  | [] => EmptyString
  | piece :: pieces' =>
      match pieces' with
      | [] => piece
      | _ :: _ => piece +:+ String sep (Join pieces' sep)
      end
  end.

(** The number of the combinations of one value per list. *)
Definition combinations (vals : list (list TaskParam)) : nat :=
  foldr (fun vs n => (length vs * n)%nat) 1%nat vals.

(** A task as [nextTask] creates it for the job [j]. *)
Definition created_for (j : Job) (t : Task) : Prop :=
  length (tParams t) = length (jParams j) ∧
  tInputs t = jInputs j ∧ tOutputs t = jOutputs j ∧
  truns t = None ∧ tuuid t = "".

(** [task] points to a task that has a run queue. *)
Definition queued (h : list Task) (task : nat) : Prop :=
  ∃ t q, h !! task = Some t ∧ truns t = Some q.

(** The cores of [l] are distinct, and vacant in the map. *)
Definition vacant (m : gmap Z (option ActiveTaskRun)) (l : list Z) : Prop :=
  NoDup l ∧ ∀ c, c ∈ l → m !! c = Some None.

(** What the driver holds where it stands: a task with a queue, free cores
    that are still free, a run that fits them, and the offset [j] at its
    first value. *)
Definition driver_sound (s : State) : Prop :=
  match drv s with
  | DTop | DWait | DDone => True
  | DPeak freeCores task =>
      queued (heap s) task ∧ vacant (tasksInFlight s) freeCores
  | DExcl freeCores task nextRun | DNew freeCores task nextRun =>
      queued (heap s) task ∧ vacant (tasksInFlight s) freeCores ∧
      rCores nextRun ≤ len freeCores
  | DSet task activeTaskRun cores j =>
      queued (heap s) task ∧ queued (heap s) (aTask activeTaskRun) ∧
      vacant (tasksInFlight s) cores ∧ j = 1
  | DIter task => queued (heap s) task
  | DPanic => False
  end.

(** Every pointer to a task that the scheduler holds is one to a task with
    a run queue, and the driver is sound. *)
Definition sound (s : State) : Prop :=
  (∀ task, task ∈ jwaitList (job s) → queued (heap s) task) ∧
  (∀ a pc, (a, pc) ∈ sups s → queued (heap s) (aTask a)) ∧
  (∀ c a, tasksInFlight s !! c = Some (Some a) → queued (heap s) (aTask a)) ∧
  driver_sound s.

(** A supervisor that has not called [wg.Done()] yet. *)
Definition waiting (pc : super) : bool :=
  match pc with
  | SRelease _ => false
  | _ => true
  end.

(** The number of the supervisors that have not called [wg.Done()] yet. *)
Fixpoint outstanding (l : list (ActiveTaskRun * super)) : Z :=
  match l with
  | [] => 0
  | (_, pc) :: l' => (if waiting pc then 1 else 0) + outstanding l'
  end.

(** The wait group counts the supervisors that have not signalled; the
    driver leaves its loop with the wait list empty, and [wg.Wait()] with
    the counter at zero. *)
Definition drained (s : State) : Prop :=
  wg s = outstanding (sups s) ∧
  (drv s = DWait ∨ drv s = DDone → jwaitList (job s) = []) ∧
  (drv s = DDone → wg s = 0).

(** The task the driver works on is the one at the cursor of the wait
    list, and the cursor is not negative. *)
Definition at_cursor (s : State) : Prop :=
  0 ≤ cursor s ∧
  match drv s with
  | DPeak _ task | DExcl _ task _ | DNew _ task _ | DSet task _ _ _ | DIter task =>
      jwaitList (job s) !! Z.to_nat (cursor s) = Some task
  | _ => True
  end.

(** A core is occupied by a run it was selected for; while the driver sets
    the cores of a run, those left to set are cores of the run; and a
    supervisor that releases its cores has the cores its run still
    occupies before it. *)
Definition held (s : State) : Prop :=
  (∀ c a, tasksInFlight s !! c = Some (Some a) → c ∈ aCoreIds a) ∧
  (∀ task atr cores j c, drv s = DSet task atr cores j → c ∈ cores → c ∈ aCoreIds atr) ∧
  (∀ k a rest c, sups s !! k = Some (a, SRelease rest) →
     tasksInFlight s !! c = Some (Some a) → c ∈ rest).

(** The run queue of the task that [task] points to. *)
Definition queue_of (h : list Task) (task : nat) : option Queue := h !! task ≫= truns.

(** The run the driver is setting the cores of. *)
Definition pending (d : driver) : list ActiveTaskRun :=
  match d with
  | DSet _ activeTaskRun _ _ => [activeTaskRun]
  | _ => []
  end.

(** The stages of the task that [task] points to which have been
    dispatched, in the order of their dispatch. *)
Definition dispatched (s : State) (task : nat) : list Run :=
  arun <$> filter (fun a => aTask a = task) ((fst <$> sups s) ++ pending (drv s)).

(** The stages [runs] of the job are dispatched in order: what has been
    dispatched of a task and what its queue holds make up [runs], unless
    the queue has been cleared; and the stage the driver has peeked is the
    one that follows the dispatched ones. *)
Definition in_order (runs : list Run) (s : State) : Prop :=
  (∀ task q, queue_of (heap s) task = Some q →
     ∃ rest, dispatched s task ++ rest = runs ∧ (q = rest ∨ q = [])) ∧
  (∀ freeCores task nextRun q,
     drv s = DExcl freeCores task nextRun ∨ drv s = DNew freeCores task nextRun →
     queue_of (heap s) task = Some q →
     ∃ rest, dispatched s task ++ nextRun :: rest = runs ∧
             (q = nextRun :: rest ∨ q = [])).

(** The cores that the supervisor of a run has still to release: all of
    the run until the supervisor has called [wg.Done()]. *)
Definition to_release (a : ActiveTaskRun) (pc : super) : list Z :=
  match pc with
  | SRelease coreIds => coreIds
  | _ => aCoreIds a
  end.

(** The run has as many cores as its stage asks for, each once. *)
Definition granted (a : ActiveTaskRun) : Prop :=
  NoDup (aCoreIds a) ∧ length (aCoreIds a) = Z.to_nat (rCores (arun a)).

(** A run occupies every core that its supervisor has still to release,
    and the run whose cores the driver sets occupies those that are set. *)
Definition owned (s : State) : Prop :=
  (∀ k a pc, sups s !! k = Some (a, pc) →
     granted a ∧ NoDup (to_release a pc) ∧
     ∀ c, c ∈ to_release a pc → tasksInFlight s !! c = Some (Some a)) ∧
  (∀ task atr cores j, drv s = DSet task atr cores j →
     granted atr ∧
     ∀ c, c ∈ aCoreIds atr → c ∈ cores ∨ tasksInFlight s !! c = Some (Some atr)).

(** The values a declaration lists: those of [only], or else its
    default. *)
Definition listed (param : JobParam) : list string :=
  match jpOnly param with
  | [] => if String.eqb (jpDefault param) "" then [] else [jpDefault param]
  | _ :: _ => jpOnly param
  end.

(** ** Example inputs *)

Definition int_range (name min max step mode : string) : JobParam :=
  {| jpName := name; jpType := "integer"; jpDefault := ""; jpOnly := [];
     jpMin := min; jpMax := max; jpStep := step; jpStepMode := mode |}.

Definition with_only (name ty : string) (only : list string) : JobParam :=
  {| jpName := name; jpType := ty; jpDefault := ""; jpOnly := only;
     jpMin := ""; jpMax := ""; jpStep := ""; jpStepMode := "" |}.

(** [min=0, max=4, step=2] *)
Definition range_0_4_2 : JobParam := int_range "x" "0" "4" "2" "".

(** a negative step *)
Definition range_down : JobParam := int_range "x" "0" "0" "-1" "".

(** a range that ends at the largest [int] *)
Definition range_top : JobParam :=
  int_range "x" "9223372036854775807" "9223372036854775807" "" "".

(** [min=1, max=8, step=2, step_mode=power] *)
Definition power_1_8_2 : JobParam := int_range "x" "1" "8" "2" "power".

(** [min=1, max=3, step_mode=power] *)
Definition power_1_3 : JobParam := int_range "x" "1" "3" "" "power".

(** [min=0, max=4, step=2] next to [only = [7]] *)
Definition range_beside_only : JobParam :=
  {| jpName := "x"; jpType := "integer"; jpDefault := ""; jpOnly := ["7"];
     jpMin := "0"; jpMax := "4"; jpStep := "2"; jpStepMode := "" |}.

(** [min=0, max=4, step_mode=power] next to [only = [7]] *)
Definition power_beside_only : JobParam :=
  {| jpName := "x"; jpType := "integer"; jpDefault := ""; jpOnly := ["7"];
     jpMin := "0"; jpMax := "4"; jpStep := ""; jpStepMode := "power" |}.

Definition job_of (params : list JobParam) (runs : list Run) : Job :=
  {| jParams := params; jInputs := []; jOutputs := []; jRuns := runs;
     jwaitList := []; jscheduleGrace := 0 |}.

(** [x ∈ {1,2}], [y ∈ {10,20}] *)
Definition job_x_y : Job :=
  job_of [with_only "x" "integer" ["1"; "2"]; with_only "y" "integer" ["10"; "20"]] [].

(** no declaration at all *)
Definition job_no_params : Job := job_of [] [].

(** two consecutive declarations of the same name *)
Definition job_x_x : Job :=
  job_of [with_only "x" "integer" ["1"; "2"]; with_only "x" "integer" ["10"; "20"]] [].

(** a declaration of type "int" *)
Definition decl_int : JobParam := with_only "x" "int" ["1"].

(** an integer range whose [min] is not a number *)
Definition decl_bad_min : JobParam := int_range "x" "abc" "4" "" "".

(** an integer range with [max < min] *)
Definition decl_5_1 : JobParam := int_range "n" "5" "1" "" "".

(** a string declaration without values *)
Definition decl_silent : JobParam := with_only "s" "string" [].

(** an invalid declaration behind one that yields no value *)
Definition job_shadowed : Job := job_of [decl_silent; decl_5_1] [].

(** an invalid declaration behind one that yields a value *)
Definition job_bad : Job := job_of [with_only "x" "string" ["a"]; decl_5_1] [].

Definition two_cpus : RuntimeConfig := {| Cpus := [0; 1]; ScheduleGrace := 0 |}.

(** the task [(x=1, y=10)] *)
Definition task_1_10 : Task :=
  newTask job_x_y [mkTaskParam (with_only "x" "integer" ["1"; "2"]) "1";
                   mkTaskParam (with_only "y" "integer" ["10"; "20"]) "10"].

Definition stage (name : string) (cores : Z) : Run :=
  {| rName := name; rImage := ""; rCores := cores; rDevices := [];
     rCmd := ""; rPath := ""; rexitCode := 0 |}.

(** a job that expands to no task, with a stage of five cores and a stage
    of no cores *)
Definition job_idle : Job := job_of [decl_silent] [stage "big" 5; stage "none" 0].

(** one task, one stage that names no number of cores *)
Definition job_one : Job := job_of [with_only "x" "string" ["a"]] [stage "s1" 0].

(** one task, a stage of three cores *)
Definition job_three : Job := job_of [with_only "x" "string" ["a"]] [stage "s1" 0; stage "s3" 3].

Definition no_cpus : RuntimeConfig := {| Cpus := []; ScheduleGrace := 0 |}.

Definition one_cpu : RuntimeConfig := {| Cpus := [0]; ScheduleGrace := 0 |}.

(** one task, one stage of one core *)
Definition job_single : Job := job_of [with_only "x" "string" ["a"]] [stage "s1" 1].

(** one task, two stages of one core each *)
Definition job_two_stages : Job :=
  job_of [with_only "x" "string" ["a"]] [stage "s1" 1; stage "s2" 1].

(** The state in which [Start] is entered after [NewJob]. *)
Definition loaded (fuel : nat) (job : Job) (cfg : RuntimeConfig) : option State :=
  match NewJob fuel job cfg with
  | Ok w => Some (start w)
  | _ => None
  end.

(** The driver dispatches the first stage of [job_single] on core [0]; the
    run ends well and its supervisor signals the wait group. *)
Definition trace_signal : list label :=
  [Drive false; Drive false; Drive false; Drive false; Drive false; Drive false;
   Supervise 0 0 false; Supervise 0 0 false].

(** The driver then passes the drain check, leaves the loop and returns
    from [wg.Wait()]. *)
Definition trace_return : list label := [Drive false; Drive false; Drive false].

(** The driver dispatches the first stage of [job_two_stages], comes back
    to the task and peeks its second stage; then the first run ends with
    exit code 1, its supervisor cancels the task, signals and releases its
    core. *)
Definition trace_cancel : list label :=
  [Drive false; Drive false; Drive false; Drive false; Drive false; Drive false;
   Drive false; Drive false; Drive false;
   Supervise 0 1 false; Supervise 0 1 false; Supervise 0 1 false].

(** The driver goes on from where it peeked: exclusion test, selection of
    a core, [Dequeue], [Set], start of the supervisor. *)
Definition trace_dispatch : list label :=
  [Drive false; Drive false; Drive false; Drive false].

(** The input [1-4] of [parseCpuSets] and the input [0,2,5]. *)
Definition cpu_set_1_4 : string := "1" +:+ "-" +:+ "4".
Definition cpu_set_0_2_5 : string := Join ["0"; "2"; "5"] ",".

(** The value lists of the declarations of [job_x_x]. *)
Definition expansion_x_x : list (list TaskParam) :=
  [mkTaskParam (with_only "x" "integer" ["1"; "2"]) <$> ["1"; "2"];
   mkTaskParam (with_only "x" "integer" ["10"; "20"]) <$> ["10"; "20"]].

(** The tasks with the one parameter [a=b] of value [c], and with the one
    parameter [a] of value [b=c]. *)
Definition task_ab_c : Task :=
  newTask job_no_params [{| tpName := "a" +:+ "=" +:+ "b"; tpType := "string"; tpValue := "c" |}].
Definition task_a_bc : Task :=
  newTask job_no_params [{| tpName := "a"; tpType := "string"; tpValue := "b" +:+ "=" +:+ "c" |}].

(** The driver up to the head of the loop that sets the core of the first
    stage. *)
Definition trace_select : list label :=
  [Drive false; Drive false; Drive false; Drive false].

(** A whole run of [job_single] on one core: the stage is dispatched, ends
    well, its supervisor signals and releases the core, and the driver
    finds the queue of the task empty, leaves the loop and returns. *)
Definition trace_whole : list label :=
  [Drive false; Drive false; Drive false; Drive false; Drive false; Drive false;
   Supervise 0 0 false; Supervise 0 0 false; Supervise 0 0 false;
   Drive false; Drive false; Drive false].

(** The same run up to the point where the run is over and the driver
    stands at the label [iterator], the queue of the task empty. *)
Definition trace_served : list label :=
  [Drive false; Drive false; Drive false; Drive false; Drive false; Drive false;
   Supervise 0 0 false; Supervise 0 0 false; Supervise 0 0 false].

(** What [NewJob] returns for [job_single] on one core. *)
Definition loaded_single : Job * list Task * gmap Z (option ActiveTaskRun) :=
  (set_job job_single [stage "s1" 1] [0%nat] 0,
   [Init (newTask job_single [mkTaskParam (with_only "x" "string" ["a"]) "a"])
      [stage "s1" 1]],
   NewCoreMap [0]).

(** The driver dispatches both stages of [job_two_stages], one after the
    other has ended well. *)
Definition trace_two_stages : list label :=
  [Drive false; Drive false; Drive false; Drive false; Drive false; Drive false;
   Drive false;
   Supervise 0 0 false; Supervise 0 0 false; Supervise 0 0 false;
   Drive false; Drive false; Drive false; Drive false; Drive false; Drive false].

(** What [NewJob] returns for [job_two_stages] on two cores. *)
Definition loaded_two_stages : Job * list Task * gmap Z (option ActiveTaskRun) :=
  (set_job job_two_stages [stage "s1" 1; stage "s2" 1] [0%nat] 0,
   [Init (newTask job_two_stages [mkTaskParam (with_only "x" "string" ["a"]) "a"])
      [stage "s1" 1; stage "s2" 1]],
   NewCoreMap [0; 1]).

(** One task with a stage of two cores. *)
Definition job_wide : Job := job_of [with_only "x" "string" ["a"]] [stage "s1" 2].

(** What [NewJob] returns for [job_wide] on two cores. *)
Definition loaded_wide : Job * list Task * gmap Z (option ActiveTaskRun) :=
  (set_job job_wide [stage "s1" 2] [0%nat] 0,
   [Init (newTask job_wide [mkTaskParam (with_only "x" "string" ["a"]) "a"])
      [stage "s1" 2]],
   NewCoreMap [0; 1]).

(** The driver dispatches the stage of [job_wide] on both cores and starts
    its supervisor. *)
Definition trace_wide : list label :=
  [Drive false; Drive false; Drive false; Drive false; Drive false; Drive false;
   Drive false].

(** An integer declaration whose [only] holds no number, and whose range
    fields are not valid. *)
Definition decl_unchecked : JobParam :=
  {| jpName := "x"; jpType := "integer"; jpDefault := ""; jpOnly := ["abc"];
     jpMin := "zzz"; jpMax := ""; jpStep := "0"; jpStepMode := "none" |}.

(** What [NewJob] returns for [job_one] on a pool without cores. *)
Definition loaded_nowhere : Job * list Task * gmap Z (option ActiveTaskRun) :=
  (set_job job_one [stage "s1" 1] [0%nat] 0,
   [Init (newTask job_one [mkTaskParam (with_only "x" "string" ["a"]) "a"]) [stage "s1" 1]],
   NewCoreMap []).

(* ===================================================================== *)
(** * Properties *)
(* ===================================================================== *)

(** ** Integers and loops *)

Lemma wrap_id (z : Z) : MinInt ≤ z ≤ MaxInt → wrap z = z.
Proof.
  unfold wrap, MinInt, MaxInt. intros H.
  rewrite Z.mod_small; lia.
Qed.

Lemma Atoi_range (s : string) (v : Z) : Atoi s = Ok v → MinInt ≤ v ≤ MaxInt.
Proof.
  unfold Atoi. intros H.
  repeat case_match; simplify_eq;
    match goal with E : (_ && _) = true |- _ => apply andb_prop in E end; lia.
Qed.

Lemma Atoi_cases (s : string) : (∃ v, Atoi s = Ok v) ∨ Atoi s = Err (ErrAtoi s).
Proof. unfold Atoi. repeat case_match; eauto. Qed.

Lemma slen_pos (s : string) : (0 <? slen s) = negb (String.eqb s "").
Proof. destruct s; reflexivity. Qed.

Lemma slen_pos_true (s : string) : s ≠ "" → (0 <? slen s) = true.
Proof. destruct s; [congruence | reflexivity]. Qed.

(** A loop whose variable stays where the condition holds has no result. *)
Lemma for_loop_stuck {S : Type} (cond : Z → bool) (body : Z → S → S) (i : Z) :
  cond i = true →
  ∀ (fuel : nat) (acc : S), for_loop fuel cond (fun i => i) body i acc = OutOfFuel.
Proof.
  intros Hc fuel. induction fuel as [|fuel IH]; intros acc; simpl; [done|].
  rewrite Hc. apply IH.
Qed.

Lemma for_loop_mono {S : Type} (cond : Z → bool) (post : Z → Z) (body : Z → S → S)
    (fuel fuel' : nat) (i : Z) (acc r : S) :
  for_loop fuel cond post body i acc = Ok r → (fuel ≤ fuel')%nat →
  for_loop fuel' cond post body i acc = Ok r.
Proof.
  revert fuel' i acc. induction fuel as [|fuel IH]; intros fuel' i acc; simpl; [done|].
  intros H Hle. destruct fuel' as [|fuel']; [lia|]. simpl.
  destruct (cond i); [|done]. apply IH; [done | lia].
Qed.

Lemma for_loop_not_err {S : Type} (cond : Z → bool) (post : Z → Z) (body : Z → S → S)
    (fuel : nat) (i : Z) (acc : S) (e : error) :
  for_loop fuel cond post body i acc ≠ Err e.
Proof.
  revert i acc. induction fuel as [|fuel IH]; intros i acc; simpl; [done|].
  destruct (cond i); [apply IH | done].
Qed.

Lemma count_succ (min max step : Z) :
  0 < step → min ≤ max → count min max step = S (count (min + step) max step).
Proof.
  intros Hs Hm. unfold count.
  replace (max - min) with ((max - (min + step)) + 1 * step) by lia.
  rewrite Z.div_add by lia.
  assert (-1 ≤ (max - (min + step)) / step).
  { apply Z.div_le_lower_bound; lia. }
  lia.
Qed.

Lemma count_zero (min max step : Z) : 0 < step → max < min → count min max step = O.
Proof.
  intros Hs Hm. unfold count.
  assert ((max - min) / step < 0) by (apply Z.div_lt_upper_bound; lia).
  lia.
Qed.

(** The loop of the increment mode, when its variable cannot wrap. *)
Lemma for_loop_increment (param : JobParam) (max step : Z) :
  0 < step →
  ∀ (n fuel : nat) (i : Z) (acc : list TaskParam),
    n = count i max step → (n < fuel)%nat →
    MinInt ≤ i → i + Z.of_nat n * step ≤ MaxInt →
    for_loop fuel (fun i => i <=? max) (fun i => int_add i step)
      (fun i ps => ps ++ [mkTaskParam param (Itoa i)]) i acc
    = Ok (acc ++ values_of param (increments n i step)).
Proof.
  intros Hs n. induction n as [|n IH]; intros fuel i acc Hn Hf Hlo Hhi.
  - destruct fuel as [|fuel]; [lia|]. simpl.
    destruct (Z.leb_spec i max) as [Hle|Hgt].
    + rewrite count_succ in Hn by lia. discriminate.
    + by rewrite app_nil_r.
  - destruct fuel as [|fuel]; [lia|]. simpl.
    destruct (Z.leb_spec i max) as [Hle|Hgt].
    + rewrite count_succ in Hn by lia. injection Hn as Hn.
      unfold int_add. rewrite wrap_id by lia.
      rewrite (IH fuel (i + step) _ Hn) by lia.
      by rewrite <- app_assoc.
    + rewrite count_zero in Hn by lia. discriminate.
Qed.

Lemma increments_lookup (n : nat) (i step : Z) (k : nat) (v : Z) :
  increments n i step !! k = Some v → v = i + Z.of_nat k * step ∧ (k < n)%nat.
Proof.
  revert i k. induction n as [|n IH]; intros i k; simpl; [done|].
  destruct k as [|k]; simpl.
  - intros [= <-]. lia.
  - intros H. apply IH in H. lia.
Qed.

Lemma increments_length (n : nat) (i step : Z) : length (increments n i step) = n.
Proof. revert i. induction n as [|n IH]; intros i; simpl; [done | by rewrite IH]. Qed.

(** The list [increments] is the progression the specification describes. *)
Lemma increments_spec (min max step : Z) :
  0 < step → min ≤ max →
  increment_values min max step (increments (count min max step) min step).
Proof.
  intros Hs Hm. unfold increment_values, len. rewrite increments_length.
  assert (Hc : Z.of_nat (count min max step) = (max - min) / step + 1).
  { unfold count. assert (0 ≤ (max - min) / step) by (apply Z.div_pos; lia). lia. }
  pose proof (Z.mul_div_le (max - min) step Hs) as Hd.
  pose proof (Z.mul_succ_div_gt (max - min) step Hs) as Hu.
  split.
  - intros k v Hk. apply increments_lookup in Hk as [-> Hk]. split; [done|]. nia.
  - rewrite Hc. lia.
Qed.

Lemma wrap_range (z : Z) : MinInt ≤ wrap z ≤ MaxInt.
Proof.
  unfold wrap, MinInt, MaxInt.
  pose proof (Z.mod_pos_bound (z + 2 ^ 63) (2 ^ 64) ltac:(lia)). lia.
Qed.

(** A loop whose condition holds along the way has no result. *)
Lemma for_loop_diverges {S : Type} (P : Z → Prop) (cond : Z → bool) (post : Z → Z)
    (body : Z → S → S) :
  (∀ i, P i → cond i = true ∧ P (post i)) →
  ∀ (fuel : nat) (i : Z) (acc : S), P i → for_loop fuel cond post body i acc = OutOfFuel.
Proof.
  intros HP fuel. induction fuel as [|fuel IH]; intros i acc Hi; simpl; [done|].
  destruct (HP i Hi) as [-> Hp]. by apply IH.
Qed.

(** ** Integer ranges ([parseParamInt]) *)

Lemma parseParamInt_range (fuel : nat) (param : JobParam) (min max step : Z) :
  range_decl param min max step →
  parseParamInt fuel param =
    let body := fun i ps => ps ++ [mkTaskParam param (Itoa i)] in
    if (slen (jpStepMode param) =? 0) || String.eqb (jpStepMode param) "increment"
    then for_loop fuel (fun i => i <=? max) (fun i => int_add i step) body min []
    else if String.eqb (jpStepMode param) "power"
    then for_loop fuel (fun i => i <=? max) (fun i => i) body min []
    else Err (ErrUnknownStepMode (jpName param) (jpStepMode param)).
Proof.
  intros (Ho & Hmin & Hamin & Hamax & Hle & Hstep & Hnz).
  unfold parseParamInt. rewrite Ho. simpl.
  rewrite slen_pos_true by done. rewrite Hamin, Hamax. simpl.
  destruct (Z.ltb_spec max min) as [?|_]; [lia|].
  destruct Hstep as [[-> ->]|[Hs ->]]; simpl.
  - done.
  - rewrite slen_pos_true by done.
    destruct (Z.eqb_spec step 0) as [?|_]; [lia|]. done.
Qed.

(** C5, as the code has it: on [min=1, max=8, step=2] in power mode the
    specification asks for the values [1, 2, 4, 8], and [parseParamInt]
    returns nothing, whatever the number of iterations it is given. *)
Theorem power_mode_has_no_result :
  power_values 1 8 2 [1; 2; 4; 8] ∧
  ∀ fuel : nat, parseParamInt fuel power_1_8_2 = OutOfFuel.
Proof.
  split.
  - split.
    + intros k v Hk.
      do 4 (destruct k as [|k]; [injection Hk as <-; simpl; lia|]). done.
    + reflexivity.
  - intros fuel. rewrite (parseParamInt_range fuel power_1_8_2 1 8 2).
    + simpl. by apply for_loop_stuck.
    + repeat split; try done. right. done.
Qed.

(** C6, amended: for every integer declaration without an [only] list,
    in power mode, with [min ≤ max] and a valid step, the loop of
    [parseParamInt] does not terminate: its variable stays at [min], and
    no number of iterations gives a result. *)
Theorem power_mode_diverges (param : JobParam) (min max step : Z) (fuel : nat) :
  range_decl param min max step →
  jpStepMode param = "power" →
  parseParamInt fuel param = OutOfFuel.
Proof.
  intros Hr Hm. rewrite (parseParamInt_range fuel param min max step Hr).
  rewrite Hm. simpl. apply for_loop_stuck.
  destruct Hr as (_ & _ & _ & _ & Hle & _). by apply Z.leb_le.
Qed.

Lemma power_mode_diverges_witness : parseParamInt 100 power_1_3 = OutOfFuel.
Proof.
  apply (power_mode_diverges power_1_3 1 3 1 100).
  - repeat split; try done. left. done.
  - reflexivity.
Defined.

Lemma only_not_range (fuel : nat) (param : JobParam) (min max step : Z) (l : list Z) :
  parseParamInt fuel param = Ok (values_of param l) →
  jpOnly param = ["7"] → min = 0 →
  ¬ increment_values min max step l.
Proof.
  intros Hp Ho -> [Hl _]. unfold parseParamInt in Hp. rewrite Ho in Hp.
  simpl in Hp. unfold append_only in Hp. rewrite Ho in Hp. simpl in Hp.
  destruct l as [|v l]; [discriminate|].
  destruct (Hl 0%nat v eq_refl) as [-> _]. discriminate.
Qed.

(** C6, as stated, fails on [min=1, max=3] in power mode, where the values
    [1, 2, 3] of the increment mode are never returned, and on a
    declaration with an [only] list, whose range is not looked at. *)
Lemma power_mode_not_increment :
  ¬ power_as_increment_claim power_1_3 ∧ ¬ power_as_increment_claim power_beside_only.
Proof.
  split.
  - intros H. destruct (H 1 3 1) as (fuel & l & Hp & _).
    + repeat split; try done. left. done.
    + done.
    + rewrite (parseParamInt_range fuel power_1_3 1 3 1) in Hp.
      * simpl in Hp. rewrite for_loop_stuck in Hp; done.
      * repeat split; try done. left. done.
  - intros H. destruct (H 0 4 1) as (fuel & l & Hp & Hl).
    + repeat split; try done. left. done.
    + done.
    + by apply (only_not_range _ _ _ _ _ _ Hp) in Hl.
Qed.

Lemma parseParamInt_increment (fuel : nat) (param : JobParam) (min max step : Z) :
  range_decl param min max step →
  jpStepMode param = "" ∨ jpStepMode param = "increment" →
  parseParamInt fuel param =
    for_loop fuel (fun i => i <=? max) (fun i => int_add i step)
      (fun i ps => ps ++ [mkTaskParam param (Itoa i)]) min [].
Proof.
  intros Hr Hm. rewrite (parseParamInt_range fuel param min max step Hr).
  destruct Hm as [-> | ->]; reflexivity.
Qed.

(** C7, amended: for every integer declaration without an [only] list,
    with [step_mode] absent or "increment", [min ≤ max], a positive step,
    and a first value beyond [max] that still fits an [int],
    [parseParamInt] returns exactly the values [min, min+step,
    min+2·step, …] that are [≤ max], in that order; [min=0, max=4,
    step=2] gives "0", "2", "4". *)
Theorem increment_mode_values :
  (∀ (param : JobParam) (min max step : Z) (fuel : nat),
     range_decl param min max step →
     jpStepMode param = "" ∨ jpStepMode param = "increment" →
     0 < step →
     min + Z.of_nat (count min max step) * step ≤ MaxInt →
     (count min max step < fuel)%nat →
     parseParamInt fuel param
       = Ok (values_of param (increments (count min max step) min step)) ∧
     increment_values min max step (increments (count min max step) min step)) ∧
  parseParamInt 4 range_0_4_2 = Ok (mkTaskParam range_0_4_2 <$> ["0"; "2"; "4"]).
Proof.
  split; [|reflexivity].
  intros param min max step fuel Hr Hm Hs Hov Hf. split.
  - rewrite (parseParamInt_increment fuel param min max step Hr Hm).
    rewrite (for_loop_increment param max step Hs (count min max step)); try done.
    destruct Hr as (_ & _ & Ha & _). by apply Atoi_range in Ha as [? _].
  - apply increments_spec; [done|]. by destruct Hr as (_ & _ & _ & _ & ? & _).
Qed.

Lemma increment_mode_values_witness :
  parseParamInt 4 range_0_4_2
    = Ok (values_of range_0_4_2 (increments (count 0 4 2) 0 2)) ∧
  increment_values 0 4 2 (increments (count 0 4 2) 0 2).
Proof.
  apply (proj1 increment_mode_values range_0_4_2 0 4 2 4%nat).
  - repeat split; try done. right. done.
  - left. reflexivity.
  - lia.
  - vm_compute. discriminate.
  - vm_compute. lia.
Defined.

(** C7, as stated, fails for a negative step, where the values
    [min, min+step, …] never exceed [max]; for a range whose last value is
    the largest [int], where the loop variable wraps around and the loop
    does not end; and for a declaration with an [only] list, whose range
    is not looked at. *)
Lemma increment_mode_fails :
  ¬ increment_claim range_down ∧ ¬ increment_claim range_top ∧
  ¬ increment_claim range_beside_only.
Proof.
  split; [|split].
  - intros H. destruct (H 0 0 (-1)) as (fuel & l & _ & _ & Hl).
    + repeat split; try done. right. done.
    + by left.
    + unfold len in Hl. lia.
  - intros H. destruct (H MaxInt MaxInt 1) as (fuel & l & Hp & _).
    + repeat split; try done. left. done.
    + by left.
    + rewrite (parseParamInt_increment fuel range_top MaxInt MaxInt 1) in Hp.
      * rewrite (for_loop_diverges (fun i => MinInt ≤ i ≤ MaxInt)) in Hp; [done| |done].
        intros i Hi. split; [apply Z.leb_le; lia | apply wrap_range].
      * repeat split; try done. left. done.
      * by left.
  - intros H. destruct (H 0 4 2) as (fuel & l & Hp & Hl).
    + repeat split; try done. right. done.
    + by left.
    + by apply (only_not_range _ _ _ _ _ _ Hp) in Hl.
Qed.

(** ** Expansion of one declaration ([paramPermutations]) *)

Lemma append_only_app (param : JobParam) (acc : list TaskParam) :
  append_only param acc = acc ++ (mkTaskParam param <$> jpOnly param).
Proof.
  unfold append_only. generalize (jpOnly param) as l. intros l. revert acc.
  induction l as [|v l IH]; intros acc; simpl.
  - by rewrite app_nil_r.
  - rewrite IH. by rewrite <- app_assoc.
Qed.

Lemma for_loop_names (param : JobParam) (cond : Z → bool) (post : Z → Z) (fuel : nat) :
  ∀ (i : Z) (acc r : list TaskParam),
    for_loop fuel cond post (fun i ps => ps ++ [mkTaskParam param (Itoa i)]) i acc = Ok r →
    Forall (fun tp => tpName tp = jpName param ∧ tpType tp = jpType param) acc →
    Forall (fun tp => tpName tp = jpName param ∧ tpType tp = jpType param) r.
Proof.
  induction fuel as [|fuel IH]; intros i acc r; simpl; [done|].
  destruct (cond i).
  - intros H Hacc. apply (IH _ _ _ H). apply Forall_app. split; [done|].
    by apply Forall_singleton.
  - by intros [= <-].
Qed.

(** Every value of a declaration carries its name and its type. *)
Lemma paramPermutations_names (fuel : nat) (param : JobParam) (vs : list TaskParam) :
  paramPermutations fuel param = Ok vs →
  Forall (fun tp => tpName tp = jpName param ∧ tpType tp = jpType param) vs.
Proof.
  assert (Honly : Forall (fun tp => tpName tp = jpName param ∧ tpType tp = jpType param)
                    (append_only param [])).
  { rewrite append_only_app. simpl. apply Forall_fmap, Forall_true. done. }
  assert (Hdef : Forall (fun tp => tpName tp = jpName param ∧ tpType tp = jpType param)
                    ([] ++ [mkTaskParam param (jpDefault param)])).
  { by apply Forall_singleton. }
  assert (Hstr : ∀ vs, parseParamStr param = Ok vs →
            Forall (fun tp => tpName tp = jpName param ∧ tpType tp = jpType param) vs).
  { unfold parseParamStr. intros vs'. repeat case_match; intros [= <-]; done. }
  assert (Hint : ∀ vs, parseParamInt fuel param = Ok vs →
            Forall (fun tp => tpName tp = jpName param ∧ tpType tp = jpType param) vs).
  { unfold parseParamInt, mbind, result_bind. intros vs'.
    repeat (case_match; simpl; try done); try (intros [= <-]; done);
      intros Hfl; by apply for_loop_names in Hfl. }
  unfold paramPermutations. repeat case_match; try done; auto.
Qed.

Lemma paramPermutations_mono (fuel fuel' : nat) (param : JobParam) (vs : list TaskParam) :
  paramPermutations fuel param = Ok vs → (fuel ≤ fuel')%nat →
  paramPermutations fuel' param = Ok vs.
Proof.
  intros H Hle.
  assert (Hint : ∀ vs, parseParamInt fuel param = Ok vs → parseParamInt fuel' param = Ok vs).
  { unfold parseParamInt, mbind, result_bind. intros vs'.
    repeat (case_match; simpl; try done); intros Hl; by apply (for_loop_mono _ _ _ fuel). }
  revert H. unfold paramPermutations. repeat case_match; auto.
Qed.

Lemma is_err_for_loop {S : Type} (cond : Z → bool) (post : Z → Z) (body : Z → S → S)
    (fuel : nat) (i : Z) (acc : S) :
  is_err (for_loop fuel cond post body i acc) = false.
Proof.
  destruct (for_loop fuel cond post body i acc) eqn:E; try done.
  by apply for_loop_not_err in E.
Qed.

(** [paramPermutations] reports an error on the declarations [rejects]
    describes, and on no other. *)
Lemma paramPermutations_rejects (fuel : nat) (param : JobParam) :
  is_err (paramPermutations fuel param) = rejects param.
Proof.
  unfold paramPermutations, rejects.
  destruct (String.eqb (jpType param) "string") eqn:Es.
  { unfold parseParamStr. by repeat case_match. }
  assert (Hint : is_err (parseParamInt fuel param) =
            match jpOnly param with
            | [] =>
                negb (String.eqb (jpMin param) "") &&
                (negb (parses (jpMin param)) || negb (parses (jpMax param))
                 || max_below_min param || bad_step param || unknown_mode param)
            | _ :: _ => false
            end).
  { unfold parseParamInt. destruct (jpOnly param) as [|o os]; [|done]. simpl.
    rewrite slen_pos. destruct (String.eqb (jpMin param) ""); [simpl|].
    { by repeat case_match. }
    simpl. unfold parses, max_below_min, bad_step, unknown_mode.
    rewrite slen_pos.
    replace (slen (jpStepMode param) =? 0) with (String.eqb (jpStepMode param) "")
      by (by destruct (jpStepMode param)).
    destruct (Atoi_cases (jpMin param)) as [[min ->] | ->]; simpl; [|done].
    destruct (Atoi_cases (jpMax param)) as [[max ->] | ->]; simpl; [|done].
    destruct (max <? min); simpl; [done|].
    destruct (String.eqb (jpStep param) ""); simpl.
    - destruct (String.eqb (jpStepMode param) "" || String.eqb (jpStepMode param) "increment");
        simpl; [apply is_err_for_loop|].
      destruct (String.eqb (jpStepMode param) "power"); simpl; [apply is_err_for_loop|done].
    - destruct (Atoi (jpStep param)) as [step| | |]; simpl; try done.
      destruct (step =? 0); simpl; [done|].
      destruct (String.eqb (jpStepMode param) "" || String.eqb (jpStepMode param) "increment");
        simpl; [apply is_err_for_loop|].
      destruct (String.eqb (jpStepMode param) "power"); simpl; [apply is_err_for_loop|done]. }
  destruct (String.eqb (jpType param) "int"); simpl; [done|].
  destruct (String.eqb (jpType param) "integer"); simpl; done.
Qed.

(** ** Expansion of a job ([nextTask], [tasks]) *)

Lemma replace_last_nil (v : TaskParam) : replace_last [] v = [v].
Proof. reflexivity. Qed.

Lemma replace_last_other (curr : list TaskParam) (l v : TaskParam) :
  last curr = Some l → tpName l ≠ tpName v → replace_last curr v = curr ++ [v].
Proof.
  intros Hl Hn. unfold replace_last. rewrite Hl.
  destruct (String.eqb_spec (tpName l) (tpName v)) as [?|_]; [done|].
  by destruct (0 <? len curr).
Qed.

Lemma replace_last_same (curr : list TaskParam) (u v : TaskParam) :
  tpName u = tpName v → replace_last (curr ++ [u]) v = curr ++ [v].
Proof.
  intros Hn. unfold replace_last. rewrite last_snoc, Hn, String.eqb_refl.
  rewrite removelast_last.
  unfold len. rewrite length_app. simpl.
  destruct (Z.ltb_spec 0 (Z.of_nat (length curr + 1))) as [_|?]; [done | lia].
Qed.

Lemma make_copy_full (n : nat) (l : list TaskParam) : length l = n → make_copy n l = l.
Proof.
  intros <-. unfold make_copy. rewrite firstn_all, Nat.sub_diag. simpl.
  by rewrite app_nil_r.
Qed.

Lemma fmap_bind_list {A B C : Type} (f : B → C) (g : A → list B) (l : list A) :
  f <$> (l ≫= g) = l ≫= (fun x => f <$> g x).
Proof.
  induction l as [|x l IH]; csimpl; [done|].
  by rewrite fmap_app, IH.
Qed.

(** A loop that appends what each element contributes. *)
Lemma range_loop_emit {A T S : Type}
    (body : list T * S → A → result (list T * S)) (emit : A → list T)
    (P : S → Prop) (Q : A → Prop) :
  (∀ ts st x, P st → Q x → ∃ st', body (ts, st) x = Ok (ts ++ emit x, st') ∧ P st') →
  ∀ (l : list A) (ts : list T) (st : S),
    Forall Q l → P st →
    ∃ st', range_loop body l (ts, st) = Ok (ts ++ (l ≫= emit), st').
Proof.
  intros Hbody l. induction l as [|x l IH]; intros ts st HQ HP; simpl.
  - exists st. by rewrite app_nil_r.
  - apply Forall_cons in HQ as [Hx HQ].
    destruct (Hbody ts st x HP Hx) as (st' & -> & HP'). simpl.
    destruct (IH (ts ++ emit x) st' HQ HP') as (st'' & ->).
    exists st''. by rewrite <- app_assoc.
Qed.

(** [nextTask] at level [i] appends one task for each member of the
    product of the value lists from [i] on, each prefixed with [curr]. *)
Lemma nextTask_product (j : Job) (vals : list (list TaskParam)) (fuel0 : nat) :
  Forall2 (fun p vs => paramPermutations fuel0 p = Ok vs) (jParams j) vals →
  distinct_neighbours (jParams j) →
  ∀ (d i fuel : nat) (tasks : list Task) (curr : list TaskParam),
    (i + S d = length (jParams j))%nat →
    length curr = i →
    (∀ l p, last curr = Some l → jParams j !! i = Some p → tpName l ≠ jpName p) →
    (fuel0 + S d ≤ fuel)%nat →
    nextTask fuel j i tasks curr
    = Ok (tasks ++ ((fun suf => newTask j (curr ++ suf)) <$> product (drop i vals))).
Proof.
  intros Hvals Hdist d.
  induction d as [|d IH]; intros i fuel tasks curr Hi Hlen Hlast Hfuel.
  all: destruct fuel as [|fuel]; [lia|]; simpl.
  all: destruct (lookup_lt_is_Some_2 (jParams j) i ltac:(lia)) as [p Hp]; rewrite Hp.
  all: destruct (Forall2_lookup_l _ _ _ _ _ Hvals Hp) as (vs & Hvs & Hpp).
  all: rewrite (paramPermutations_mono fuel0 fuel p vs Hpp) by lia; simpl.
  all: pose proof (paramPermutations_names _ _ _ Hpp) as Hnames.
  all: rewrite (drop_S _ _ _ Hvs); simpl; rewrite fmap_bind_list.
  all: set (P := fun c : list TaskParam =>
                   ∀ v, tpName v = jpName p → replace_last c v = curr ++ [v]).
  all: assert (HP : P curr)
         by (intros v Hv; destruct (last curr) as [l|] eqn:El;
             [ apply (replace_last_other _ l); [done|]; rewrite Hv; by apply Hlast
             | apply last_None in El as ->; apply replace_last_nil ]).
  all: assert (HQ : Forall (fun v => tpName v = jpName p) vs)
         by (eapply Forall_impl; [exact Hnames|]; by intros ? [? _]).
  - (* the last declaration: a task per value *)
    edestruct (range_loop_emit
                 (fun (st : list Task * list TaskParam) param =>
                    let '(tasks, curr) := st in
                    let curr := replace_last curr param in
                    if Z.of_nat i + 1 =? len (jParams j)
                    then Ok (tasks ++ [newTask j (make_copy (length (jParams j)) curr)], curr)
                    else nextTasks ← nextTask fuel j (i + 1) [] curr;
                         Ok (tasks ++ nextTasks, curr))
                 (fun v => (fun suf => newTask j (curr ++ suf))
                             <$> ((fun a => v :: a) <$> product (drop (S i) vals)))
                 P (fun v => tpName v = jpName p)) as (st' & ->); [|exact HQ|exact HP|done].
    intros ts c v Hc Hv. exists (curr ++ [v]). rewrite (Hc v Hv).
    destruct (Z.eqb_spec (Z.of_nat i + 1) (len (jParams j))) as [_|Hne];
      [|unfold len in Hne; lia].
    cbv zeta. split.
    + rewrite make_copy_full by (rewrite length_app; simpl; lia).
      rewrite drop_ge by (apply Forall2_length in Hvals; lia). done.
    + intros v' Hv'. apply replace_last_same. congruence.
  - (* an inner declaration: the tasks of the levels below, per value *)
    edestruct (range_loop_emit
                 (fun (st : list Task * list TaskParam) param =>
                    let '(tasks, curr) := st in
                    let curr := replace_last curr param in
                    if Z.of_nat i + 1 =? len (jParams j)
                    then Ok (tasks ++ [newTask j (make_copy (length (jParams j)) curr)], curr)
                    else nextTasks ← nextTask fuel j (i + 1) [] curr;
                         Ok (tasks ++ nextTasks, curr))
                 (fun v => (fun suf => newTask j (curr ++ suf))
                             <$> ((fun a => v :: a) <$> product (drop (S i) vals)))
                 P (fun v => tpName v = jpName p)) as (st' & ->); [|exact HQ|exact HP|done].
    intros ts c v Hc Hv. exists (curr ++ [v]). rewrite (Hc v Hv).
    destruct (Z.eqb_spec (Z.of_nat i + 1) (len (jParams j))) as [He|_];
      [unfold len in He; lia|].
    cbv zeta. split.
    + rewrite (IH (i + 1)%nat fuel [] (curr ++ [v])).
      * simpl. rewrite <- list_fmap_compose. replace (i + 1)%nat with (S i) by lia.
        f_equal. f_equal. f_equal. apply list_fmap_ext. intros _ suf _. simpl.
        by rewrite <- app_assoc.
      * lia.
      * rewrite length_app. simpl. lia.
      * intros l q. rewrite last_snoc. intros [= <-] Hq. rewrite Hv.
        apply (Hdist i p q Hp). by replace (S i) with (i + 1)%nat by lia.
      * lia.
    + intros v' Hv'. apply replace_last_same. congruence.
Qed.

Lemma product_members (params : list JobParam) (vals : list (list TaskParam))
    (R : JobParam → list TaskParam → Prop) :
  Forall2 R params vals →
  ∀ a, a ∈ product vals → Forall2 (fun tp p => ∃ vs, R p vs ∧ tp ∈ vs) a params.
Proof.
  induction 1 as [|p vs params vals Hp _ IH]; intros a; simpl.
  - intros ->%list_elem_of_singleton. constructor.
  - intros (v & Ha & Hv)%list_elem_of_bind.
    apply list_elem_of_fmap in Ha as (a' & -> & Ha').
    constructor; [by exists vs | by apply IH].
Qed.

(** C1, amended: for every job with at least one declaration, no two
    consecutive declarations of the same name, and declarations that each
    yield a value list, [tasks] returns one task for each member of the
    cartesian product of the value lists, in lexicographic order of the
    positions (the rightmost parameter varies fastest); the parameters of
    each task are one (name, type, value) triple per declaration, in the
    order of the declarations.  For [x] with [only = [1, 2]] and [y] with
    [only = [10, 20]] the order is (1,10), (1,20), (2,10), (2,20). *)
Theorem tasks_cartesian_product :
  (∀ (j : Job) (vals : list (list TaskParam)) (fuel0 fuel : nat),
     jParams j ≠ [] →
     distinct_neighbours (jParams j) →
     Forall2 (fun p vs => paramPermutations fuel0 p = Ok vs) (jParams j) vals →
     (fuel0 + length (jParams j) ≤ fuel)%nat →
     tasks fuel j = Ok (newTask j <$> product vals) ∧
     ∀ a, a ∈ product vals →
       Forall2 (fun tp p => tpName tp = jpName p ∧ tpType tp = jpType p ∧
                            ∃ vs, paramPermutations fuel0 p = Ok vs ∧ tp ∈ vs)
         a (jParams j)) ∧
  assignments (tasks 2 job_x_y)
  = Ok [ [("x", "1"); ("y", "10")]; [("x", "1"); ("y", "20")];
         [("x", "2"); ("y", "10")]; [("x", "2"); ("y", "20")] ].
Proof.
  split; [|reflexivity].
  intros j vals fuel0 fuel Hne Hdist Hvals Hfuel. split.
  - unfold tasks.
    destruct (jParams j) as [|p0 ps] eqn:Eps; [done|].
    rewrite (nextTask_product j vals fuel0) with (d := length ps).
    + done.
    + by rewrite Eps.
    + by rewrite Eps.
    + rewrite Eps. simpl. lia.
    + done.
    + done.
    + simpl in Hfuel. lia.
  - intros a Ha.
    eapply Forall2_impl; [exact (product_members _ _ _ Hvals a Ha)|].
    intros tp p (vs & Hp & Htp). simpl in Hp.
    pose proof (paramPermutations_names _ _ _ Hp) as Hn.
    rewrite Forall_forall in Hn. destruct (Hn tp Htp) as [? ?]. eauto.
Qed.

Lemma tasks_cartesian_product_witness :
  tasks 2 job_x_y
  = Ok (newTask job_x_y
          <$> product [mkTaskParam (with_only "x" "integer" ["1"; "2"]) <$> ["1"; "2"];
                       mkTaskParam (with_only "y" "integer" ["10"; "20"]) <$> ["10"; "20"]]).
Proof.
  apply (proj1 tasks_cartesian_product job_x_y _ 0%nat 2%nat).
  - discriminate.
  - intros [|[|i]] p q; simpl; intros [= <-] [= <-]. discriminate.
  - repeat constructor.
  - simpl. lia.
Defined.

(** C1, as stated, fails for a job without declarations, where [tasks]
    stops on an index out of range, and for two consecutive declarations
    named alike, where the values of the second replace those of the
    first. *)
Lemma expansion_fails : ¬ expansion_claim job_no_params ∧ ¬ expansion_claim job_x_x.
Proof.
  split.
  - intros H. destruct (H 0%nat []) as [fuel Hf]; [constructor|].
    destruct fuel; discriminate.
  - intros H.
    destruct (H 0%nat [mkTaskParam (with_only "x" "integer" ["1"; "2"]) <$> ["1"; "2"];
                       mkTaskParam (with_only "x" "integer" ["10"; "20"]) <$> ["10"; "20"]])
      as [fuel Hf].
    + repeat constructor; discriminate.
    + destruct fuel as [|[|fuel]]; vm_compute in Hf; discriminate.
Qed.

(** ** Errors of the expansion *)

Lemma range_loop_err {A S : Type} (body : S → A → result S) (l : list A) (st : S)
    (e : error) :
  range_loop body l st = Err e → ∃ x st', x ∈ l ∧ body st' x = Err e.
Proof.
  revert st. induction l as [|x l IH]; intros st; simpl; [done|].
  destruct (body st x) as [st'| e' | |] eqn:E; simpl; try done.
  - intros H. destruct (IH _ H) as (y & st'' & Hy & Hb).
    exists y, st''. split; [by apply list_elem_of_further | done].
  - intros [= <-]. exists x, st. split; [apply list_elem_of_here | done].
Qed.

(** An error of [nextTask] is the error of a declaration at or below its
    level, and the declarations between yield values. *)
Lemma nextTask_err (j : Job) (fuel : nat) :
  ∀ (i : nat) (tasks : list Task) (curr : list TaskParam) (e : error),
    nextTask fuel j i tasks curr = Err e →
    ∃ (k : nat) (p : JobParam),
      (i ≤ k)%nat ∧ jParams j !! k = Some p ∧ rejects p = true ∧
      ∀ m pm, (i ≤ m < k)%nat → jParams j !! m = Some pm → yields pm.
Proof.
  induction fuel as [|fuel IH]; intros i tasks curr e; simpl; [done|].
  destruct (jParams j !! i) as [p|] eqn:Hp; [|done].
  destruct (paramPermutations fuel p) as [vs| e' | |] eqn:Hpp; simpl; try done.
  - destruct (range_loop _ vs (tasks, curr)) as [st| e' | |] eqn:Hloop; simpl; try done.
    intros [= <-].
    apply range_loop_err in Hloop as (v & [ts c] & Hv & Hbody).
    destruct (Z.of_nat i + 1 =? len (jParams j)); [done|].
    destruct (nextTask fuel j (i + 1) [] (replace_last c v)) as [?|e''| |] eqn:Hn;
      simpl in Hbody; try done.
    injection Hbody as ->.
    destruct (IH _ _ _ _ Hn) as (k & q & Hk & Hq & Hr & Hbetween).
    exists k, q. repeat split; [lia|done|done|].
    intros m pm Hm Hpm. destruct (decide (m = i)) as [->|Hne].
    + assert (pm = p) as -> by congruence.
      exists fuel, vs. split; [done|]. intros ->. by apply not_elem_of_nil in Hv.
    + apply (Hbetween m); [lia|done].
  - intros [= <-]. exists i, p. repeat split; [lia|done| |intros; lia].
    rewrite <- (paramPermutations_rejects fuel p), Hpp. done.
Qed.

(** [nextTask] reports an error when a declaration at or below its level
    has one and the declarations between yield values. *)
Lemma nextTask_rejects (j : Job) (k : nat) (p : JobParam) (fuel0 : nat) :
  jParams j !! k = Some p → rejects p = true →
  ∀ (d i fuel : nat) (tasks : list Task) (curr : list TaskParam),
    (i + d = k)%nat →
    (∀ m pm, (i ≤ m < k)%nat → jParams j !! m = Some pm →
             ∃ vs, paramPermutations fuel0 pm = Ok vs ∧ vs ≠ []) →
    (fuel0 + d < fuel)%nat →
    is_err (nextTask fuel j i tasks curr) = true.
Proof.
  intros Hp Hr d. induction d as [|d IH]; intros i fuel tasks curr Hi Hy Hf.
  all: destruct fuel as [|fuel]; [lia|]; simpl.
  - replace i with k by lia. rewrite Hp.
    pose proof (paramPermutations_rejects fuel p) as He. rewrite Hr in He.
    by destruct (paramPermutations fuel p).
  - assert (Hlt : (i < length (jParams j))%nat).
    { apply lookup_lt_Some in Hp. lia. }
    destruct (lookup_lt_is_Some_2 _ _ Hlt) as [pm Hpm]. rewrite Hpm.
    destruct (Hy i pm ltac:(lia) Hpm) as (vs & Hvs & Hne).
    rewrite (paramPermutations_mono fuel0 fuel pm vs Hvs) by lia. simpl.
    destruct vs as [|v vs]; [done|]. simpl.
    destruct (Z.eqb_spec (Z.of_nat i + 1) (len (jParams j))) as [He|_].
    { apply lookup_lt_Some in Hp. unfold len in He. lia. }
    specialize (IH (i + 1)%nat fuel [] (replace_last curr v)).
    destruct (nextTask fuel j (i + 1) [] (replace_last curr v)); simpl; try done.
    all: discriminate IH; [lia | intros m q Hm; apply Hy; lia | lia].
Qed.

(** C9, amended: [paramPermutations] returns an error exactly when the
    type of the declaration is none of "string", "int", "integer", or the
    declaration is of type "int" or "integer", has no [only] and has a
    [min], and its [min] or [max] is not a number, or [max < min], or its
    [step] is given and is zero or not a number, or its [step_mode] is
    none of absent, "increment", "power".  The expansion of a job returns
    an error exactly when some declaration has one and every declaration
    before it yields a value; [NewJob] then returns that error and no job. *)
Theorem expansion_errors :
  (∀ (fuel : nat) (p : JobParam), is_err (paramPermutations fuel p) = rejects p) ∧
  (∀ (fuel : nat) (j : Job) (e : error),
     tasks fuel j = Err e →
     ∃ (k : nat) (p : JobParam),
       jParams j !! k = Some p ∧ rejects p = true ∧
       ∀ m pm, (m < k)%nat → jParams j !! m = Some pm → yields pm) ∧
  (∀ (fuel0 fuel : nat) (j : Job) (k : nat) (p : JobParam),
     jParams j !! k = Some p → rejects p = true →
     (∀ m pm, (m < k)%nat → jParams j !! m = Some pm →
              ∃ vs, paramPermutations fuel0 pm = Ok vs ∧ vs ≠ []) →
     (fuel0 + k < fuel)%nat →
     is_err (tasks fuel j) = true) ∧
  (∀ (fuel : nat) (j : Job) (cfg : RuntimeConfig) (e : error),
     tasks fuel j = Err e → NewJob fuel j cfg = Err e).
Proof.
  split; [exact paramPermutations_rejects|]. split; [|split].
  - intros fuel j e H. apply nextTask_err in H as (k & p & _ & Hp & Hr & Hy).
    exists k, p. repeat split; [done|done|]. intros m pm Hm. apply Hy. lia.
  - intros fuel0 fuel j k p Hp Hr Hy Hf.
    apply (nextTask_rejects j k p fuel0 Hp Hr k 0%nat); [lia| |lia].
    intros m pm Hm. apply Hy. lia.
  - intros fuel j cfg e H. unfold NewJob. by rewrite H.
Qed.

Lemma expansion_errors_witness :
  is_err (tasks 2 job_bad) = true ∧
  NewJob 2 job_bad two_cpus = Err (ErrMinGreaterMax "n" 5 1) ∧
  ∃ (k : nat) (p : JobParam), jParams job_bad !! k = Some p ∧ rejects p = true ∧
    ∀ m pm, (m < k)%nat → jParams job_bad !! m = Some pm → yields pm.
Proof.
  destruct expansion_errors as (_ & Hfwd & Hbwd & Hload).
  split; [|split].
  - apply (Hbwd 0%nat 2%nat job_bad 1%nat decl_5_1); [reflexivity|reflexivity| |lia].
    intros [|m] pm Hm; [|lia]. intros [= <-]. eexists. split; [reflexivity|discriminate].
  - apply Hload. reflexivity.
  - apply (Hfwd 2%nat job_bad (ErrMinGreaterMax "n" 5 1)). reflexivity.
Defined.

(** C9, as stated, fails: a declaration of type "int" is accepted; a
    range whose [min] is not a number is refused; and an invalid
    declaration behind one that yields no value is never looked at. *)
Lemma expansion_errors_fail :
  (spec_invalid decl_int = true ∧ paramPermutations 1 decl_int
     = Ok [mkTaskParam decl_int "1"]) ∧
  (spec_invalid decl_bad_min = false ∧ paramPermutations 1 decl_bad_min
     = Err (ErrAtoi "abc")) ∧
  (spec_invalid decl_5_1 = true ∧ ∀ fuel : nat, tasks (S fuel) job_shadowed = Ok []).
Proof. repeat split. Qed.

(** ** Task identifiers ([Task.UUID]) *)

Lemma append_assoc (s1 s2 s3 : string) : (s1 +:+ s2) +:+ s3 = s1 +:+ (s2 +:+ s3).
Proof. induction s1 as [|c s1 IH]; [done|]. change (String c ((s1 +:+ s2) +:+ s3) = String c (s1 +:+ (s2 +:+ s3))). by f_equal. Qed.

Lemma append_nil_r (s : string) : s +:+ "" = s.
Proof. induction s as [|c s IH]; [done|]. change (String c (s +:+ "") = String c s). by f_equal. Qed.

(** What [UUID] writes to the hash is the concatenation of the lines. *)
Lemma written_lines (params : list TaskParam) (written : string) :
  fold_left (fun written param => written +:+ param_line param) params written
  = written +:+ foldr (fun nv s => nv.1 +:+ "=" +:+ nv.2 +:+ newline +:+ s) ""
                  ((fun tp => (tpName tp, tpValue tp)) <$> params).
Proof.
  revert written. induction params as [|p params IH]; intros written; simpl.
  - by rewrite append_nil_r.
  - rewrite IH. unfold param_line. by rewrite !append_assoc.
Qed.

Lemma hex_digit_lower (n : Z) : 0 ≤ n < 16 → is_lower_hex (hex_digit n) = true.
Proof.
  intros H.
  assert (n = 0 ∨ n = 1 ∨ n = 2 ∨ n = 3 ∨ n = 4 ∨ n = 5 ∨ n = 6 ∨ n = 7 ∨
          n = 8 ∨ n = 9 ∨ n = 10 ∨ n = 11 ∨ n = 12 ∨ n = 13 ∨ n = 14 ∨ n = 15)
    as Hn by lia.
  repeat (destruct Hn as [-> | Hn]; [reflexivity|]). by subst.
Qed.

Lemma hex_lower (bs : list Z) :
  Forall (fun b => 0 ≤ b < 256) bs →
  all_chars is_lower_hex (hex bs) = true ∧
  String.length (hex bs) = (2 * length bs)%nat.
Proof.
  induction 1 as [|b bs Hb _ [IH1 IH2]]; simpl; [done|].
  rewrite !hex_digit_lower, IH1, IH2.
  - split; [done | lia].
  - apply Z.mod_pos_bound. lia.
  - split; [apply Z.div_pos; lia | apply Z.div_lt_upper_bound; lia].
Qed.

Lemma le_bytes_bytes (n : nat) (x : Z) :
  Forall (fun b => 0 ≤ b < 256) (MD5.le_bytes n x) ∧ length (MD5.le_bytes n x) = n.
Proof.
  revert x. induction n as [|n IH]; intros x; simpl; [done|].
  destruct (IH (x / 256)) as [IH1 IH2]. split; [|by rewrite IH2].
  constructor; [apply Z.mod_pos_bound; lia | done].
Qed.

Lemma MD5_sum_bytes (s : string) :
  Forall (fun b => 0 ≤ b < 256) (MD5.sum s) ∧ length (MD5.sum s) = 16%nat.
Proof.
  unfold MD5.sum. destruct (fold_left _ _ _) as [[[a b] c] d].
  rewrite !Forall_app, !length_app.
  pose proof (le_bytes_bytes 4 a) as [? ->]. pose proof (le_bytes_bytes 4 b) as [? ->].
  pose proof (le_bytes_bytes 4 c) as [? ->]. pose proof (le_bytes_bytes 4 d) as [? ->].
  done.
Qed.

Lemma UUID_fresh (t : Task) : tuuid t = "" → (UUID t).1 = uuid_of (name_values t).
Proof.
  intros H. unfold UUID. rewrite H. simpl.
  unfold uuid_of, name_values. by rewrite written_lines.
Qed.

Lemma uuid_of_shape (nvs : list (string * string)) :
  all_chars is_lower_hex (uuid_of nvs) = true ∧ String.length (uuid_of nvs) = 32%nat.
Proof.
  unfold uuid_of.
  destruct (MD5_sum_bytes (foldr (fun nv s => nv.1 +:+ "=" +:+ nv.2 +:+ newline +:+ s) "" nvs))
    as [Hb Hl].
  destruct (hex_lower _ Hb) as [? Hh]. by rewrite Hh, Hl.
Qed.

Lemma UUID_digest (t : Task) :
  uuid_ok t →
  (UUID t).1 = uuid_of (name_values t) ∧
  uuid_ok (UUID t).2 ∧ tParams (UUID t).2 = tParams t.
Proof.
  intros [He|Hc].
  - pose proof (UUID_fresh t He) as Hf. revert Hf.
    unfold UUID. rewrite He. simpl. intros Hf. repeat split; [done|]. by right.
  - unfold UUID. destruct (Z.eqb_spec (slen (tuuid t)) 0) as [Hz|_].
    + destruct (uuid_of_shape (name_values t)) as [_ Hl]. rewrite <- Hc in Hl.
      unfold slen in Hz. lia.
    + repeat split; [done|]. by right.
Qed.

Lemma Cancel_uuid (t t' : Task) : uuid_ok t → Cancel t = Some t' → uuid_ok t'.
Proof.
  unfold Cancel. destruct (truns t); [|done]. simpl. by intros ? [= <-].
Qed.

(** *** The identifiers of the tasks the program holds *)

Lemma range_loop_keeps {A S : Type} (I : S → Prop) (Q : A → Prop)
    (body : S → A → result S) (l : list A) :
  (∀ st x st', I st → Q x → body st x = Ok st' → I st') →
  Forall Q l →
  ∀ st st', I st → range_loop body l st = Ok st' → I st'.
Proof.
  intros Hbody HQ. induction HQ as [|x l Hx _ IH]; intros st st' HI; simpl.
  - by intros [= <-].
  - destruct (body st x) as [st1| | |] eqn:E; simpl; try done.
    apply IH. by apply (Hbody st x).
Qed.

Lemma nextTask_uuid (j : Job) (fuel : nat) :
  ∀ (i : nat) (tasks ts : list Task) (curr : list TaskParam),
    nextTask fuel j i tasks curr = Ok ts → Forall uuid_ok tasks → Forall uuid_ok ts.
Proof.
  induction fuel as [|fuel IH]; intros i tasks ts curr; simpl; [done|].
  destruct (jParams j !! i) as [p|]; [|done].
  destruct (paramPermutations fuel p) as [vs| | |]; simpl; try done.
  destruct (range_loop _ vs (tasks, curr)) as [[ts' c']| | |] eqn:Hloop; simpl; try done.
  intros [= <-] Htasks.
  apply (range_loop_keeps (fun st => Forall uuid_ok st.1) (fun _ => True)) in Hloop;
    [done| |by apply Forall_true|done].
  intros [ts0 c0] v [ts1 c1] H0 _. simpl in H0.
  destruct (Z.of_nat i + 1 =? len (jParams j)).
  - intros [= <- _]. simpl. apply Forall_app. split; [done|].
    apply Forall_singleton. by left.
  - destruct (nextTask fuel j (i + 1) [] (replace_last c0 v)) as [nts| | |] eqn:Hn;
      simpl; try done.
    intros [= <- _]. simpl. apply Forall_app. split; [done|].
    by apply (IH _ _ _ _ Hn).
Qed.

Lemma NewJob_uuid (fuel : nat) (job : Job) (cfg : RuntimeConfig)
    (w : Job * list Task * gmap Z (option ActiveTaskRun)) :
  NewJob fuel job cfg = Ok w → Forall uuid_ok w.1.2.
Proof.
  unfold NewJob. destruct (tasks fuel job) as [ts| | |] eqn:Hts; simpl; try done.
  apply nextTask_uuid in Hts; [|done].
  destruct (range_loop _ ts _) as [[job' heap']| | |] eqn:Hloop; simpl; try done.
  intros [= <-]. simpl.
  apply (range_loop_keeps (fun st => Forall uuid_ok st.2) uuid_ok) in Hloop;
    [done| |done|done].
  intros [job0 heap0] t [job1 heap1] H0 Ht. simpl in H0.
  destruct (check_runs cfg (jRuns job0)) as [runs| | |]; simpl; try done.
  intros [= _ <-]. simpl. apply Forall_app. split; [done|]. by apply Forall_singleton.
Qed.

Lemma callUUID_uuid (heap h : list Task) (task : nat) (u : string) :
  callUUID heap task = Some (u, h) → Forall uuid_ok heap → Forall uuid_ok h.
Proof.
  unfold callUUID. destruct (heap !! task) as [t|] eqn:Et; simpl; [|done].
  intros [= _ <-] Hheap. apply Forall_insert; [done|].
  apply UUID_digest. by apply (Forall_lookup_1 _ _ _ _ Hheap Et).
Qed.

Lemma excluded_uuid (all : list (option ActiveTaskRun)) (task : nat) :
  ∀ (heap h : list Task) (b : bool),
    excluded all task heap = Some (b, h) → Forall uuid_ok heap → Forall uuid_ok h.
Proof.
  induction all as [|[atr|] all IH]; intros heap h b; simpl.
  - by intros [= _ <-].
  - destruct (callUUID heap (aTask atr)) as [[u1 h1]|] eqn:E1; simpl; [|done].
    destruct (callUUID h1 task) as [[u2 h2]|] eqn:E2; simpl; [|done].
    intros Hrest Hheap.
    apply (callUUID_uuid _ _ _ _ E1) in Hheap. apply (callUUID_uuid _ _ _ _ E2) in Hheap.
    destruct (String.eqb u1 u2); [by injection Hrest as _ <- | by apply (IH _ _ _ Hrest)].
  - apply IH.
Qed.

Lemma Cancel_heap_uuid (heap : list Task) (task : nat) (t : Task) :
  heap !! task ≫= Cancel = Some t → Forall uuid_ok heap →
  Forall uuid_ok (<[task := t]> heap).
Proof.
  destruct (heap !! task) as [t0|] eqn:Et; simpl; [|done].
  intros Hc Hheap. apply Forall_insert; [done|].
  apply (Cancel_uuid t0); [|done]. by apply (Forall_lookup_1 _ _ _ _ Hheap Et).
Qed.

Lemma step_uuid (l : label) (s s' : State) :
  Forall uuid_ok (heap s) → step l s = Some s' → Forall uuid_ok (heap s').
Proof.
  intros Hheap. unfold step.
  destruct (drv s) eqn:Ed; try done; destruct l as [newErr|k returnCode startErr].
  all: try (unfold super_step, panic;
            destruct (sups s !! k) as [[atr pc]|]; simpl; [|done];
            destruct pc as [| |[|coreId rest]]; try done;
            [ destruct (startErr || negb (returnCode =? 0)); [|by intros [= <-]];
              destruct (heap s !! aTask atr ≫= Cancel) as [t|] eqn:Ec;
                intros [= <-]; simpl; [by apply Cancel_heap_uuid | done]
            | by intros [= <-]
            | by intros [= <-] ]).
  all: unfold driver_step, panic; rewrite Ed.
  - repeat case_match; by intros [= <-].
  - repeat case_match; by intros [= <-].
  - destruct (excluded _ _ _) as [[[|] h]|] eqn:Ex; intros [= <-]; simpl; try done;
      by apply (excluded_uuid _ _ _ _ _ Ex).
  - destruct (select_cores _ _ _) as [[cores ?]|]; [|by intros [= <-]].
    destruct (NewActiveTaskRun _ _ _ _ _).
    + destruct (callUUID (heap s) task) as [[u h]|] eqn:Eu; [|by intros [= <-]].
      pose proof (callUUID_uuid _ _ _ _ Eu Hheap) as Hh.
      destruct (h !! task) as [t|] eqn:Et; [|by intros [= <-]].
      destruct (truns t) as [q|]; intros [= <-]; simpl; [|done].
      apply Forall_insert; [done|]. by apply (Forall_lookup_1 _ _ _ _ Hh Et).
    + destruct (heap s !! task ≫= Cancel) as [t|] eqn:Ec; intros [= <-]; simpl; [|done].
      by apply Cancel_heap_uuid.
  - repeat case_match; by intros [= <-].
  - repeat case_match; by intros [= <-].
  - repeat case_match; by intros [= <-].
  - done.
Qed.

Lemma exec_uuid (ls : list label) :
  ∀ s s' : State, Forall uuid_ok (heap s) → exec ls s = Some s' → Forall uuid_ok (heap s').
Proof.
  induction ls as [|l ls IH]; intros s s' Hheap; simpl.
  - by intros [= <-].
  - destruct (step l s) as [s1|] eqn:E; simpl; [|done].
    apply IH. by apply (step_uuid l s).
Qed.

(** C4: [UUID] returns the lowercase hexadecimal digest of the MD5 hash of
    the lines ["{name}={value}\n"] of the parameters of the task, in their
    order.  This holds for every task whose stored identifier is absent or
    that digest, which is so for the tasks the expansion creates, is kept
    by every method that updates a task, [UUID] included, and hence holds
    for every task of every state the program reaches; tasks with the same
    (name, value) pairs have the same identifier. *)
Theorem UUID_is_digest :
  (∀ (j : Job) (p : list TaskParam), uuid_ok (newTask j p)) ∧
  (∀ (t : Task) (runs : list Run), uuid_ok t → uuid_ok (Init t runs)) ∧
  (∀ (t t' : Task), uuid_ok t → Cancel t = Some t' → uuid_ok t') ∧
  (∀ (t : Task) (q : Queue), uuid_ok t → uuid_ok (set_runs t q)) ∧
  (∀ t : Task, uuid_ok t →
     (UUID t).1 = uuid_of (name_values t) ∧
     uuid_ok (UUID t).2 ∧ tParams (UUID t).2 = tParams t) ∧
  (∀ (fuel : nat) (job : Job) (cfg : RuntimeConfig)
     (w : Job * list Task * gmap Z (option ActiveTaskRun))
     (ls : list label) (s : State) (t : Task),
     NewJob fuel job cfg = Ok w → exec ls (start w) = Some s → t ∈ heap s →
     (UUID t).1 = uuid_of (name_values t)) ∧
  (∀ nvs : list (string * string),
     all_chars is_lower_hex (uuid_of nvs) = true ∧ String.length (uuid_of nvs) = 32%nat) ∧
  (∀ t1 t2 : Task, uuid_ok t1 → uuid_ok t2 → name_values t1 = name_values t2 →
     (UUID t1).1 = (UUID t2).1) ∧
  (UUID task_1_10).1 = "a21f555888ab39a5d0f19bb891973fbd".
Proof.
  split_and!.
  - by left.
  - by intros t runs.
  - exact Cancel_uuid.
  - by intros t q.
  - exact UUID_digest.
  - intros fuel job cfg w ls s t Hload Hexec Ht.
    apply UUID_digest.
    assert (Hall : Forall uuid_ok (heap s)).
    { apply (exec_uuid ls (start w)); [|done]. by apply (NewJob_uuid fuel job cfg). }
    rewrite Forall_forall in Hall. by apply Hall.
  - exact uuid_of_shape.
  - intros t1 t2 H1 H2 Hnv.
    destruct (UUID_digest t1 H1) as [-> _]. destruct (UUID_digest t2 H2) as [-> _].
    by rewrite Hnv.
  - vm_compute. reflexivity.
Qed.

Lemma UUID_is_digest_witness :
  (UUID (Init task_1_10 [])).1 = uuid_of (name_values (Init task_1_10 [])) ∧
  ∃ (w : Job * list Task * gmap Z (option ActiveTaskRun)) (s : State) (t : Task),
    NewJob 2 job_two_stages two_cpus = Ok w ∧
    exec trace_cancel (start w) = Some s ∧ heap s = [t] ∧
    (UUID t).1 = uuid_of (name_values t).
Proof.
  destruct UUID_is_digest as (Hnew & Hinit & _ & _ & Huuid & Hreach & _).
  split.
  - apply Huuid. apply Hinit. apply Hnew.
  - eexists _, _, _.
    split; [vm_compute; reflexivity|].
    split; [vm_compute; reflexivity|].
    split; [reflexivity|].
    eapply (Hreach 2%nat job_two_stages two_cpus _ trace_cancel).
    + vm_compute. reflexivity.
    + vm_compute. reflexivity.
    + apply list_elem_of_here.
Defined.

(** ** Loading a job ([NewJob]) *)

Section Load.

Variable cfg : RuntimeConfig.

Lemma range_loop_cons {A S : Type} (body : S → A → result S) (x : A) (l : list A)
    (st : S) :
  range_loop body (x :: l) st = body st x ≫= range_loop body l.
Proof. reflexivity. Qed.

Lemma check_run_fits (pre rest : list Run) (r : Run) :
  fits cfg r →
  check_run cfg (pre ++ r :: rest) ((length pre + 0)%nat, r)
  = Ok ((pre ++ [default_cores r]) ++ rest).
Proof.
  intros Hr. unfold check_run, default_cores.
  destruct (Z.ltb_spec (len (Cpus cfg)) (rCores r)) as [?|_]; [unfold fits in Hr; lia|].
  rewrite alter_app_r. simpl. rewrite <- app_assoc.
  by destruct (rCores r =? 0).
Qed.

Lemma check_run_big (runs : list Run) (i : nat) (r : Run) :
  len (Cpus cfg) < rCores r →
  check_run cfg runs (i, r)
  = Err (ErrTooManyCores (rName r) (rCores r) (len (Cpus cfg))).
Proof.
  intros Hr. unfold check_run.
  by destruct (Z.ltb_spec (len (Cpus cfg)) (rCores r)) as [_|?]; [|lia].
Qed.

Lemma imap_shift (pre rest : list Run) (r' : Run) :
  imap ((fun k x => ((length pre + k)%nat, x)) ∘ S) rest
  = imap (fun k x => ((length (pre ++ [r']) + k)%nat, x)) rest.
Proof.
  apply imap_ext. intros k x _. simpl. rewrite length_app. simpl. f_equal. lia.
Qed.

Lemma check_loop_ok (rest pre : list Run) :
  Forall (fits cfg) rest →
  range_loop (check_run cfg) (imap (fun k x => ((length pre + k)%nat, x)) rest) (pre ++ rest)
  = Ok (pre ++ (default_cores <$> rest)).
Proof.
  revert pre. induction rest as [|r rest IH]; intros pre Hfit; [done|].
  apply Forall_cons in Hfit as [Hr Hfit].
  rewrite imap_cons, range_loop_cons, check_run_fits by done.
  rewrite (imap_shift pre rest (default_cores r)).
  change (range_loop (check_run cfg)
            (imap (fun k x => ((length (pre ++ [default_cores r]) + k)%nat, x)) rest)
            ((pre ++ [default_cores r]) ++ rest)
          = Ok (pre ++ (default_cores <$> r :: rest))).
  rewrite IH by done. rewrite <- app_assoc. done.
Qed.

Lemma check_loop_err (rest pre : list Run) :
  Exists (fun r => len (Cpus cfg) < rCores r) rest →
  ∃ r, r ∈ rest ∧ len (Cpus cfg) < rCores r ∧
    range_loop (check_run cfg) (imap (fun k x => ((length pre + k)%nat, x)) rest)
      (pre ++ rest)
    = Err (ErrTooManyCores (rName r) (rCores r) (len (Cpus cfg))).
Proof.
  revert pre. induction rest as [|r rest IH]; intros pre Hex.
  { by apply Exists_nil in Hex. }
  rewrite imap_cons, range_loop_cons.
  destruct (Z.lt_ge_cases (len (Cpus cfg)) (rCores r)) as [Hbig|Hfit].
  { exists r. rewrite check_run_big by done.
    split; [apply list_elem_of_here | done]. }
  apply Exists_cons in Hex as [?|Hex]; [lia|].
  rewrite check_run_fits by (unfold fits; lia).
  rewrite (imap_shift pre rest (default_cores r)).
  destruct (IH (pre ++ [default_cores r]) Hex) as (r' & Hin & Hbig & Herr).
  exists r'. split; [by apply list_elem_of_further|]. split; [done|].
  exact Herr.
Qed.

Lemma check_runs_ok (runs : list Run) :
  Forall (fits cfg) runs → check_runs cfg runs = Ok (default_cores <$> runs).
Proof. intros H. apply (check_loop_ok runs [] H). Qed.

Lemma check_runs_err (runs : list Run) :
  Exists (fun r => len (Cpus cfg) < rCores r) runs →
  ∃ r, r ∈ runs ∧ len (Cpus cfg) < rCores r ∧
    check_runs cfg runs = Err (ErrTooManyCores (rName r) (rCores r) (len (Cpus cfg))).
Proof. intros H. apply (check_loop_err runs [] H). Qed.

Lemma default_cores_fits (runs : list Run) :
  0 < len (Cpus cfg) → Forall (fits cfg) runs →
  Forall (fun r => rCores r ≠ 0 ∧ fits cfg r) (default_cores <$> runs).
Proof.
  intros Hpool Hfit. apply Forall_fmap. eapply Forall_impl; [exact Hfit|].
  intros r Hr. unfold default_cores, fits in *. simpl.
  destruct (Z.eqb_spec (rCores r) 0); simpl; lia.
Qed.

Lemma default_cores_twice (runs : list Run) :
  default_cores <$> (default_cores <$> runs) = default_cores <$> runs.
Proof.
  rewrite <- list_fmap_compose. apply list_fmap_ext. intros _ r _. simpl.
  unfold default_cores. destruct (Z.eqb_spec (rCores r) 0) as [H|H]; simpl.
  - done.
  - by destruct (Z.eqb_spec (rCores r) 0).
Qed.

(** The loop of [NewJob] over the tasks, once the stages have passed. *)
Lemma load_loop (nr : list Run) (ts : list Task) :
  check_runs cfg nr = Ok nr →
  ∀ (job : Job) (heap : list Task),
    check_runs cfg (jRuns job) = Ok nr →
    range_loop
      (fun (st : Job * list Task) task =>
         let '(job, heap) := st in
         runs ← check_runs cfg (jRuns job);
         let task := Init task runs in
         Ok (set_job job runs (Add (jwaitList job) (length heap)) (jscheduleGrace job),
             heap ++ [task]))
      ts (job, heap)
    = Ok (set_job job (match ts with [] => jRuns job | _ => nr end)
            (jwaitList job ++ seq (length heap) (length ts)) (jscheduleGrace job),
          heap ++ ((fun t => Init t nr) <$> ts)).
Proof.
  intros Hnr. induction ts as [|t ts IH]; intros job heap Hjob; simpl.
  - rewrite !app_nil_r. by destruct job.
  - rewrite Hjob. simpl. rewrite IH by done. simpl.
    rewrite length_app. simpl. unfold Add. rewrite <- !app_assoc. simpl.
    replace (length heap + 1)%nat with (S (length heap)) by lia.
    by destruct ts.
Qed.

End Load.

Lemma Init_runs (t : Task) (runs : list Run) : truns (Init t runs) = Some runs.
Proof.
  assert (H : ∀ q : Queue, fold_left Enqueue runs q = q ++ runs).
  { induction runs as [|r runs IH]; intros q; simpl; [by rewrite app_nil_r|].
    rewrite IH. unfold Enqueue. by rewrite <- app_assoc. }
  simpl. unfold NewQueue. by rewrite H.
Qed.

(** C8, amended: for every job document whose expansion yields at least
    one task, [NewJob] fails with the too-many-cores error whenever some
    stage asks for more cores than the pool has; otherwise, when the pool
    is not empty, it succeeds, every stage with [cores = 0] is rewritten
    to [cores = 1], and the run queue of every task holds exactly the
    stages so rewritten, each of which fits the pool. *)
Theorem NewJob_cores (fuel : nat) (job : Job) (cfg : RuntimeConfig) (ts : list Task) :
  tasks fuel job = Ok ts → ts ≠ [] →
  (Exists (fun r => len (Cpus cfg) < rCores r) (jRuns job) →
   ∃ r, r ∈ jRuns job ∧ len (Cpus cfg) < rCores r ∧
     NewJob fuel job cfg = Err (ErrTooManyCores (rName r) (rCores r) (len (Cpus cfg)))) ∧
  (Forall (fits cfg) (jRuns job) → 0 < len (Cpus cfg) →
   NewJob fuel job cfg
   = Ok (set_job job (default_cores <$> jRuns job) (seq 0 (length ts)) (ScheduleGrace cfg),
         (fun t => Init t (default_cores <$> jRuns job)) <$> ts,
         NewCoreMap (Cpus cfg)) ∧
   Forall (fun r => rCores r ≠ 0 ∧ fits cfg r) (default_cores <$> jRuns job) ∧
   ∀ t, t ∈ ts → truns (Init t (default_cores <$> jRuns job))
                 = Some (default_cores <$> jRuns job)).
Proof.
  intros Hts Hne. split.
  - intros Hex. destruct (check_runs_err cfg _ Hex) as (r & Hin & Hbig & Herr).
    exists r. repeat split; [done|done|].
    unfold NewJob. rewrite Hts. simpl.
    destruct ts as [|t ts]; [done|]. simpl. by rewrite Herr.
  - intros Hfit Hpool.
    pose proof (default_cores_fits cfg _ Hpool Hfit) as Hnorm.
    split; [|split; [done | intros t _; apply Init_runs]].
    unfold NewJob. rewrite Hts. simpl.
    rewrite (load_loop cfg (default_cores <$> jRuns job)).
    + simpl. by destruct ts.
    + rewrite check_runs_ok, default_cores_twice; [done|].
      eapply Forall_impl; [exact Hnorm | by intros ? [_ ?]].
    + simpl. by apply check_runs_ok.
Qed.

Lemma NewJob_cores_witness :
  NewJob 2 job_three two_cpus
    = Err (ErrTooManyCores "s3" 3 2) ∧
  NewJob 2 job_one two_cpus
    = Ok (set_job job_one [stage "s1" 1] [0%nat] 0,
          [Init (newTask job_one [mkTaskParam (with_only "x" "string" ["a"]) "a"]) [stage "s1" 1]],
          NewCoreMap [0; 1]).
Proof.
  split.
  - destruct (proj1 (NewJob_cores 2 job_three two_cpus _ eq_refl ltac:(discriminate)))
      as (r & Hin & Hbig & ->).
    + apply Exists_cons_tl, Exists_cons_hd. reflexivity.
    + apply elem_of_cons in Hin as [-> | Hin]; [vm_compute in Hbig; discriminate|].
      apply list_elem_of_singleton in Hin as ->. reflexivity.
  - destruct (proj2 (NewJob_cores 2 job_one two_cpus _ eq_refl ltac:(discriminate)))
      as (-> & _).
    + repeat constructor. vm_compute. discriminate.
    + reflexivity.
    + reflexivity.
Defined.

(** C8, as stated, fails for a job that expands to no task, whose stages
    are not looked at (a stage of five cores passes a pool of two, a stage
    of no cores stays as it is), and for a single task on an empty pool,
    whose stage of no cores becomes a stage of one core without a second
    look. *)
Lemma NewJob_cores_fail :
  NewJob 2 job_idle two_cpus
    = Ok (set_job job_idle [stage "big" 5; stage "none" 0] [] 0, [], NewCoreMap [0; 1]) ∧
  ∃ w, NewJob 2 job_one no_cpus = Ok w ∧
       (truns <$> w.1.2) = [Some [stage "s1" 1]] ∧ ¬ fits no_cpus (stage "s1" 1).
Proof.
  split; [reflexivity|]. eexists. split; [reflexivity|]. split; [reflexivity|].
  vm_compute. intros H. by apply H.
Qed.

(** ** The run supervisor *)

Lemma step_supervise (s : State) (k : nat) (returnCode : Z) (startErr : bool) :
  drv s ≠ DPanic →
  step (Supervise k returnCode startErr) s = super_step k returnCode startErr s.
Proof. unfold step. by destruct (drv s). Qed.

(** The supervisor signals the wait group with the core map as it is, and
    then turns to its cores. *)
Lemma supervisor_signals (s : State) (k : nat) (atr : ActiveTaskRun)
    (returnCode : Z) (startErr : bool) :
  drv s ≠ DPanic → sups s !! k = Some (atr, SSignal) →
  ∃ s', step (Supervise k returnCode startErr) s = Some s' ∧
        wg s' = wg s - 1 ∧ tasksInFlight s' = tasksInFlight s ∧
        sups s' !! k = Some (atr, SRelease (aCoreIds atr)).
Proof.
  intros Hd Hk. rewrite step_supervise by done. unfold super_step. rewrite Hk. simpl.
  eexists. split; [done|]. simpl. repeat split.
  apply list_lookup_insert_eq. by apply lookup_lt_Some in Hk.
Qed.

(** A failed run cancels its task: the queue of the task is empty after the
    step in which [activeTaskRun.Start()] returns. *)
Lemma supervisor_cancels (s : State) (k : nat) (atr : ActiveTaskRun) (t : Task) (q : Queue)
    (returnCode : Z) (startErr : bool) :
  drv s ≠ DPanic → sups s !! k = Some (atr, SRun) →
  heap s !! aTask atr = Some t → truns t = Some q →
  startErr = true ∨ returnCode ≠ 0 →
  ∃ s' t', step (Supervise k returnCode startErr) s = Some s' ∧
           heap s' !! aTask atr = Some t' ∧ truns t' = Some [] ∧
           tParams t' = tParams t ∧
           sups s' !! k = Some (atr, SSignal) ∧ tasksInFlight s' = tasksInFlight s.
Proof.
  intros Hd Hk Ht Hq Hfail. rewrite step_supervise by done.
  unfold super_step. rewrite Hk. simpl.
  assert (startErr || negb (returnCode =? 0) = true) as ->.
  { destruct Hfail as [-> | Hc]; [done|].
    destruct (Z.eqb_spec returnCode 0); [done|]. by rewrite orb_true_r. }
  rewrite Ht. simpl. unfold Cancel. rewrite Hq. simpl.
  eexists _, _. split; [done|]. simpl.
  split; [apply list_lookup_insert_eq; by apply lookup_lt_Some in Ht|].
  split_and!; try done.
  apply list_lookup_insert_eq. by apply lookup_lt_Some in Hk.
Qed.

(** C10, as the code has it: the supervisor of every run calls
    [wg.Done()] with the core map as it is and only then enters the loop
    that releases its cores.  On one task with one stage and the pool
    [[0]], the wait group is back at zero while the run still occupies
    core 0, and [Start] can return with the core occupied. *)
Theorem signal_precedes_release :
  (∀ (s : State) (k : nat) (atr : ActiveTaskRun) (returnCode : Z) (startErr : bool),
     drv s ≠ DPanic → sups s !! k = Some (atr, SSignal) →
     ∃ s', step (Supervise k returnCode startErr) s = Some s' ∧
           wg s' = wg s - 1 ∧ tasksInFlight s' = tasksInFlight s ∧
           sups s' !! k = Some (atr, SRelease (aCoreIds atr))) ∧
  (∃ (s : State) (atr : ActiveTaskRun),
     loaded 2 job_single one_cpu ≫= exec trace_signal = Some s ∧
     wg s = 0 ∧ sups s = [(atr, SRelease [0])] ∧
     tasksInFlight s !! 0 = Some (Some atr)) ∧
  (∃ (s : State) (atr : ActiveTaskRun),
     loaded 2 job_single one_cpu ≫= exec (trace_signal ++ trace_return) = Some s ∧
     drv s = DDone ∧ sups s = [(atr, SRelease [0])] ∧
     tasksInFlight s !! 0 = Some (Some atr)).
Proof.
  split; [exact supervisor_signals|].
  split; eexists _, _; (split; [vm_compute; reflexivity|]); vm_compute; done.
Qed.

(** C3, as the code has it: the supervisor of a failed run cancels its
    task, which empties the queue of the task, yet a stage the driver has
    peeked before the cancellation is dispatched after it.  On one task
    with two stages and the pool [[0, 1]]: stage 1 exits with code 1 and
    its supervisor cancels the task and frees the core; the driver, which
    stands between [Peak] and the exclusion test with stage 2 in hand,
    then finds no run of the task and starts stage 2. *)
Theorem dispatch_after_cancel :
  (∀ (s : State) (k : nat) (atr : ActiveTaskRun) (t : Task) (q : Queue)
     (returnCode : Z) (startErr : bool),
     drv s ≠ DPanic → sups s !! k = Some (atr, SRun) →
     heap s !! aTask atr = Some t → truns t = Some q →
     startErr = true ∨ returnCode ≠ 0 →
     ∃ s' t', step (Supervise k returnCode startErr) s = Some s' ∧
              heap s' !! aTask atr = Some t' ∧ truns t' = Some [] ∧
              tParams t' = tParams t ∧
              sups s' !! k = Some (atr, SSignal) ∧
              tasksInFlight s' = tasksInFlight s) ∧
  ∃ (s1 s2 : State) (atr1 atr2 : ActiveTaskRun),
    loaded 2 job_two_stages two_cpus ≫= exec trace_cancel = Some s1 ∧
    truns <$> heap s1 = [Some []] ∧
    drv s1 = DExcl [1] 0%nat (stage "s2" 1) ∧
    sups s1 = [(atr1, SRelease [])] ∧ rName (arun atr1) = "s1" ∧
    exec trace_dispatch s1 = Some s2 ∧
    sups s2 = [(atr1, SRelease []); (atr2, SRun)] ∧
    aTask atr2 = aTask atr1 ∧ rName (arun atr2) = "s2".
Proof.
  split; [exact supervisor_cancels|].
  eexists _, _, _, _.
  split; [vm_compute; reflexivity|].
  split; [vm_compute; reflexivity|].
  split; [vm_compute; reflexivity|].
  split; [vm_compute; reflexivity|].
  split; [reflexivity|].
  split; [vm_compute; reflexivity|].
  split; [vm_compute; reflexivity|].
  split; reflexivity.
Qed.

(** ** The core map *)

Lemma NewCoreMap_vacant (cpus : list Z) (c : Z) (v : option ActiveTaskRun) :
  NewCoreMap cpus !! c = Some v → v = None.
Proof.
  unfold NewCoreMap. intros H. apply elem_of_list_to_map_2 in H.
  apply list_elem_of_fmap in H as (c' & Heq & _). by injection Heq as _ ->.
Qed.

Lemma Unset_entries (m : gmap Z (option ActiveTaskRun)) (c c' : Z) (a : ActiveTaskRun) :
  Unset_ m c !! c' = Some (Some a) → m !! c' = Some (Some a).
Proof.
  unfold Unset_. destruct (m !! c) eqn:E; [|done].
  rewrite lookup_insert. by case_decide.
Qed.

Lemma Set_entries (m m' : gmap Z (option ActiveTaskRun)) (c c' : Z)
    (atr a : ActiveTaskRun) :
  Set_ m c atr = Some m' → m' !! c' = Some (Some a) →
  a = atr ∨ m !! c' = Some (Some a).
Proof.
  unfold Set_. destruct (m !! c) as [[?|]|]; try done. intros [= <-].
  rewrite lookup_insert. case_decide.
  - intros [= <-]. by left.
  - by right.
Qed.

Lemma All_entries (m : gmap Z (option ActiveTaskRun)) (c : Z) (v : option ActiveTaskRun) :
  m !! c = Some v → v ∈ All m.
Proof.
  intros H. unfold All. apply list_elem_of_fmap. exists (c, v).
  split; [done|]. by apply elem_of_map_to_list.
Qed.

(** ** The exclusion test *)

Lemma UUID_again (t : Task) : (UUID (UUID t).2).1 = (UUID t).1.
Proof.
  unfold UUID. destruct (slen (tuuid t) =? 0) eqn:E; simpl.
  - by destruct (slen (hex _) =? 0).
  - by rewrite E.
Qed.

Lemma callUUID_again (heap h1 h2 : list Task) (task : nat) (u1 u2 : string) :
  callUUID heap task = Some (u1, h1) → callUUID h1 task = Some (u2, h2) → u1 = u2.
Proof.
  unfold callUUID. destruct (heap !! task) as [t|] eqn:Et; simpl; [|done].
  intros [= <- <-]. rewrite list_lookup_insert_eq by (by apply lookup_lt_Some in Et).
  simpl. intros [= <- _]. by rewrite UUID_again.
Qed.

(** When the test lets the driver pass, no run of the task is in the
    snapshot. *)
Lemma excluded_false (all : list (option ActiveTaskRun)) (task : nat) :
  ∀ (heap h : list Task),
    excluded all task heap = Some (false, h) →
    ∀ a, Some a ∈ all → aTask a ≠ task.
Proof.
  induction all as [|[atr|] all IH]; intros heap h; simpl.
  - intros _ a Ha. by apply not_elem_of_nil in Ha.
  - destruct (callUUID heap (aTask atr)) as [[u1 h1]|] eqn:E1; simpl; [|done].
    destruct (callUUID h1 task) as [[u2 h2]|] eqn:E2; simpl; [|done].
    destruct (String.eqb_spec u1 u2) as [|Hne]; [done|].
    intros Hrest a Ha. apply elem_of_cons in Ha as [[= ->]|Ha].
    + intros Heq. rewrite Heq in E1. by rewrite (callUUID_again _ _ _ _ _ _ E1 E2) in Hne.
    + by apply (IH _ _ Hrest).
  - intros Hrest a Ha. apply elem_of_cons in Ha as [?|Ha]; [done|].
    by apply (IH _ _ Hrest).
Qed.

(** ** The invariant of the scheduler *)

Lemma exclusive_fewer (m m' : gmap Z (option ActiveTaskRun)) :
  (∀ c a, m' !! c = Some (Some a) → m !! c = Some (Some a)) →
  exclusive m → exclusive m'.
Proof. intros Hsub Hex c1 c2 a1 a2 H1 H2. apply (Hex c1 c2); by apply Hsub. Qed.

Lemma free_of_fewer (m m' : gmap Z (option ActiveTaskRun)) (task : nat) :
  (∀ c a, m' !! c = Some (Some a) → m !! c = Some (Some a)) →
  free_of m task → free_of m' task.
Proof. intros Hsub Hf c a H. apply (Hf c). by apply Hsub. Qed.

Lemma only_of_fewer (m m' : gmap Z (option ActiveTaskRun)) (atr : ActiveTaskRun) :
  (∀ c a, m' !! c = Some (Some a) → m !! c = Some (Some a)) →
  only_of m atr → only_of m' atr.
Proof. intros Hsub Hf c a H. apply (Hf c). by apply Hsub. Qed.

Lemma start_inv (w : Job * list Task * gmap Z (option ActiveTaskRun)) :
  (∀ c v, w.2 !! c = Some v → v = None) → scheduler_inv (start w).
Proof.
  intros Hvac. unfold scheduler_inv, driver_ok, registered, exclusive. simpl.
  split_and!; try done.
  - intros c1 c2 a1 a2 H1 _ _. by apply Hvac in H1.
  - intros c a H. by apply Hvac in H.
Qed.

Lemma NewJob_map (fuel : nat) (job : Job) (cfg : RuntimeConfig)
    (w : Job * list Task * gmap Z (option ActiveTaskRun)) :
  NewJob fuel job cfg = Ok w → w.2 = NewCoreMap (Cpus cfg).
Proof.
  unfold NewJob. destruct (tasks fuel job); simpl; try done.
  destruct (range_loop _ _ _); simpl; try done. by intros [= <-].
Qed.

(** A step of the driver that leaves the core map and the supervisors as
    they are, from a point outside the loop that sets the cores. *)
Lemma inv_moved (s s' : State) :
  scheduler_inv s →
  tasksInFlight s' = tasksInFlight s → sups s' = sups s →
  (∀ task a cores j, drv s ≠ DSet task a cores j) → drv s ≠ DPanic →
  driver_ok s' →
  (∀ task a cores j, drv s' = DSet task a cores j → aid a = length (sups s)) →
  scheduler_inv s'.
Proof.
  intros (Hex & _ & Hr1 & Hr2 & _) Hm Hs Hnset Hnpanic Hok Hr3.
  unfold scheduler_inv, registered. rewrite Hm, Hs.
  split_and!; try done.
  intros c a Hc. destruct (Hr2 c a Hc) as [?|[(task & cores & j & Hd)|?]]; [by left| |done].
  by apply Hnset in Hd.
Qed.

Lemma driver_step_inv (newErr : bool) (s s' : State) :
  scheduler_inv s → driver_step newErr s = Some s' → scheduler_inv s'.
Proof.
  intros Hinv Hstep. unfold driver_step, panic in Hstep.
  destruct (drv s) eqn:Ed.
  - (* the head of the loop *)
    repeat case_match; simplify_eq; try done;
      (apply (inv_moved s); [done|done|done|by rewrite Ed|by rewrite Ed|done|done]).
  - (* Peak *)
    repeat case_match; simplify_eq;
      (apply (inv_moved s); [done|done|done|by rewrite Ed|by rewrite Ed|done|done]).
  - (* the exclusion test *)
    destruct (excluded _ _ _) as [[[|] h]|] eqn:Ex; simplify_eq;
      (apply (inv_moved s); [done|done|done|by rewrite Ed|by rewrite Ed| |done]);
      try done.
    unfold driver_ok. simpl. intros c a Hc.
    apply (excluded_false _ _ _ _ Ex). by apply (All_entries _ c).
  - (* NewActiveTaskRun and Dequeue *)
    pose proof Hinv as (_ & Hok & _). unfold driver_ok in Hok. rewrite Ed in Hok.
    unfold NewActiveTaskRun in Hstep.
    repeat case_match; simplify_eq;
      (apply (inv_moved s); [done|done|done|by rewrite Ed|by rewrite Ed| |]);
      try done.
    + unfold driver_ok. simpl. split; [done|]. intros c a Hc Ha. by apply Hok in Hc.
    + simpl. by intros ? ? ? ? [= _ <- _ _].
  - (* the loop that sets the cores *)
    destruct Hinv as (Hex & Hok & Hr1 & Hr2 & Hr3).
    unfold driver_ok in Hok. rewrite Ed in Hok. destruct Hok as [Htask Honly].
    pose proof (Hr3 _ _ _ _ Ed) as Haid.
    destruct (0 <? len cores).
    + destruct (index cores (len cores - j)) as [coreId|]; simplify_eq.
      2:{ unfold scheduler_inv, driver_ok, registered. simpl. split_and!; try done.
          intros c a Hc. by right; right. }
      destruct (Set_ (tasksInFlight s) coreId activeTaskRun) as [m|] eqn:Eset; simplify_eq.
      * unfold scheduler_inv, driver_ok, registered. simpl. split_and!; try done.
        -- intros c1 c2 a1 a2 H1 H2 Ha.
           destruct (Set_entries _ _ _ _ _ _ Eset H1) as [->|H1'];
             destruct (Set_entries _ _ _ _ _ _ Eset H2) as [->|H2'].
           ++ done.
           ++ symmetry. by apply (Honly c2).
           ++ by apply (Honly c1).
           ++ by apply (Hex c1 c2).
        -- intros c a Hc Ha.
           destruct (Set_entries _ _ _ _ _ _ Eset Hc) as [->|Hc']; [done|].
           by apply (Honly c).
        -- intros c a Hc.
           destruct (Set_entries _ _ _ _ _ _ Eset Hc) as [->|Hc'].
           ++ right; left. eauto.
           ++ destruct (Hr2 c a Hc') as [?|[(? & ? & ? & Hd)|Hd]]; rewrite Ed in *.
              ** by left.
              ** injection Hd as _ <- _ _. right; left. eauto.
              ** done.
        -- by intros ? ? ? ? [= _ <- _ _].
      * unfold scheduler_inv, driver_ok, registered. simpl. split_and!; try done.
        -- intros c a Hc.
           destruct (Hr2 c a Hc) as [?|[(? & ? & ? & Hd)|Hd]]; rewrite Ed in *.
           ++ by left.
           ++ injection Hd as _ <- _ _. right; left. eauto.
           ++ done.
        -- by intros ? ? ? ? [= _ <- _ _].
    + (* the supervisor is started *)
      simplify_eq. unfold scheduler_inv, driver_ok, registered. simpl.
      split_and!; try done.
      * intros k a pc Hk. apply lookup_app_Some in Hk as [Hk|[Hlen Hk]].
        -- by apply (Hr1 k a pc).
        -- apply list_lookup_singleton_Some in Hk as [Hz [= <- <-]]. lia.
      * intros c a Hc. left.
        destruct (Hr2 c a Hc) as [[pc Hpc]|[(? & ? & ? & Hd)|Hd]]; rewrite Ed in *.
        -- exists pc. by apply lookup_app_l_Some.
        -- injection Hd as _ <- _ _. exists SRun. rewrite Haid.
           rewrite lookup_app_r by lia. by rewrite Nat.sub_diag.
        -- done.
  - (* the label iterator *)
    repeat case_match; simplify_eq;
      (apply (inv_moved s); [done|done|done|by rewrite Ed|by rewrite Ed|done|done]).
  - (* wg.Wait() *)
    repeat case_match; simplify_eq;
      (apply (inv_moved s); [done|done|done|by rewrite Ed|by rewrite Ed|done|done]).
  - done.
  - done.
Qed.

Lemma inv_panicked (s : State) : scheduler_inv s → scheduler_inv (set_drv s DPanic).
Proof.
  intros (Hex & _ & Hr1 & _ & _). unfold scheduler_inv, driver_ok, registered. simpl.
  split_and!; try done. intros c a _. by right; right.
Qed.

(** A step of a supervisor: the driver stays where it is, the supervisor
    moves on with its run, and no core gets occupied. *)
Lemma inv_supervised (s s' : State) (k : nat) (atr : ActiveTaskRun) (pc pc' : super) :
  scheduler_inv s →
  drv s' = drv s →
  sups s !! k = Some (atr, pc) → sups s' = <[k := (atr, pc')]> (sups s) →
  (∀ c a, tasksInFlight s' !! c = Some (Some a) → tasksInFlight s !! c = Some (Some a)) →
  scheduler_inv s'.
Proof.
  intros (Hex & Hok & Hr1 & Hr2 & Hr3) Hd Hk Hs Hm.
  unfold scheduler_inv, driver_ok, registered in *. rewrite Hd, Hs.
  split_and!.
  - by apply (exclusive_fewer (tasksInFlight s)).
  - destruct (drv s); try done.
    + by apply (free_of_fewer (tasksInFlight s)).
    + destruct Hok as [? ?]. split; [done|]. by apply (only_of_fewer (tasksInFlight s)).
  - intros k' a pc0. rewrite list_lookup_insert by done. case_decide as Hkk.
    + destruct Hkk as [<- _]. intros [= <- _]. by apply (Hr1 k atr pc).
    + apply Hr1.
  - intros c a Hc. destruct (Hr2 c a (Hm c a Hc)) as [[pc0 Hpc]|?]; [|by right].
    left. destruct (decide (aid a = k)) as [Heq|Hne].
    + exists pc'. rewrite Heq in Hpc. rewrite Hk in Hpc. injection Hpc as <- _.
      rewrite Heq. apply list_lookup_insert_eq. by apply lookup_lt_Some in Hk.
    + exists pc0. by rewrite list_lookup_insert_ne.
  - intros task a cores j Ha. rewrite length_insert. by apply (Hr3 task a cores j).
Qed.

Lemma super_step_inv (k : nat) (returnCode : Z) (startErr : bool) (s s' : State) :
  scheduler_inv s → super_step k returnCode startErr s = Some s' → scheduler_inv s'.
Proof.
  intros Hinv. unfold super_step, panic.
  destruct (sups s !! k) as [[atr pc]|] eqn:Ek; simpl; [|done].
  destruct pc as [| |[|coreId rest]].
  - repeat case_match; intros [= <-].
    + by apply (inv_supervised s _ k atr SRun SSignal).
    + by apply inv_panicked.
    + by apply (inv_supervised s _ k atr SRun SSignal).
  - intros [= <-].
    by apply (inv_supervised s _ k atr SSignal (SRelease (aCoreIds atr))).
  - done.
  - intros [= <-].
    apply (inv_supervised s _ k atr (SRelease (coreId :: rest)) (SRelease rest));
      try done.
    simpl. intros c a. apply Unset_entries.
Qed.

Lemma step_inv (l : label) (s s' : State) :
  scheduler_inv s → step l s = Some s' → scheduler_inv s'.
Proof.
  intros Hinv. unfold step. destruct (drv s) eqn:Ed; try done; destruct l;
    solve [by apply driver_step_inv | by apply super_step_inv].
Qed.

Lemma exec_inv (ls : list label) :
  ∀ s s' : State, scheduler_inv s → exec ls s = Some s' → scheduler_inv s'.
Proof.
  induction ls as [|l ls IH]; intros s s' Hinv; simpl.
  - by intros [= <-].
  - destruct (step l s) as [s1|] eqn:E; simpl; [|done].
    apply IH. by apply (step_inv l s).
Qed.

(** C2: in every state the scheduler and its supervisors reach from a
    loaded job, at most one active run of any task occupies cores of the
    core map, where the records in the map stand for distinct runs.  The
    exclusion test lets the driver pass only when no run of the task is in
    the map, and while the driver then sets the cores of the new run, that
    run is the only one of its task in the map. *)
Theorem exclusion_invariant :
  (∀ (fuel : nat) (job : Job) (cfg : RuntimeConfig)
     (w : Job * list Task * gmap Z (option ActiveTaskRun))
     (ls : list label) (s : State),
     NewJob fuel job cfg = Ok w → exec ls (start w) = Some s →
     exclusive (tasksInFlight s) ∧ driver_ok s ∧ registered s) ∧
  (∀ (m : gmap Z (option ActiveTaskRun)) (task : nat) (heap h : list Task),
     excluded (All m) task heap = Some (false, h) → free_of m task).
Proof.
  split.
  - intros fuel job cfg w ls s Hload Hexec.
    apply (exec_inv ls (start w) s); [|done].
    apply start_inv. rewrite (NewJob_map _ _ _ _ Hload). apply NewCoreMap_vacant.
  - intros m task heap h Hex c a Hc.
    apply (excluded_false _ _ _ _ Hex). by apply (All_entries _ c).
Qed.

Lemma exclusion_invariant_witness :
  ∃ (w : Job * list Task * gmap Z (option ActiveTaskRun)) (s : State),
    NewJob 2 job_two_stages two_cpus = Ok w ∧
    exec (trace_cancel ++ trace_dispatch) (start w) = Some s ∧
    exclusive (tasksInFlight s) ∧ driver_ok s ∧ registered s.
Proof.
  eexists _, _.
  split; [vm_compute; reflexivity|].
  split; [vm_compute; reflexivity|].
  eapply (proj1 exclusion_invariant 2%nat job_two_stages two_cpus _
            (trace_cancel ++ trace_dispatch)).
  - vm_compute. reflexivity.
  - vm_compute. reflexivity.
Defined.

(** ** [parseCpuSets] *)

Lemma Contains_app (s1 s2 : string) (c : ascii) :
  Contains (s1 +:+ s2) c = Contains s1 c || Contains s2 c.
Proof. induction s1 as [|a s1 IH]; simpl; [done|]. by rewrite IH, orb_assoc. Qed.

Lemma Split_nonempty (s : string) (sep : ascii) : Split s sep ≠ [].
Proof. destruct s as [|c s]; simpl; [done|]. by repeat case_match. Qed.

Lemma Join_cons (piece : string) (pieces : list string) (sep : ascii) :
  pieces ≠ [] → Join (piece :: pieces) sep = piece +:+ String sep (Join pieces sep).
Proof. by destruct pieces. Qed.

Lemma Join_Split (s : string) (sep : ascii) : Join (Split s sep) sep = s.
Proof.
  induction s as [|c s IH]; simpl; [done|].
  destruct (Ascii.eqb_spec c sep) as [->|_].
  - rewrite Join_cons by apply Split_nonempty. simpl. by rewrite IH.
  - destruct (Split s sep) as [|piece pieces] eqn:E; [by apply Split_nonempty in E|].
    rewrite <- IH. by destruct pieces.
Qed.

Lemma Split_pieces (s : string) (sep : ascii) :
  Forall (fun piece => Contains piece sep = false) (Split s sep).
Proof.
  induction s as [|c s IH]; simpl; [by repeat constructor|].
  destruct (Ascii.eqb_spec c sep) as [->|Hc].
  - by constructor.
  - destruct (Split s sep) as [|piece pieces]; simpl.
    + repeat constructor. simpl. by destruct (Ascii.eqb_spec c sep).
    + apply Forall_cons in IH as [Hp Hps]. constructor; [|done].
      simpl. by destruct (Ascii.eqb_spec c sep).
Qed.

Lemma Split_whole (s : string) (sep : ascii) : Contains s sep = false → Split s sep = [s].
Proof.
  induction s as [|c s IH]; simpl; [done|].
  destruct (Ascii.eqb c sep); simpl; [done|]. intros H. by rewrite IH.
Qed.

Lemma Split_app (piece rest : string) (sep : ascii) :
  Contains piece sep = false →
  Split (piece +:+ String sep rest) sep = piece :: Split rest sep.
Proof.
  induction piece as [|c piece IH]; simpl.
  - by rewrite Ascii.eqb_refl.
  - destruct (Ascii.eqb c sep); simpl; [done|]. intros H. by rewrite IH.
Qed.

Lemma Split_Join (pieces : list string) (sep : ascii) :
  pieces ≠ [] → Forall (fun piece => Contains piece sep = false) pieces →
  Split (Join pieces sep) sep = pieces.
Proof.
  induction pieces as [|piece pieces IH]; [done|]. intros _ H.
  apply Forall_cons in H as [Hp Hps].
  destruct pieces as [|piece' pieces].
  - by apply Split_whole.
  - rewrite Join_cons by done. rewrite Split_app by done. by rewrite IH.
Qed.

Lemma Split_many (s : string) (sep : ascii) :
  Contains s sep = true → (2 ≤ length (Split s sep))%nat.
Proof.
  induction s as [|c s IH]; simpl; [done|].
  destruct (Ascii.eqb c sep); simpl.
  - intros _. pose proof (Split_nonempty s sep). destruct (Split s sep); [done | simpl; lia].
  - intros H. specialize (IH H). destruct (Split s sep); simpl in *; lia.
Qed.

Lemma Contains_Join (pieces : list string) (sep c : ascii) :
  Contains (Join pieces sep) c
  = existsb (fun piece => Contains piece c) pieces
    || (Ascii.eqb sep c && (1 <? len pieces)).
Proof.
  induction pieces as [|piece pieces IH]; [simpl; by rewrite andb_false_r|].
  destruct pieces as [|piece' pieces].
  - simpl. by rewrite andb_false_r, !orb_false_r.
  - rewrite Join_cons by done. rewrite Contains_app. cbn [Contains]. rewrite IH.
    cbn [existsb]. unfold len. cbn [length].
    replace (1 <? Z.of_nat (S (S (length pieces)))) with true by (symmetry; apply Z.ltb_lt; lia).
    rewrite andb_true_r. destruct (Contains piece c), (Ascii.eqb sep c); simpl; try done;
      by rewrite ?orb_true_r, ?orb_false_r.
Qed.

Lemma parse_digits_chars (s : string) :
  ∀ (acc n : Z), parse_digits s acc = Some n → 0 ≤ acc →
    0 ≤ n ∧ ∀ c, Contains s c = true → is_digit c = true.
Proof.
  induction s as [|a s IH]; intros acc n; simpl.
  - intros [= <-] ?. split; [done|]. done.
  - destruct (is_digit a) eqn:Ha; [|done]. intros H Hacc.
    apply IH in H as [Hn Hs].
    + split; [done|]. intros c. destruct (Ascii.eqb_spec a c) as [<-|_]; simpl; auto.
    + unfold is_digit in Ha. apply andb_prop in Ha as [H1 H2]. lia.
Qed.

Lemma Atoi_chars (s : string) (v : Z) (c : ascii) :
  Atoi s = Ok v → Contains s c = true →
  is_digit c = true ∨ c = "-"%char ∨ c = "+"%char.
Proof.
  intros H Hc. destruct s as [|a s]; [done|].
  change (Contains (String a s) c) with (Ascii.eqb a c || Contains s c) in Hc.
  unfold Atoi in H. cbv zeta in H.
  destruct (Ascii.eqb_spec a c) as [<-|_].
  - destruct (Ascii.eqb_spec a "-") as [->|_]; [auto|].
    destruct (Ascii.eqb_spec a "+") as [->|_]; [auto|].
    cbn [orb] in H. destruct (parse_digits (String a s) 0) as [n|] eqn:E; [|done].
    left. apply (parse_digits_chars _ _ _ E); [done|]. simpl. by rewrite Ascii.eqb_refl.
  - cbn [orb] in Hc.
    assert (Hd : ∀ d n, parse_digits d 0 = Some n → Contains d c = true → is_digit c = true).
    { intros d n E. by apply (parse_digits_chars _ _ _ E). }
    destruct (Ascii.eqb a "-" || Ascii.eqb a "+").
    + destruct s as [|b s]; [done|].
      destruct (parse_digits (String b s) 0) as [n|] eqn:E; [|done]. left. eauto.
    + destruct (parse_digits (String a s) 0) as [n|] eqn:E; [|done]. left.
      apply (Hd _ _ E). simpl. by rewrite Hc, orb_true_r.
Qed.

Lemma Atoi_no_comma (s : string) (v : Z) : Atoi s = Ok v → Contains s "," = false.
Proof.
  intros H. destruct (Contains s ",") eqn:E; [|done].
  by destruct (Atoi_chars _ _ _ H E) as [?|[?|?]].
Qed.

Lemma Atoi_unsigned (s : string) (v : Z) :
  Atoi s = Ok v → Contains s "-" = false → 0 ≤ v ≤ MaxInt.
Proof.
  intros H Hc. split; [|apply Atoi_range in H; lia].
  revert H. unfold Atoi. destruct s as [|a s]; [done|].
  simpl in Hc. apply orb_false_elim in Hc as [Ha Hs]. rewrite Ha. simpl.
  destruct (if Ascii.eqb a "+" then s else String a s) as [|b d] eqn:Ed; [done|].
  destruct (parse_digits (String b d) 0) as [n|] eqn:E; [|done].
  apply parse_digits_chars in E as [Hn _]; [|done].
  destruct (_ && _); [|done]. by intros [= <-].
Qed.

Lemma count_loop (end_ : Z) (n : nat) :
  ∀ (fuel : nat) (start : Z) (cpus : list Z),
    MinInt ≤ start → end_ ≤ MaxInt → Z.to_nat (end_ - start) = n → (n < fuel)%nat →
    for_loop fuel (fun i => i <? end_) (fun i => int_add i 1) (fun i cpus => cpus ++ [i])
      start cpus
    = Ok (cpus ++ seqZ start (end_ - start)).
Proof.
  induction n as [|n IH]; intros fuel start cpus Hs He Hn Hf;
    (destruct fuel as [|fuel]; [lia|]); simpl.
  - destruct (Z.ltb_spec start end_) as [?|?]; [lia|].
    unfold seqZ. replace (Z.to_nat (end_ - start)) with 0%nat by lia. simpl.
    by rewrite app_nil_r.
  - destruct (Z.ltb_spec start end_) as [?|?]; [|lia].
    unfold int_add. rewrite wrap_id by lia.
    rewrite IH by lia. f_equal.
    rewrite (seqZ_cons start (end_ - start)) by lia.
    rewrite <- app_assoc. simpl. do 3 f_equal; lia.
Qed.

Lemma parse_pieces_all (pieces : list string) (vals : list Z) :
  Forall2 (fun piece v => Atoi piece = Ok v) pieces vals →
  ∀ cpus, parse_pieces pieces cpus = (cpus ++ vals, false).
Proof.
  induction 1 as [|piece v pieces vals Hp _ IH]; intros cpus; simpl.
  - by rewrite app_nil_r.
  - rewrite Hp, IH. by rewrite <- app_assoc.
Qed.

Lemma parse_pieces_ok (pieces : list string) :
  ∀ cpus r, parse_pieces pieces cpus = (r, false) →
    ∃ vals, r = cpus ++ vals ∧ Forall2 (fun piece v => Atoi piece = Ok v) pieces vals.
Proof.
  induction pieces as [|piece pieces IH]; intros cpus r; simpl.
  - intros [= <-]. exists []. by rewrite app_nil_r.
  - destruct (Atoi piece) as [v| | |] eqn:E; try done.
    intros H. apply IH in H as (vals & -> & Hv).
    exists (v :: vals). rewrite <- app_assoc. split; [done|]. by constructor.
Qed.

(** The pieces of a string that holds exactly one separator. *)
Lemma Split_two (s : string) (sep : ascii) :
  Contains s sep = true → (2 <? len (Split s sep)) = false →
  ∃ c0 c1, Split s sep = [c0; c1] ∧ s = c0 +:+ String sep c1 ∧
           Contains c0 sep = false ∧ Contains c1 sep = false.
Proof.
  intros Hc Hl. apply Split_many in Hc.
  pose proof (Join_Split s sep) as Hj. pose proof (Split_pieces s sep) as Hp.
  destruct (Split s sep) as [|c0 [|c1 [|c2 c]]]; simpl in *; try lia.
  - apply Forall_cons in Hp as [H0 Hp]. apply Forall_cons in Hp as [H1 _]. by exists c0, c1.
  - apply Z.ltb_ge in Hl. unfold len in Hl. simpl in Hl. lia.
Qed.

(** X1: a set written [a-b], with [a] and [b] unsigned numbers, is the
    list of the ids from [a] up to, but not including, [b]; it is empty
    when [b ≤ a]. *)
Theorem parseCpuSets_range (sa sb : string) (a b : Z) (fuel : nat) :
  Atoi sa = Ok a → Atoi sb = Ok b →
  Contains sa "-" = false → Contains sb "-" = false →
  (Z.to_nat (b - a) < fuel)%nat →
  parseCpuSets fuel (sa +:+ "-" +:+ sb) = Ok (seqZ a (b - a), false).
Proof.
  intros Ha Hb Hna Hnb Hfuel. unfold parseCpuSets.
  rewrite !Contains_app. rewrite Hna, Hnb, (Atoi_no_comma _ _ Ha), (Atoi_no_comma _ _ Hb).
  cbn [Contains Ascii.eqb Bool.eqb orb andb append].
  change (sa +:+ "-" +:+ sb) with (sa +:+ String "-" sb).
  rewrite Split_app by done. rewrite (Split_whole sb) by done.
  change (2 <? len [sa; sb]) with false. change (index [sa; sb] 0) with (Some sa).
  change (index [sa; sb] 1) with (Some sb). cbv iota. rewrite Ha, Hb.
  apply Atoi_range in Ha, Hb.
  by rewrite (count_loop b (Z.to_nat (b - a))) by (done || lia).
Qed.

Lemma parseCpuSets_range_witness :
  parseCpuSets 4 cpu_set_1_4 = Ok ([1; 2; 3], false).
Proof. apply (parseCpuSets_range "1" "4" 1 4 4); (reflexivity || (simpl; lia)). Defined.

(** X2: a set written as two or more unsigned numbers between commas is
    the list of these numbers in the order written, duplicates included. *)
Theorem parseCpuSets_list (pieces : list string) (vals : list Z) (fuel : nat) :
  (2 ≤ length pieces)%nat →
  Forall2 (fun piece v => Atoi piece = Ok v ∧ Contains piece "-" = false) pieces vals →
  parseCpuSets fuel (Join pieces ",") = Ok (vals, false).
Proof.
  intros Hl H. unfold parseCpuSets.
  assert (Hv : Forall2 (fun piece v => Atoi piece = Ok v) pieces vals).
  { eapply Forall2_impl; [done|]. by intros ?? [??]. }
  assert (Hm : existsb (fun piece => Contains piece "-") pieces = false).
  { clear Hl Hv. induction H as [|?????? IH]; [done|]. simpl. destruct H as [_ ->]. done. }
  assert (Hc : Forall (fun piece => Contains piece "," = false) pieces).
  { clear Hl Hm H. induction Hv; constructor; [|done]. by eapply Atoi_no_comma. }
  rewrite !Contains_Join, Hm. cbn [Ascii.eqb Bool.eqb andb orb].
  replace (1 <? len pieces) with true by (symmetry; apply Z.ltb_lt; unfold len; lia).
  rewrite orb_true_r.
  rewrite Split_Join; [|destruct pieces; [simpl in Hl; lia | done]|done].
  by rewrite (parse_pieces_all _ _ Hv).
Qed.

Lemma parseCpuSets_list_witness :
  parseCpuSets 0 cpu_set_0_2_5 = Ok ([0; 2; 5], false).
Proof.
  apply (parseCpuSets_list ["0"; "2"; "5"] [0; 2; 5] 0); [simpl; lia|].
  repeat constructor.
Defined.

(** X3: a set that holds a hyphen and a comma is refused, whatever else it
    holds: ranges cannot be listed. *)
Theorem parseCpuSets_mixed (fuel : nat) (cpuSets : string) :
  Contains cpuSets "-" = true → Contains cpuSets "," = true →
  parseCpuSets fuel cpuSets = Ok ([], true).
Proof.
  intros Hm Hc. unfold parseCpuSets. rewrite Hm.
  destruct (2 <? len (Split cpuSets "-")) eqn:Hl; [done|].
  destruct (Split_two _ _ Hm Hl) as (c0 & c1 & -> & Hs & _ & _).
  change (index [c0; c1] 0) with (Some c0). change (index [c0; c1] 1) with (Some c1).
  cbv iota.
  rewrite Hs, Contains_app in Hc. simpl in Hc.
  destruct (Atoi c0) as [start| | |] eqn:E0; try done.
  destruct (Atoi c1) as [end_| | |] eqn:E1; try done.
  by rewrite (Atoi_no_comma _ _ E0), (Atoi_no_comma _ _ E1) in Hc.
Qed.

Lemma parseCpuSets_mixed_witness : parseCpuSets 9 "0-3,5" = Ok ([], true).
Proof. apply parseCpuSets_mixed; reflexivity. Defined.

(** X4: a set without a hyphen and without a comma, among them the empty
    set and a single number, selects no core and is not refused. *)
Theorem parseCpuSets_neither (fuel : nat) (cpuSets : string) :
  Contains cpuSets "-" = false → Contains cpuSets "," = false →
  parseCpuSets fuel cpuSets = Ok ([], false).
Proof. intros Hm Hc. unfold parseCpuSets. by rewrite Hm, Hc. Qed.

Lemma parseCpuSets_neither_witness : parseCpuSets 0 "3" = Ok ([], false).
Proof. apply parseCpuSets_neither; reflexivity. Defined.

(** X5: the ids of a set that is accepted are never negative. *)
Theorem parseCpuSets_unsigned (fuel : nat) (cpuSets : string) (cpus : list Z) :
  parseCpuSets fuel cpuSets = Ok (cpus, false) →
  Forall (fun c => 0 ≤ c ≤ MaxInt) cpus.
Proof.
  unfold parseCpuSets. destruct (Contains cpuSets "-") eqn:Hm.
  - destruct (2 <? len (Split cpuSets "-")) eqn:Hl; [done|].
    destruct (Split_two _ _ Hm Hl) as (c0 & c1 & -> & Hs & H0 & H1).
    change (index [c0; c1] 0) with (Some c0). change (index [c0; c1] 1) with (Some c1).
    cbv iota.
    destruct (Atoi c0) as [start| | |] eqn:E0; try done.
    destruct (Atoi c1) as [end_| | |] eqn:E1; try done.
    assert (Hc : Contains cpuSets "," = false).
    { rewrite Hs, Contains_app. simpl.
      by rewrite (Atoi_no_comma _ _ E0), (Atoi_no_comma _ _ E1). }
    rewrite Hc.
    apply Atoi_unsigned in E0; [|done]. apply Atoi_unsigned in E1; [|done].
    destruct (for_loop fuel _ _ _ start []) as [r| | |] eqn:Hloop; simpl; try done.
    intros [= <-].
    assert (Hr : for_loop (fuel + S (Z.to_nat (end_ - start))) (fun i => i <? end_)
                   (fun i => int_add i 1) (fun i cpus => cpus ++ [i]) start []
                 = Ok r) by (apply (for_loop_mono _ _ _ fuel); [done | lia]).
    rewrite (count_loop end_ (Z.to_nat (end_ - start))) in Hr
      by (done || unfold MinInt; lia).
    injection Hr as <-. simpl. apply Forall_forall. intros c Hin.
    apply elem_of_seqZ in Hin. lia.
  - destruct (Contains cpuSets ",") eqn:Hc.
    + intros [= H]. apply parse_pieces_ok in H as (vals & -> & Hv). simpl.
      assert (Hp : Forall (fun piece => Contains piece "-" = false) (Split cpuSets ",")).
      { pose proof (Join_Split cpuSets ",") as Hj. rewrite <- Hj in Hm.
        rewrite Contains_Join in Hm. apply orb_false_elim in Hm as [Hm _].
        revert Hm. generalize (Split cpuSets ","). intros l.
        induction l as [|p l IH]; simpl; [done|]. intros H.
        apply orb_false_elim in H as [??]. constructor; auto. }
      revert Hp. induction Hv as [|p v ps vs Hpv _ IH]; [done|].
      intros Hp. apply Forall_cons in Hp as [H1 H2].
      constructor; [by eapply Atoi_unsigned | auto].
    + by intros [= <-].
Qed.

Lemma parseCpuSets_unsigned_witness : Forall (fun c => 0 ≤ c ≤ MaxInt) [1; 2; 3].
Proof. apply (parseCpuSets_unsigned 4 cpu_set_1_4). reflexivity. Defined.

(** X6: [parseCpuSets] returns for every input: it reads no piece that is
    not there, and its loop ends. *)
Theorem parseCpuSets_returns (cpuSets : string) :
  ∃ (fuel : nat) (cpus : list Z) (err : bool),
    ∀ fuel', (fuel ≤ fuel')%nat → parseCpuSets fuel' cpuSets = Ok (cpus, err).
Proof.
  unfold parseCpuSets. destruct (Contains cpuSets "-") eqn:Hm.
  - destruct (2 <? len (Split cpuSets "-")) eqn:Hl; [by exists 0%nat, [], true|].
    destruct (Split_two _ _ Hm Hl) as (c0 & c1 & -> & Hs & H0 & H1).
    change (index [c0; c1] 0) with (Some c0). change (index [c0; c1] 1) with (Some c1).
    cbv iota.
    destruct (Atoi c0) as [start| | |] eqn:E0; try by exists 0%nat, [], true.
    destruct (Atoi c1) as [end_| | |] eqn:E1; try by exists 0%nat, [], true.
    apply Atoi_range in E0, E1.
    destruct (Contains cpuSets ",").
    + destruct (parse_pieces (Split cpuSets ",") ([] ++ seqZ start (end_ - start)))
        as [cpus err] eqn:Hp.
      exists (S (Z.to_nat (end_ - start))), cpus, err. intros fuel' Hf.
      rewrite (count_loop end_ (Z.to_nat (end_ - start))) by (done || lia). simpl.
      simpl in Hp. by rewrite Hp.
    + exists (S (Z.to_nat (end_ - start))), (seqZ start (end_ - start)), false.
      intros fuel' Hf.
      by rewrite (count_loop end_ (Z.to_nat (end_ - start))) by (done || lia).
  - destruct (Contains cpuSets ",").
    + destruct (parse_pieces (Split cpuSets ",") []) as [cpus err]. by exists 0%nat, cpus, err.
    + by exists 0%nat, [], false.
Qed.

(** ** The tasks of a job, whatever its declarations *)

Lemma make_copy_length (n : nat) (src : list TaskParam) : length (make_copy n src) = n.
Proof. unfold make_copy. rewrite length_app, length_take, length_replicate. lia. Qed.

Lemma nextTask_created (j : Job) (fuel : nat) :
  ∀ (i : nat) (tasks ts : list Task) (curr : list TaskParam),
    nextTask fuel j i tasks curr = Ok ts →
    Forall (created_for j) tasks → Forall (created_for j) ts.
Proof.
  induction fuel as [|fuel IH]; intros i tasks ts curr; simpl; [done|].
  destruct (jParams j !! i) as [p|]; [|done].
  destruct (paramPermutations fuel p) as [vs| | |]; simpl; try done.
  destruct (range_loop _ vs (tasks, curr)) as [[ts' c']| | |] eqn:Hloop; simpl; try done.
  intros [= <-] Htasks.
  apply (range_loop_keeps (fun st : list Task * list TaskParam => Forall (created_for j) st.1)
           (fun _ => True) _ vs) in Hloop; [done| |by apply Forall_true|done].
  intros [ts0 c0] v [ts1 c1] Hts0 _. simpl in *.
  destruct (Z.of_nat i + 1 =? len (jParams j)).
  - intros [= <- _]. apply Forall_app. split; [done|]. repeat constructor.
    simpl. apply make_copy_length.
  - destruct (nextTask fuel j (i + 1) [] (replace_last c0 v)) as [nt| | |] eqn:En;
      simpl; try done.
    intros [= <- _]. apply Forall_app. split; [done|]. by apply (IH _ _ _ _ En).
Qed.

(** X7: every task that the expansion of a job returns has as many
    parameters as the job has declarations, refers to the inputs and the
    outputs of the job, and has neither a run queue nor an identifier
    yet. *)
Theorem tasks_created (fuel : nat) (j : Job) (ts : list Task) :
  tasks fuel j = Ok ts → Forall (created_for j) ts.
Proof. intros H. by apply (nextTask_created j fuel 0 [] ts []). Qed.

Lemma tasks_created_witness : ∃ ts, tasks 2 job_x_x = Ok ts ∧ Forall (created_for job_x_x) ts.
Proof. eexists. split; [reflexivity|]. by apply (tasks_created 2 job_x_x). Defined.

(** A loop that appends the same number of elements at each step. *)
Lemma range_loop_count {A T S : Type}
    (body : list T * S → A → result (list T * S)) (k : nat) :
  (∀ ts st x, ∃ ts' st', body (ts, st) x = Ok (ts', st') ∧ length ts' = (length ts + k)%nat) →
  ∀ (l : list A) (ts : list T) (st : S),
    ∃ ts' st', range_loop body l (ts, st) = Ok (ts', st') ∧
               length ts' = (length ts + length l * k)%nat.
Proof.
  intros Hbody l. induction l as [|x l IH]; intros ts st; simpl.
  - exists ts, st. split; [done | lia].
  - destruct (Hbody ts st x) as (ts1 & st1 & -> & H1). simpl.
    destruct (IH ts1 st1) as (ts2 & st2 & -> & H2).
    exists ts2, st2. split; [done | lia].
Qed.

Lemma nextTask_count (j : Job) (vals : list (list TaskParam)) (fuel0 : nat) :
  Forall2 (fun p vs => paramPermutations fuel0 p = Ok vs) (jParams j) vals →
  ∀ (d i fuel : nat) (tasks : list Task) (curr : list TaskParam),
    (i + S d = length (jParams j))%nat →
    (fuel0 + S d ≤ fuel)%nat →
    ∃ ts, nextTask fuel j i tasks curr = Ok ts ∧
          length ts = (length tasks + combinations (drop i vals))%nat.
Proof.
  intros Hvals d.
  induction d as [|d IH]; intros i fuel tasks curr Hi Hfuel.
  all: destruct fuel as [|fuel]; [lia|]; simpl.
  all: destruct (lookup_lt_is_Some_2 (jParams j) i ltac:(lia)) as [p Hp]; rewrite Hp.
  all: destruct (Forall2_lookup_l _ _ _ _ _ Hvals Hp) as (vs & Hvs & Hpp).
  all: rewrite (paramPermutations_mono fuel0 fuel p vs Hpp) by lia; simpl.
  all: rewrite (drop_S _ _ _ Hvs); simpl.
  - edestruct (range_loop_count
                 (fun (st : list Task * list TaskParam) param =>
                    let '(tasks, curr) := st in
                    let curr := replace_last curr param in
                    if Z.of_nat i + 1 =? len (jParams j)
                    then Ok (tasks ++ [newTask j (make_copy (length (jParams j)) curr)], curr)
                    else nextTasks ← nextTask fuel j (i + 1) [] curr;
                         Ok (tasks ++ nextTasks, curr))
                 1) as (ts & st & -> & Hl).
    + intros ts c v.
      destruct (Z.eqb_spec (Z.of_nat i + 1) (len (jParams j))) as [_|Hne];
        [|unfold len in Hne; lia].
      eexists _, _. split; [done|]. rewrite length_app. simpl. lia.
    + simpl. exists ts. split; [done|]. rewrite Hl.
      rewrite drop_ge by (apply Forall2_length in Hvals; lia). simpl. lia.
  - edestruct (range_loop_count
                 (fun (st : list Task * list TaskParam) param =>
                    let '(tasks, curr) := st in
                    let curr := replace_last curr param in
                    if Z.of_nat i + 1 =? len (jParams j)
                    then Ok (tasks ++ [newTask j (make_copy (length (jParams j)) curr)], curr)
                    else nextTasks ← nextTask fuel j (i + 1) [] curr;
                         Ok (tasks ++ nextTasks, curr))
                 (combinations (drop (S i) vals))) as (ts & st & -> & Hl).
    + intros ts c v.
      destruct (Z.eqb_spec (Z.of_nat i + 1) (len (jParams j))) as [He|_];
        [unfold len in He; lia|].
      cbv zeta.
      destruct (IH (i + 1)%nat fuel [] (replace_last c v)) as (nt & -> & Hnt); [lia|lia|].
      simpl. eexists _, _. split; [done|]. rewrite length_app, Hnt. simpl.
      by replace (i + 1)%nat with (S i) by lia.
    + simpl. exists ts. split; [done|]. by rewrite Hl.
Qed.

(** X8: when every declaration of a job yields a value list, the
    expansion returns as many tasks as there are combinations of one
    value per declaration, also when neighbouring declarations share a
    name; a declaration without a value leaves no task at all. *)
Theorem tasks_count (j : Job) (vals : list (list TaskParam)) (fuel0 fuel : nat) :
  jParams j ≠ [] →
  Forall2 (fun p vs => paramPermutations fuel0 p = Ok vs) (jParams j) vals →
  (fuel0 + length (jParams j) ≤ fuel)%nat →
  ∃ ts, tasks fuel j = Ok ts ∧ length ts = combinations vals ∧
        ([] ∈ vals → ts = []).
Proof.
  intros Hne Hvals Hfuel.
  destruct (jParams j) as [|p ps] eqn:Ej; [done|].
  destruct (nextTask_count j vals fuel0 ltac:(by rewrite Ej) (length ps) 0 fuel [] [])
    as (ts & Hts & Hl).
  - rewrite Ej. simpl. lia.
  - simpl in Hfuel. lia.
  - exists ts. split; [done|]. split; [by rewrite Hl, drop_0|].
    intros Hin. apply nil_length_inv. rewrite Hl. rewrite drop_0. simpl. clear -Hin.
    induction vals as [|vs vals IH]; [by apply not_elem_of_nil in Hin|].
    simpl. apply elem_of_cons in Hin as [<-|Hin]; [done|]. rewrite IH by done. lia.
Qed.

Lemma tasks_count_witness :
  ∃ ts, tasks 2 job_x_x = Ok ts ∧
        length ts = combinations (expansion_x_x) ∧ ([] ∈ expansion_x_x → ts = []).
Proof.
  apply (tasks_count job_x_x expansion_x_x 0 2); [discriminate | repeat constructor | simpl; lia].
Defined.

(** ** What [NewJob] returns *)

Lemma check_runs_cases (cfg : RuntimeConfig) (runs : list Run) :
  Forall (fits cfg) runs ∨ Exists (fun r => len (Cpus cfg) < rCores r) runs.
Proof.
  induction runs as [|r runs [IH|IH]]; [by left| |].
  - destruct (Z.lt_ge_cases (len (Cpus cfg)) (rCores r)) as [Hbig|Hfit].
    + right. by apply Exists_cons_hd.
    + left. constructor; [unfold fits; lia | done].
  - right. by apply Exists_cons_tl.
Qed.

Lemma check_runs_accepts (cfg : RuntimeConfig) (runs r : list Run) :
  check_runs cfg runs = Ok r → Forall (fits cfg) runs ∧ r = default_cores <$> runs.
Proof.
  intros H. destruct (check_runs_cases cfg runs) as [Hfit|Hbig].
  - split; [done|]. rewrite (check_runs_ok cfg runs Hfit) in H. by injection H.
  - destruct (check_runs_err cfg runs Hbig) as (r' & _ & _ & Herr). congruence.
Qed.

Lemma check_runs_refuses (cfg : RuntimeConfig) (runs : list Run) (e : error) :
  check_runs cfg runs = Err e →
  ∃ r, r ∈ runs ∧ len (Cpus cfg) < rCores r ∧
       e = ErrTooManyCores (rName r) (rCores r) (len (Cpus cfg)).
Proof.
  intros H. destruct (check_runs_cases cfg runs) as [Hfit|Hbig].
  - rewrite (check_runs_ok cfg runs Hfit) in H. done.
  - destruct (check_runs_err cfg runs Hbig) as (r & Hin & Hr & Herr).
    exists r. split_and!; [done|done|congruence].
Qed.

Lemma check_runs_returns (cfg : RuntimeConfig) (runs : list Run) :
  (∃ r, check_runs cfg runs = Ok r) ∨ (∃ e, check_runs cfg runs = Err e).
Proof.
  destruct (check_runs_cases cfg runs) as [Hfit|Hbig].
  - left. eexists. by apply check_runs_ok.
  - right. destruct (check_runs_err cfg runs Hbig) as (r & _ & _ & Herr). eauto.
Qed.

(** The loop of [NewJob] over the tasks: the stages of the job are those
    of the document, or these with the default number of cores. *)
Lemma load_loop_accepts (cfg : RuntimeConfig) (runs0 : list Run) (ts : list Task) :
  ∀ (job job' : Job) (heap heap' : list Task),
    jRuns job = runs0 ∨ jRuns job = default_cores <$> runs0 →
    range_loop
      (fun (st : Job * list Task) task =>
         let '(job, heap) := st in
         runs ← check_runs cfg (jRuns job);
         let task := Init task runs in
         Ok (set_job job runs (Add (jwaitList job) (length heap)) (jscheduleGrace job),
             heap ++ [task]))
      ts (job, heap)
    = Ok (job', heap') →
    heap' = heap ++ ((fun t => Init t (default_cores <$> runs0)) <$> ts) ∧
    job' = set_job job (match ts with [] => jRuns job | _ => default_cores <$> runs0 end)
             (jwaitList job ++ seq (length heap) (length ts)) (jscheduleGrace job) ∧
    (ts ≠ [] → Forall (fits cfg) (jRuns job)).
Proof.
  induction ts as [|t ts IH]; intros job job' heap heap' Hruns; simpl.
  - intros [= <- <-]. rewrite !app_nil_r. by destruct job.
  - destruct (check_runs cfg (jRuns job)) as [r| | |] eqn:Hc; simpl; try done.
    apply check_runs_accepts in Hc as [Hfit ->].
    assert (Hr : default_cores <$> jRuns job = default_cores <$> runs0).
    { destruct Hruns as [->| ->]; [done | apply default_cores_twice]. }
    rewrite Hr. intros H. apply IH in H as (-> & -> & _); [|by right].
    simpl. rewrite length_app. simpl. unfold Add. rewrite <- !app_assoc. simpl.
    replace (length heap + 1)%nat with (S (length heap)) by lia.
    split; [done|]. split; [by destruct ts | done].
Qed.

Lemma load_loop_refuses (cfg : RuntimeConfig) (runs0 : list Run) (e : error)
    (ts : list Task) :
  ∀ (job : Job) (heap : list Task),
    jRuns job = runs0 ∨ jRuns job = default_cores <$> runs0 →
    range_loop
      (fun (st : Job * list Task) task =>
         let '(job, heap) := st in
         runs ← check_runs cfg (jRuns job);
         let task := Init task runs in
         Ok (set_job job runs (Add (jwaitList job) (length heap)) (jscheduleGrace job),
             heap ++ [task]))
      ts (job, heap)
    = Err e →
    ∃ r, r ∈ runs0 ∧ len (Cpus cfg) < rCores (default_cores r) ∧
         e = ErrTooManyCores (rName r) (rCores (default_cores r)) (len (Cpus cfg)).
Proof.
  induction ts as [|t ts IH]; intros job heap Hruns; simpl; [done|].
  destruct (check_runs cfg (jRuns job)) as [r|e'| |] eqn:Hc; simpl; try done.
  - apply check_runs_accepts in Hc as [Hfit ->]. apply IH. simpl. right.
    destruct Hruns as [->| ->]; [done | apply default_cores_twice].
  - intros [= ->]. apply check_runs_refuses in Hc as (r & Hin & Hbig & ->).
    assert (Hlen : 0 ≤ len (Cpus cfg)) by (unfold len; lia).
    destruct Hruns as [Hr|Hr]; rewrite Hr in Hin.
    + exists r. unfold default_cores.
      destruct (Z.eqb_spec (rCores r) 0) as [?|_]; [lia | done].
    + apply list_elem_of_fmap in Hin as (r0 & -> & Hin). exists r0. split; [done|].
      split; [done|]. f_equal. unfold default_cores. by destruct (rCores r0 =? 0).
Qed.

Lemma NewJob_accepts (fuel : nat) (job : Job) (cfg : RuntimeConfig)
    (w : Job * list Task * gmap Z (option ActiveTaskRun)) :
  NewJob fuel job cfg = Ok w →
  ∃ ts, tasks fuel job = Ok ts ∧
    w = (set_job job (match ts with [] => jRuns job | _ => default_cores <$> jRuns job end)
           (seq 0 (length ts)) (ScheduleGrace cfg),
         (fun t => Init t (default_cores <$> jRuns job)) <$> ts,
         NewCoreMap (Cpus cfg)) ∧
    (ts ≠ [] → Forall (fits cfg) (jRuns job)).
Proof.
  unfold NewJob. destruct (tasks fuel job) as [ts| | |]; simpl; try done.
  destruct (range_loop _ ts _) as [[job' heap']| | |] eqn:Hloop; simpl; try done.
  intros [= <-]. exists ts. split; [done|].
  apply (load_loop_accepts cfg (jRuns job)) in Hloop as (-> & -> & Hfit); [|by left].
  done.
Qed.

(** X9: after a load on a pool that is not empty, the wait list holds
    every task of the expansion once, in the order of the expansion, each
    task waits with the complete list of the stages of the job, and every
    stage asks for a number of cores that is not zero and not more than
    the pool has. *)
Theorem NewJob_loaded (fuel : nat) (job : Job) (cfg : RuntimeConfig)
    (w : Job * list Task * gmap Z (option ActiveTaskRun)) :
  NewJob fuel job cfg = Ok w → 0 < len (Cpus cfg) →
  ∃ ts, tasks fuel job = Ok ts ∧
    jwaitList w.1.1 = seq 0 (length ts) ∧
    Forall2 (fun t t' => tParams t' = tParams t ∧ truns t' = Some (jRuns w.1.1) ∧
                         Forall (fun r => rCores r ≠ 0 ∧ fits cfg r) (jRuns w.1.1))
      ts w.1.2.
Proof.
  intros H Hpool. apply NewJob_accepts in H as (ts & Hts & -> & Hfit).
  exists ts. split; [done|]. split; [done|]. simpl.
  destruct ts as [|t ts]; [constructor|].
  specialize (Hfit ltac:(done)).
  apply Forall2_fmap_r, Forall_Forall2_diag, Forall_forall. intros t' _.
  split; [done|]. split; [apply Init_runs|]. by apply default_cores_fits.
Qed.

Lemma NewJob_loaded_witness :
  ∃ ts, tasks 2 job_one = Ok ts ∧
    jwaitList (set_job job_one [stage "s1" 1] [0%nat] 0) = seq 0 (length ts) ∧
    Forall2 (fun t t' => tParams t' = tParams t ∧ truns t' = Some [stage "s1" 1] ∧
                         Forall (fun r => rCores r ≠ 0 ∧ fits two_cpus r) [stage "s1" 1])
      ts [Init (newTask job_one [mkTaskParam (with_only "x" "string" ["a"]) "a"])
            [stage "s1" 1]].
Proof.
  apply (NewJob_loaded 2 job_one two_cpus
           (set_job job_one [stage "s1" 1] [0%nat] 0,
            [Init (newTask job_one [mkTaskParam (with_only "x" "string" ["a"]) "a"])
               [stage "s1" 1]],
            NewCoreMap [0; 1])); reflexivity.
Defined.

(** X10: the only errors of a load are those of the expansion and the one
    that names a stage of the document which asks for more cores than the
    pool has, where a stage that asks for none counts as asking for
    one. *)
Theorem NewJob_refuses (fuel : nat) (job : Job) (cfg : RuntimeConfig) (e : error) :
  NewJob fuel job cfg = Err e →
  tasks fuel job = Err e ∨
  ∃ r, r ∈ jRuns job ∧ len (Cpus cfg) < rCores (default_cores r) ∧
       e = ErrTooManyCores (rName r) (rCores (default_cores r)) (len (Cpus cfg)).
Proof.
  unfold NewJob. destruct (tasks fuel job) as [ts|e'| |]; simpl; try done.
  - destruct (range_loop _ ts _) as [[job' heap']|e'| |] eqn:Hloop; simpl; try done.
    intros [= ->]. right.
    apply (load_loop_refuses cfg (jRuns job)) in Hloop; [done | by left].
  - intros [= ->]. by left.
Qed.

Lemma NewJob_refuses_witness :
  tasks 2 job_three = Err (ErrTooManyCores "s3" 3 2) ∨
  ∃ r, r ∈ jRuns job_three ∧ len (Cpus two_cpus) < rCores (default_cores r) ∧
       ErrTooManyCores "s3" 3 2
       = ErrTooManyCores (rName r) (rCores (default_cores r)) (len (Cpus two_cpus)).
Proof. apply (NewJob_refuses 2 job_three two_cpus). reflexivity. Defined.

(** ** The identifier of a task, once more *)

Lemma UUID_length (t : Task) : tuuid t = "" → String.length (UUID t).1 = 32%nat.
Proof. intros H. rewrite (UUID_fresh t H). apply uuid_of_shape. Qed.

Lemma append_length (s1 s2 : string) :
  String.length (s1 +:+ s2) = (String.length s1 + String.length s2)%nat.
Proof. induction s1 as [|c s1 IH]; simpl; [done | by rewrite IH]. Qed.

(** X11: [UUID] computes the identifier of a task once: it stores what it
    returns, a second call returns the same and changes nothing, and a
    task that has an identifier keeps it whatever its parameters are;
    the call leaves the parameters and the run queue as they are. *)
Theorem UUID_cached (t : Task) :
  UUID (UUID t).2 = UUID t ∧
  tuuid (UUID t).2 = (UUID t).1 ∧
  tParams (UUID t).2 = tParams t ∧ truns (UUID t).2 = truns t ∧
  (tuuid t ≠ "" → UUID t = (tuuid t, t)).
Proof.
  destruct (decide (tuuid t = "")) as [He|Hne].
  - pose proof (UUID_length t He) as Hl.
    assert (Hu : ∃ u, UUID t = (u, {| tParams := tParams t; tInputs := tInputs t;
                                      tOutputs := tOutputs t; truns := truns t;
                                      tuuid := u |})).
    { unfold UUID. rewrite He. simpl. eauto. }
    destruct Hu as [u Hu]. rewrite Hu in *. simpl in Hl. simpl.
    split_and!; try done.
    unfold UUID. simpl. unfold slen. by rewrite Hl.
  - assert (H : UUID t = (tuuid t, t)).
    { unfold UUID. destruct (tuuid t) as [|c s]; [done|].
      unfold slen. simpl. by destruct (Z.eqb_spec (Z.pos (Pos.of_succ_nat (String.length s))) 0). }
    rewrite H. simpl. rewrite H. done.
Qed.

(** X12: the identifier does not tell where a name ends and a value
    begins: a parameter [n=v] of value [w] and a parameter [n] of value
    [v=w] give the same identifier, whatever the other parameters are. *)
Theorem UUID_ambiguous (t1 t2 : Task) (before after : list TaskParam)
    (n v w ty1 ty2 : string) :
  tuuid t1 = "" → tuuid t2 = "" →
  tParams t1
  = before ++ {| tpName := n +:+ "=" +:+ v; tpType := ty1; tpValue := w |} :: after →
  tParams t2
  = before ++ {| tpName := n; tpType := ty2; tpValue := v +:+ "=" +:+ w |} :: after →
  (UUID t1).1 = (UUID t2).1 ∧ name_values t1 ≠ name_values t2.
Proof.
  intros H1 H2 Hp1 Hp2. split.
  - rewrite (UUID_fresh t1 H1), (UUID_fresh t2 H2). unfold uuid_of, name_values.
    rewrite Hp1, Hp2. rewrite !fmap_app, !foldr_app. simpl.
    by rewrite !append_assoc.
  - unfold name_values. rewrite Hp1, Hp2, !fmap_app. simpl.
    intros H. apply app_inv_head in H. injection H as H _.
    apply (f_equal String.length) in H. rewrite !append_length in H. simpl in H. lia.
Qed.

Lemma UUID_ambiguous_witness :
  (UUID task_ab_c).1 = (UUID task_a_bc).1 ∧ name_values task_ab_c ≠ name_values task_a_bc.
Proof.
  apply (UUID_ambiguous task_ab_c task_a_bc [] [] "a" "b" "c" "string" "string");
    reflexivity.
Defined.

(** ** The scheduler never stops on a panic *)

Lemma queued_insert (h : list Task) (i task : nat) (t' : Task) (q' : Queue) :
  truns t' = Some q' → queued h task → queued (<[i := t']> h) task.
Proof.
  intros Hq (t & q & Ht & Htq). destruct (decide (i = task)) as [->|Hne].
  - exists t', q'. split; [|done]. apply list_lookup_insert_eq. by apply lookup_lt_Some in Ht.
  - exists t, q. by rewrite list_lookup_insert_ne.
Qed.

Lemma UUID_runs (t : Task) : truns (UUID t).2 = truns t.
Proof. unfold UUID. by destruct (slen (tuuid t) =? 0). Qed.

Lemma callUUID_queued (h h' : list Task) (i : nat) (u : string) :
  callUUID h i = Some (u, h') → ∀ task, queued h task → queued h' task.
Proof.
  unfold callUUID. destruct (h !! i) as [t|] eqn:Et; simpl; [|done].
  intros [= _ <-] task Hq. destruct (decide (i = task)) as [->|Hne].
  - destruct Hq as (t0 & q & Ht0 & Hq). simplify_eq.
    apply (queued_insert _ _ _ _ q); [by rewrite UUID_runs | by exists t, q].
  - destruct Hq as (t0 & q & Ht0 & Hq). exists t0, q. by rewrite list_lookup_insert_ne.
Qed.

Lemma callUUID_some (h : list Task) (i : nat) :
  queued h i → ∃ u h', callUUID h i = Some (u, h').
Proof. intros (t & q & Ht & _). unfold callUUID. rewrite Ht. simpl. eauto. Qed.

Lemma excluded_queued (all : list (option ActiveTaskRun)) (task : nat) :
  ∀ (h h' : list Task) (b : bool),
    excluded all task h = Some (b, h') → ∀ x, queued h x → queued h' x.
Proof.
  induction all as [|[atr|] all IH]; intros h h' b; simpl.
  - by intros [= _ <-].
  - destruct (callUUID h (aTask atr)) as [[u1 h1]|] eqn:E1; simpl; [|done].
    destruct (callUUID h1 task) as [[u2 h2]|] eqn:E2; simpl; [|done].
    destruct (String.eqb u1 u2).
    + intros [= _ <-] x Hx.
      by apply (callUUID_queued _ _ _ _ E2), (callUUID_queued _ _ _ _ E1).
    + intros H x Hx. apply (IH _ _ _ H).
      by apply (callUUID_queued _ _ _ _ E2), (callUUID_queued _ _ _ _ E1).
  - apply IH.
Qed.

Lemma excluded_some (all : list (option ActiveTaskRun)) (task : nat) :
  ∀ h : list Task,
    (∀ a, Some a ∈ all → queued h (aTask a)) → queued h task →
    ∃ b h', excluded all task h = Some (b, h').
Proof.
  induction all as [|[atr|] all IH]; intros h Hall Htask; simpl.
  - eauto.
  - destruct (callUUID_some h (aTask atr)) as (u1 & h1 & E1);
      [apply Hall, list_elem_of_here|].
    rewrite E1. simpl.
    destruct (callUUID_some h1 task) as (u2 & h2 & E2);
      [by apply (callUUID_queued _ _ _ _ E1)|].
    rewrite E2. simpl. destruct (String.eqb u1 u2); [eauto|].
    apply IH.
    + intros a Ha. apply (callUUID_queued _ _ _ _ E2), (callUUID_queued _ _ _ _ E1).
      by apply Hall, list_elem_of_further.
    + by apply (callUUID_queued _ _ _ _ E2), (callUUID_queued _ _ _ _ E1).
  - apply IH; [|done]. intros a Ha. by apply Hall, list_elem_of_further.
Qed.

Lemma FreeCores_vacant (m : gmap Z (option ActiveTaskRun)) : vacant m (FreeCores m).
Proof.
  unfold vacant, FreeCores. split.
  - pose proof (NoDup_fst_map_to_list m) as Hnd. revert Hnd.
    generalize (map_to_list m). intros l.
    induction l as [|[c [a|]] l IH]; simpl; [done| |].
    + intros Hnd. apply NoDup_cons in Hnd as [_ Hnd]. by apply IH.
    + intros Hnd. apply NoDup_cons in Hnd as [Hc Hnd]. apply NoDup_cons. split; [|by apply IH].
      intros Hin. apply Hc. apply list_elem_of_omap in Hin as ([c' v] & Hin & Hv).
      apply list_elem_of_fmap. exists (c', v). destruct v; [done|]. injection Hv as <-. done.
  - intros c Hin. apply list_elem_of_omap in Hin as ([c' v] & Hin & Hv).
    destruct v; [done|]. injection Hv as <-. by apply elem_of_map_to_list in Hin.
Qed.

Lemma last_snoc_inv {A : Type} (l : list A) (x : A) :
  last l = Some x → l = removelast l ++ [x].
Proof.
  intros H. destruct l as [|y l] using rev_ind; [done|].
  rewrite last_snoc in H. injection H as ->. by rewrite removelast_last.
Qed.

Lemma select_cores_perm (n : nat) :
  ∀ (freeCores cores r1 r2 : list Z),
    select_cores n freeCores cores = Some (r1, r2) → r1 ++ r2 ≡ₚ cores ++ freeCores.
Proof.
  induction n as [|n IH]; intros fc cores r1 r2; simpl.
  - by intros [= <- <-].
  - destruct (last fc) as [c|] eqn:El; simpl; [|done]. intros H.
    apply IH in H. rewrite H. rewrite (last_snoc_inv fc c El) at 2.
    rewrite <- !app_assoc. apply Permutation_app_head, Permutation_app_comm.
Qed.

Lemma select_cores_some (n : nat) :
  ∀ (freeCores cores : list Z),
    (n ≤ length freeCores)%nat → ∃ r, select_cores n freeCores cores = Some r.
Proof.
  induction n as [|n IH]; intros fc cores Hn; simpl; [eauto|].
  destruct fc as [|c fc] using rev_ind; [simpl in Hn; lia|].
  rewrite last_snoc. simpl. rewrite removelast_last. apply IH.
  rewrite length_app in Hn. simpl in Hn. lia.
Qed.

Lemma select_cores_vacant (m : gmap Z (option ActiveTaskRun)) (n : nat)
    (freeCores cores rest : list Z) :
  vacant m freeCores → select_cores n freeCores [] = Some (cores, rest) → vacant m cores.
Proof.
  intros [Hnd Hv] H. apply select_cores_perm in H. simpl in H.
  rewrite <- H in Hnd. apply NoDup_app in Hnd as (Hnd & _ & _).
  split; [done|]. intros c Hc. apply Hv. rewrite <- H. apply elem_of_app. by left.
Qed.

Lemma Unset_vacant (m : gmap Z (option ActiveTaskRun)) (c c' : Z) :
  m !! c' = Some None → Unset_ m c !! c' = Some None.
Proof.
  intros H. unfold Unset_. destruct (m !! c) eqn:E; [|done].
  rewrite lookup_insert. by case_decide.
Qed.

Lemma index_last {A : Type} (l : list A) (x : A) :
  index (l ++ [x]) (len (l ++ [x]) - 1) = Some x ∧
  take (Z.to_nat (len (l ++ [x]) - 1)) (l ++ [x]) = l.
Proof.
  unfold index, len. rewrite length_app. simpl.
  replace (Z.to_nat (Z.of_nat (length l + 1) - 1)) with (length l) by lia.
  destruct (Z.ltb_spec (Z.of_nat (length l + 1) - 1) 0) as [?|_]; [lia|].
  split.
  - rewrite lookup_app_r by lia. by rewrite Nat.sub_diag.
  - by rewrite take_app_length.
Qed.

Lemma Get_elem (l : list nat) (i : Z) (task : nat) : Get l i = Some task → task ∈ l.
Proof. unfold Get. destruct (i <? 0); [done|]. apply list_elem_of_lookup_2. Qed.

Lemma Remove_elem (l : list nat) (i : Z) (task : nat) : task ∈ Remove l i → task ∈ l.
Proof.
  unfold Remove. destruct (i <? 0); [done|]. intros H.
  apply (elem_of_sublist _ _ _ H), sublist_delete.
Qed.

Lemma driver_step_sound (newErr : bool) (s s' : State) :
  sound s → driver_step newErr s = Some s' → sound s'.
Proof.
  intros (Hw & Hs & Hm & Hd) Hstep. unfold driver_step, panic in Hstep.
  unfold driver_sound in Hd. destruct (drv s) eqn:Ed.
  - (* the head of the loop *)
    destruct (0 <? len (jwaitList (job s))).
    + destruct (len (FreeCores (tasksInFlight s)) =? 0).
      { simplify_eq. unfold sound, driver_sound. by rewrite Ed. }
      destruct (Get (jwaitList (job s)) (cursor s)) as [task|] eqn:Eg; simplify_eq.
      * unfold sound, driver_sound. simpl. split_and!; try done.
        -- by apply Hw, (Get_elem _ (cursor s)).
        -- apply FreeCores_vacant.
      * unfold sound, driver_sound. simpl. by rewrite Ed.
    + simplify_eq. by unfold sound, driver_sound.
  - (* Peak *)
    destruct Hd as [Hq Hv]. pose proof Hq as (t & q & Ht & Htq).
    rewrite Ht in Hstep. simpl in Hstep. rewrite Htq in Hstep.
    destruct (Peak q) as [nextRun|]; [|simplify_eq; by unfold sound, driver_sound].
    destruct (Z.leb_spec (rCores nextRun) (len freeCores)); simplify_eq;
      by unfold sound, driver_sound.
  - (* the exclusion test *)
    destruct Hd as (Hq & Hv & Hfit).
    destruct (excluded_some (All (tasksInFlight s)) task (heap s)) as (b & h & Ex); [|done|].
    { intros a Ha. unfold All in Ha. apply list_elem_of_fmap in Ha as ([c v] & Hv' & Hin).
      simpl in Hv'. subst v. apply elem_of_map_to_list in Hin. by apply (Hm c). }
    rewrite Ex in Hstep. pose proof (excluded_queued _ _ _ _ _ Ex) as Hh.
    destruct b; simplify_eq; unfold sound, driver_sound; simpl; split_and!; eauto.
  - (* NewActiveTaskRun and Dequeue *)
    destruct Hd as (Hq & Hv & Hfit).
    destruct (select_cores_some (Z.to_nat (rCores nextRun)) freeCores [])
      as [[cores rest] Hsel]; [unfold len in Hfit; lia|].
    rewrite Hsel in Hstep. pose proof (select_cores_vacant _ _ _ _ _ Hv Hsel) as Hc.
    pose proof Hq as (t & q & Ht & Htq).
    unfold NewActiveTaskRun in Hstep. destruct newErr.
    + rewrite Ht in Hstep. simpl in Hstep. unfold Cancel in Hstep. rewrite Htq in Hstep.
      simpl in Hstep. simplify_eq.
      match goal with
      | |- sound (set_drv (set_heap _ ?h) _) =>
          assert (Hh : ∀ x, queued (heap s) x → queued h x)
            by (intros x; by apply (queued_insert _ _ _ _ (Clear q)))
      end.
      unfold sound, driver_sound; simpl; split_and!; eauto.
    + destruct (callUUID_some _ _ Hq) as (u & h & Eu). rewrite Eu in Hstep.
      pose proof (callUUID_queued _ _ _ _ Eu) as Hh.
      destruct (Hh _ Hq) as (t1 & q1 & Ht1 & Htq1).
      rewrite Ht1, Htq1 in Hstep. simplify_eq.
      match goal with
      | |- sound (set_drv (set_heap _ ?h') _) =>
          assert (Hh' : ∀ x, queued (heap s) x → queued h' x)
            by (intros x Hx; by apply (queued_insert _ _ _ _ (Dequeue q1).2), Hh)
      end.
      unfold sound, driver_sound; simpl; split_and!; eauto.
  - (* the loop that sets the cores *)
    destruct Hd as (Hq & Hqa & [Hnd Hv] & ->).
    destruct cores as [|c cores _] using rev_ind.
    + simpl in Hstep. simplify_eq. unfold sound, driver_sound; simpl; split_and!; eauto.
      intros a pc Hin. apply elem_of_app in Hin as [Hin|Hin]; [by apply (Hs a pc)|].
      by apply list_elem_of_singleton in Hin as [= -> _].
    + destruct (index_last cores c) as [Hi Ht].
      replace (0 <? len (cores ++ [c])) with true in Hstep
        by (symmetry; apply Z.ltb_lt; unfold len; rewrite length_app; simpl; lia).
      rewrite Hi, Ht in Hstep. unfold Set_ in Hstep.
      rewrite (Hv c) in Hstep by (apply elem_of_app; right; apply list_elem_of_here).
      simplify_eq. apply NoDup_app in Hnd as (Hnd & Hne & _).
      unfold sound, driver_sound; simpl; split_and!; eauto.
      * intros c' a. rewrite lookup_insert. case_decide; [by intros [= <-]|]. apply Hm.
      * split; [done|]. intros c' Hc'. rewrite lookup_insert. case_decide as Hcc.
        -- subst c'. exfalso. apply (Hne c Hc'). apply list_elem_of_here.
        -- apply Hv. apply elem_of_app. by left.
  - (* the label iterator *)
    pose proof Hd as (t & q & Ht & Htq).
    rewrite Ht in Hstep. simpl in Hstep. rewrite Htq in Hstep.
    destruct (QLen q =? 0); simplify_eq; unfold sound, driver_sound; simpl; split_and!; eauto.
    intros task' Hin. by apply Hw, (Remove_elem _ (cursor s)).
  - (* wg.Wait() *)
    destruct (wg s =? 0); simplify_eq. by unfold sound, driver_sound.
  - done.
  - done.
Qed.

Lemma super_step_sound (k : nat) (returnCode : Z) (startErr : bool) (s s' : State) :
  sound s → super_step k returnCode startErr s = Some s' → sound s'.
Proof.
  intros (Hw & Hs & Hm & Hd). unfold super_step, panic.
  destruct (sups s !! k) as [[atr pc]|] eqn:Ek; simpl; [|done].
  assert (Hin : ∀ pc' a pc0, (a, pc0) ∈ <[k := (atr, pc')]> (sups s) →
                  ∃ pc1, (a, pc1) ∈ sups s).
  { intros pc' a pc0 H. apply list_elem_of_lookup in H as [i H].
    destruct (decide (i = k)) as [->|Hne].
    - rewrite list_lookup_insert_eq in H by (by apply lookup_lt_Some in Ek).
      injection H as <- _. exists pc. by apply list_elem_of_lookup_2 in Ek.
    - rewrite list_lookup_insert_ne in H by done. exists pc0.
      by apply list_elem_of_lookup_2 in H. }
  assert (Hatr : queued (heap s) (aTask atr)).
  { apply (Hs atr pc). by apply list_elem_of_lookup_2 in Ek. }
  assert (Hsame : ∀ pc', sound (set_sups s (<[k := (atr, pc')]> (sups s)) (wg s))).
  { intros pc'. unfold sound, driver_sound in *. simpl. split_and!; try done.
    intros a pc0 H. apply Hin in H as [pc1 H]. by apply (Hs a pc1). }
  destruct pc as [| |[|coreId rest]].
  - destruct (startErr || negb (returnCode =? 0)); [|intros [= <-]; apply Hsame].
    pose proof Hatr as (t & q & Ht & Htq). rewrite Ht. simpl. unfold Cancel. rewrite Htq.
    simpl. intros [= <-].
    match goal with
    | |- sound (set_sups (set_heap _ ?h) _ _) =>
        assert (Hh : ∀ x, queued (heap s) x → queued h x)
          by (intros x; by apply (queued_insert _ _ _ _ (Clear q)))
    end.
    unfold sound, driver_sound in *. simpl. split_and!; eauto.
    + intros a pc0 H. apply Hin in H as [pc1 H]. by apply Hh, (Hs a pc1).
    + destruct (drv s); try done; destruct_and?; split_and?; eauto.
  - intros [= <-]. unfold sound, driver_sound in *. simpl. split_and!; try done.
    intros a pc0 H. apply Hin in H as [pc1 H]. by apply (Hs a pc1).
  - done.
  - intros [= <-]. unfold sound, driver_sound in *. simpl. split_and!; try done.
    + intros a pc0 H. apply Hin in H as [pc1 H]. by apply (Hs a pc1).
    + intros c a H. apply Unset_entries in H. by apply (Hm c).
    + assert (Hv : ∀ l, vacant (tasksInFlight s) l →
                     vacant (Unset_ (tasksInFlight s) coreId) l).
      { intros l [Hnd Hv]. split; [done|]. intros c Hc. by apply Unset_vacant, Hv. }
      destruct (drv s); try done; destruct_and?; split_and?; eauto.
Qed.

Lemma step_sound (l : label) (s s' : State) : sound s → step l s = Some s' → sound s'.
Proof.
  intros Hs. unfold step. destruct (drv s) eqn:Ed; try done; destruct l;
    solve [by apply driver_step_sound | by apply super_step_sound].
Qed.

Lemma exec_sound (ls : list label) :
  ∀ s s' : State, sound s → exec ls s = Some s' → sound s'.
Proof.
  induction ls as [|l ls IH]; intros s s' Hs; simpl.
  - by intros [= <-].
  - destruct (step l s) as [s1|] eqn:E; simpl; [|done].
    apply IH. by apply (step_sound l s).
Qed.

Lemma start_sound (fuel : nat) (job : Job) (cfg : RuntimeConfig)
    (w : Job * list Task * gmap Z (option ActiveTaskRun)) :
  NewJob fuel job cfg = Ok w → sound (start w).
Proof.
  intros H. apply NewJob_accepts in H as (ts & _ & -> & _).
  unfold sound, driver_sound. simpl. split_and!; try done.
  - intros task Hin. apply elem_of_seq in Hin as [_ Hin]. simpl in Hin.
    destruct (lookup_lt_is_Some_2 ts task Hin) as [t Ht].
    eexists _, _. rewrite list_lookup_fmap, Ht. simpl. split; [done|]. apply Init_runs.
  - intros a pc Hin. by apply not_elem_of_nil in Hin.
  - intros c a Hc. by apply NewCoreMap_vacant in Hc.
Qed.

(** X13: the scheduler of a loaded job never stops on a run-time panic:
    it reads no task without a run queue and no core beyond the ones it
    has; and every core it selects for a run is still vacant when it sets
    it, so that a pass of the loop over the cores never fails and the
    offset [j] stays [1]. *)
Theorem Start_never_panics (fuel : nat) (job : Job) (cfg : RuntimeConfig)
    (w : Job * list Task * gmap Z (option ActiveTaskRun)) (ls : list label) (s : State) :
  NewJob fuel job cfg = Ok w → exec ls (start w) = Some s →
  drv s ≠ DPanic ∧
  ∀ task atr cores j, drv s = DSet task atr cores j →
    j = 1 ∧ ∀ c, last cores = Some c → ∃ m, Set_ (tasksInFlight s) c atr = Some m.
Proof.
  intros Hload Hexec.
  pose proof (exec_sound ls _ _ (start_sound _ _ _ _ Hload) Hexec) as (_ & _ & _ & Hd).
  unfold driver_sound in Hd. split.
  - intros Hp. by rewrite Hp in Hd.
  - intros task atr cores j Hset. rewrite Hset in Hd. destruct Hd as (_ & _ & [_ Hv] & ->).
    split; [done|]. intros c Hc. unfold Set_. rewrite (Hv c); [eauto|].
    rewrite (last_snoc_inv _ _ Hc). apply elem_of_app. right. apply list_elem_of_here.
Qed.

Lemma Start_never_panics_witness :
  ∃ s : State,
    exec trace_select (start loaded_single) = Some s ∧
    drv s ≠ DPanic ∧
    ∀ task atr cores j, drv s = DSet task atr cores j →
      j = 1 ∧ ∀ c, last cores = Some c → ∃ m, Set_ (tasksInFlight s) c atr = Some m.
Proof.
  eexists. split; [vm_compute; reflexivity|].
  apply (Start_never_panics 2 job_single one_cpu loaded_single trace_select);
    vm_compute; reflexivity.
Defined.

(** ** The wait group *)

Lemma outstanding_app (l1 l2 : list (ActiveTaskRun * super)) :
  outstanding (l1 ++ l2) = outstanding l1 + outstanding l2.
Proof. induction l1 as [|[a pc] l1 IH]; simpl; [done|]. rewrite IH. lia. Qed.

Lemma outstanding_insert (l : list (ActiveTaskRun * super)) :
  ∀ (k : nat) (a a' : ActiveTaskRun) (pc pc' : super),
    l !! k = Some (a, pc) →
    outstanding (<[k := (a', pc')]> l)
    = outstanding l - (if waiting pc then 1 else 0) + (if waiting pc' then 1 else 0).
Proof.
  induction l as [|[a0 pc0] l IH]; intros k a a' pc pc'; [done|].
  destruct k as [|k]; simpl.
  - intros [= -> ->]. lia.
  - intros H. rewrite (IH k a a' pc pc' H). lia.
Qed.

Lemma outstanding_bound (l : list (ActiveTaskRun * super)) :
  0 ≤ outstanding l ∧
  ∀ a pc, (a, pc) ∈ l → waiting pc = true → 1 ≤ outstanding l.
Proof.
  induction l as [|[a0 pc0] l [IH1 IH2]]; simpl.
  - split; [done|]. intros a pc H. by apply not_elem_of_nil in H.
  - split; [destruct (waiting pc0); lia|]. intros a pc H Hw.
    apply elem_of_cons in H as [[= <- <-]|H].
    + rewrite Hw. lia.
    + specialize (IH2 a pc H Hw). destruct (waiting pc0); lia.
Qed.

Lemma driver_step_drained (newErr : bool) (s s' : State) :
  drained s → driver_step newErr s = Some s' → drained s'.
Proof.
  intros (Hwg & Hw & Hd) Hstep. unfold driver_step, panic in Hstep.
  destruct (drv s) eqn:Ed.
  - destruct (Z.ltb_spec 0 (len (jwaitList (job s)))) as [Hl|Hl].
    + repeat case_match; simplify_eq; unfold drained; simpl; rewrite ?Ed;
        split_and!; try done; by intros [|].
    + simplify_eq. unfold drained. simpl. split_and!; try done.
      intros _. apply nil_length_inv. unfold len in Hl. lia.
  - repeat case_match; simplify_eq; unfold drained; simpl; split_and!; try done;
      by intros [|].
  - repeat case_match; simplify_eq; unfold drained; simpl; split_and!; try done;
      by intros [|].
  - unfold NewActiveTaskRun in Hstep.
    repeat case_match; simplify_eq; unfold drained; simpl; split_and!; try done;
      by intros [|].
  - repeat case_match; simplify_eq; unfold drained; simpl; split_and!; try done;
      try (by intros [|]).
    rewrite outstanding_app. simpl. lia.
  - repeat case_match; simplify_eq; unfold drained; simpl; split_and!; try done;
      by intros [|].
  - destruct (Z.eqb_spec (wg s) 0); simplify_eq. unfold drained. simpl.
    split_and!; try done. intros _. apply Hw. by left.
  - done.
  - done.
Qed.

Lemma super_step_drained (k : nat) (returnCode : Z) (startErr : bool) (s s' : State) :
  drained s → super_step k returnCode startErr s = Some s' → drained s'.
Proof.
  intros (Hwg & Hw & Hd). unfold super_step, panic.
  destruct (sups s !! k) as [[atr pc]|] eqn:Ek; simpl; [|done].
  pose proof (outstanding_bound (sups s)) as [_ Hb].
  pose proof (list_elem_of_lookup_2 _ _ _ Ek) as Hin.
  destruct pc as [| |[|coreId rest]].
  - specialize (Hb _ _ Hin eq_refl).
    repeat case_match; intros [= <-]; unfold drained; simpl; split_and!; try done;
      try (by intros [|]); try (intros He; specialize (Hd He); lia);
      rewrite (outstanding_insert _ _ _ _ _ _ Ek); simpl; lia.
  - specialize (Hb _ _ Hin eq_refl).
    intros [= <-]. unfold drained. simpl. split_and!; try done.
    + rewrite (outstanding_insert _ _ _ _ _ _ Ek). simpl. lia.
    + intros He. specialize (Hd He). lia.
  - done.
  - intros [= <-]. unfold drained. simpl. split_and!; try done.
    rewrite (outstanding_insert _ _ _ _ _ _ Ek). simpl. lia.
Qed.

Lemma exec_drained (ls : list label) :
  ∀ s s' : State, drained s → exec ls s = Some s' → drained s'.
Proof.
  induction ls as [|l ls IH]; intros s s' Hs; simpl.
  - by intros [= <-].
  - destruct (step l s) as [s1|] eqn:E; simpl; [|done].
    apply IH. revert E. unfold step. destruct (drv s) eqn:Ed; try done; destruct l;
      solve [by apply driver_step_drained | by apply super_step_drained].
Qed.

(** X14: the counter of the wait group is the number of the supervisors
    that have not called [wg.Done()], so it is never negative; and
    [Start] returns only with the wait list empty and every supervisor it
    started past [wg.Done()]. *)
Theorem Start_returns_drained
    (w : Job * list Task * gmap Z (option ActiveTaskRun)) (ls : list label) (s : State) :
  exec ls (start w) = Some s →
  wg s = outstanding (sups s) ∧ 0 ≤ wg s ∧
  (drv s = DDone →
   jwaitList (job s) = [] ∧ ∀ a pc, (a, pc) ∈ sups s → waiting pc = false).
Proof.
  intros Hexec.
  assert (H0 : drained (start w)) by (unfold drained; simpl; split_and!; by try intros [|]).
  pose proof (exec_drained ls _ _ H0 Hexec) as (Hwg & Hw & Hd).
  pose proof (outstanding_bound (sups s)) as [Hb1 Hb2].
  split; [done|]. split; [lia|]. intros He. split; [apply Hw; by right|].
  intros a pc Hin. specialize (Hd He). destruct (waiting pc) eqn:E; [|done].
  specialize (Hb2 a pc Hin E). lia.
Qed.

Lemma Start_returns_drained_witness :
  ∃ s : State,
    exec trace_whole (start loaded_single) = Some s ∧
    wg s = outstanding (sups s) ∧ 0 ≤ wg s ∧
    (drv s = DDone →
     jwaitList (job s) = [] ∧ ∀ a pc, (a, pc) ∈ sups s → waiting pc = false).
Proof.
  eexists. split; [vm_compute; reflexivity|].
  apply (Start_returns_drained loaded_single trace_whole). vm_compute. reflexivity.
Defined.

(** ** The wait list and its cursor *)

Lemma driver_step_at_cursor (newErr : bool) (s s' : State) :
  at_cursor s → driver_step newErr s = Some s' → at_cursor s'.
Proof.
  intros [Hc Hd] Hstep. unfold driver_step, panic, NewActiveTaskRun in Hstep.
  destruct (drv s) eqn:Ed.
  - unfold Get in Hstep. destruct (Z.ltb_spec (cursor s) 0) as [?|_]; [lia|].
    repeat case_match; simplify_eq; unfold at_cursor; simpl; rewrite ?Ed; done.
  - repeat case_match; simplify_eq; unfold at_cursor; simpl; done.
  - repeat case_match; simplify_eq; unfold at_cursor; simpl; done.
  - repeat case_match; simplify_eq; unfold at_cursor; simpl; done.
  - repeat case_match; simplify_eq; unfold at_cursor; simpl; done.
  - destruct (heap s !! task ≫= truns) as [q|]; simplify_eq; [|by unfold at_cursor].
    destruct (QLen q =? 0); simpl in Hstep; simplify_eq; unfold at_cursor; simpl;
      (split; [|done]); case_match; lia.
  - repeat case_match; simplify_eq; unfold at_cursor; simpl; done.
  - done.
  - done.
Qed.

Lemma super_step_at_cursor (k : nat) (returnCode : Z) (startErr : bool) (s s' : State) :
  at_cursor s → super_step k returnCode startErr s = Some s' → at_cursor s'.
Proof.
  intros Hc. unfold super_step, panic.
  destruct (sups s !! k) as [[atr pc]|]; simpl; [|done].
  repeat case_match; intros [= <-]; try done.
  unfold at_cursor in *. simpl. by destruct Hc.
Qed.

Lemma exec_at_cursor (ls : list label) :
  ∀ s s' : State, at_cursor s → exec ls s = Some s' → at_cursor s'.
Proof.
  induction ls as [|l ls IH]; intros s s' Hs; simpl.
  - by intros [= <-].
  - destruct (step l s) as [s1|] eqn:E; simpl; [|done].
    apply IH. revert E. unfold step. destruct (drv s) eqn:Ed; try done; destruct l;
      solve [by apply driver_step_at_cursor | by apply super_step_at_cursor].
Qed.

(** The wait list changes in one step only: the driver, at the label
    [iterator], removes the task at the cursor when its queue is empty. *)
Lemma step_waitList (l : label) (s s' : State) :
  at_cursor s → step l s = Some s' →
  jwaitList (job s') = jwaitList (job s) ∨
  ∃ task t, jwaitList (job s) !! Z.to_nat (cursor s) = Some task ∧
            heap s !! task = Some t ∧ truns t = Some [] ∧
            jwaitList (job s') = delete (Z.to_nat (cursor s)) (jwaitList (job s)).
Proof.
  intros [Hc Hd]. unfold step. destruct l as [newErr|k returnCode startErr].
  - unfold driver_step, panic, NewActiveTaskRun. destruct (drv s) eqn:Ed; try done.
    + repeat case_match; intros; simplify_eq; by left.
    + repeat case_match; intros; simplify_eq; by left.
    + repeat case_match; intros; simplify_eq; by left.
    + repeat case_match; intros; simplify_eq; by left.
    + repeat case_match; intros; simplify_eq; by left.
    + destruct (heap s !! task) as [t|] eqn:Et; simpl; [|intros; simplify_eq; by left].
      destruct (truns t) as [q|] eqn:Eq; [|intros; simplify_eq; by left].
      unfold QLen, len. destruct q as [|r q]; simpl.
      * intros [= <-]. right. exists task, t. simpl. split_and!; try done.
        unfold Remove. by destruct (Z.ltb_spec (cursor s) 0) as [?|_]; [lia|].
      * intros [= <-]. by left.
    + repeat case_match; intros; simplify_eq; by left.
  - destruct (drv s); try done; unfold super_step, panic;
      (destruct (sups s !! k) as [[atr pc]|]; simpl; [|done]);
      repeat case_match; intros; simplify_eq; by left.
Qed.

Lemma delete_missing {A : Type} (l : list A) (i : nat) (x : A) :
  x ∈ l → x ∉ delete i l → l !! i = Some x.
Proof.
  intros Hin Hout. apply list_elem_of_lookup in Hin as [k Hk].
  destruct (lt_eq_lt_dec k i) as [[Hlt| ->]|Hgt]; [|done|].
  - exfalso. apply Hout. apply (list_elem_of_lookup_2 _ k).
    by rewrite list_lookup_delete_lt.
  - exfalso. apply Hout. apply (list_elem_of_lookup_2 _ (k - 1)).
    rewrite list_lookup_delete_ge by lia. by replace (S (k - 1)) with k by lia.
Qed.

(** X15: in every state the scheduler reaches, the cursor into the wait
    list is not negative, and a step adds no task to the wait list and
    removes a task only when the run queue of this task is empty. *)
Theorem wait_list_shrinks
    (w : Job * list Task * gmap Z (option ActiveTaskRun)) (ls : list label) (l : label)
    (s s' : State) :
  exec ls (start w) = Some s → step l s = Some s' →
  0 ≤ cursor s ∧
  (∀ task, task ∈ jwaitList (job s') → task ∈ jwaitList (job s)) ∧
  (∀ task, task ∈ jwaitList (job s) → task ∉ jwaitList (job s') →
     ∃ t, heap s !! task = Some t ∧ truns t = Some []).
Proof.
  intros Hexec Hstep.
  assert (H0 : at_cursor (start w)) by (by unfold at_cursor).
  pose proof (exec_at_cursor ls _ _ H0 Hexec) as Hc.
  split; [by destruct Hc|].
  destruct (step_waitList l s s' Hc Hstep) as [->|(task0 & t & Hk & Ht & Hq & ->)];
    [done|].
  split.
  - intros task Hin. apply (elem_of_sublist _ _ _ Hin), sublist_delete.
  - intros task Hin Hout. exists t.
    pose proof (delete_missing _ _ _ Hin Hout) as Hk'. rewrite Hk in Hk'. by simplify_eq.
Qed.

Lemma wait_list_shrinks_witness :
  ∃ s s' : State,
    exec trace_served (start loaded_single) = Some s ∧ step (Drive false) s = Some s' ∧
    jwaitList (job s) = [0%nat] ∧ jwaitList (job s') = [] ∧
    0 ≤ cursor s ∧
    (∀ task, task ∈ jwaitList (job s') → task ∈ jwaitList (job s)) ∧
    (∀ task, task ∈ jwaitList (job s) → task ∉ jwaitList (job s') →
       ∃ t, heap s !! task = Some t ∧ truns t = Some []).
Proof.
  eexists _, _.
  split; [vm_compute; reflexivity|].
  split; [vm_compute; reflexivity|].
  split; [reflexivity|]. split; [reflexivity|].
  apply (wait_list_shrinks loaded_single trace_served (Drive false));
    vm_compute; reflexivity.
Defined.

(** ** The cores of a run *)

Lemma held_moved (s s' : State) :
  held s → tasksInFlight s' = tasksInFlight s → sups s' = sups s →
  (∀ task atr cores j c, drv s' = DSet task atr cores j → c ∈ cores → c ∈ aCoreIds atr) →
  held s'.
Proof.
  intros (H1 & _ & H3) Hm Hs H2. unfold held. rewrite Hm, Hs. done.
Qed.

Lemma index_elem {A : Type} (l : list A) (i : Z) (x : A) : index l i = Some x → x ∈ l.
Proof. unfold index. destruct (i <? 0); [done|]. apply list_elem_of_lookup_2. Qed.

Lemma driver_step_held (newErr : bool) (s s' : State) :
  scheduler_inv s → held s → driver_step newErr s = Some s' → held s'.
Proof.
  intros (_ & _ & Hr1 & _ & Hr3) Hh Hstep.
  unfold driver_step, panic, NewActiveTaskRun in Hstep.
  destruct (drv s) eqn:Ed.
  - repeat case_match; simplify_eq; try done; by apply (held_moved s).
  - repeat case_match; simplify_eq; by apply (held_moved s).
  - repeat case_match; simplify_eq; by apply (held_moved s).
  - repeat case_match; simplify_eq; apply (held_moved s); try done.
    simpl. by intros ? ? ? ? ? [= _ <- <- _].
  - destruct Hh as (H1 & H2' & H3).
    assert (H2 : ∀ c, c ∈ cores → c ∈ aCoreIds activeTaskRun)
      by (intros c; apply (H2' _ _ _ _ c Ed)).
    specialize (Hr3 _ _ _ _ eq_refl).
    destruct (0 <? len cores).
    + destruct (index cores (len cores - j)) as [coreId|] eqn:Ei; simplify_eq.
      2:{ by apply (held_moved s). }
      apply index_elem in Ei.
      unfold Set_ in Hstep.
      destruct (tasksInFlight s !! coreId) as [[?|]|] eqn:Em; simplify_eq.
      * apply (held_moved s); try done. simpl. intros ? ? ? ? ? [= _ <- <- _]. apply H2.
      * unfold held. simpl. split_and!.
        -- intros c a. rewrite lookup_insert. case_decide as Hc.
           ++ intros [= <-]. subst c. by apply H2.
           ++ apply H1.
        -- intros ? ? ? ? c [= _ <- <- _] Hc. apply H2.
           apply elem_of_take in Hc as (i & Hi & _). by apply list_elem_of_lookup_2 in Hi.
        -- intros k a rest c Hk. rewrite lookup_insert. case_decide as Hc.
           ++ intros [= <-]. pose proof (Hr1 _ _ _ Hk). apply lookup_lt_Some in Hk. lia.
           ++ by apply (H3 k).
      * apply (held_moved s); try done. simpl. intros ? ? ? ? ? [= _ <- <- _]. apply H2.
    + simplify_eq. unfold held. simpl. split_and!; try done.
      intros k a rest c Hk. apply lookup_app_Some in Hk as [Hk|[_ Hk]]; [by apply (H3 k)|].
      by apply list_lookup_singleton_Some in Hk as [_ ?].
  - repeat case_match; simplify_eq; by apply (held_moved s).
  - repeat case_match; simplify_eq; by apply (held_moved s).
  - done.
  - done.
Qed.

Lemma super_step_held (k : nat) (returnCode : Z) (startErr : bool) (s s' : State) :
  held s → super_step k returnCode startErr s = Some s' → held s'.
Proof.
  intros (H1 & H2 & H3). unfold super_step, panic.
  destruct (sups s !! k) as [[atr pc]|] eqn:Ek; simpl; [|done].
  assert (Hins : ∀ pc' k' a rest,
            (∀ l, pc' = SRelease l → ∀ c, tasksInFlight s !! c = Some (Some atr) → c ∈ l) →
            <[k := (atr, pc')]> (sups s) !! k' = Some (a, SRelease rest) →
            ∀ c, tasksInFlight s !! c = Some (Some a) → c ∈ rest).
  { intros pc' k' a rest Hnew. rewrite list_lookup_insert by (by apply lookup_lt_Some in Ek).
    case_decide as Hkk.
    - intros [= <- ->]. by apply Hnew.
    - intros Hk c. by apply (H3 k'). }
  destruct pc as [| |[|coreId rest]].
  - repeat case_match; intros [= <-]; try done; unfold held; simpl; split_and!; try done;
      intros k' a rest c Hk; by apply (Hins SSignal k' a rest).
  - intros [= <-]. unfold held. simpl. split_and!; try done.
    intros k' a rest c Hk. refine (Hins _ k' a rest _ Hk c).
    intros l [= <-] c'. apply H1.
  - done.
  - intros [= <-]. unfold held. simpl. split_and!; try done.
    + intros c a Hc. by apply Unset_entries, H1 in Hc.
    + intros k' a rest' c Hk Hc.
      assert (Hne : tasksInFlight s !! c = Some (Some a) ∧ c ≠ coreId).
      { split; [by apply Unset_entries in Hc|]. intros ->. revert Hc. unfold Unset_.
        destruct (tasksInFlight s !! coreId) eqn:E; [|by rewrite E].
        by rewrite lookup_insert_eq. }
      destruct Hne as [Hc' Hne]. revert Hk.
      rewrite list_lookup_insert by (by apply lookup_lt_Some in Ek). case_decide as Hkk.
      * intros [= <- <-]. specialize (H3 _ _ _ _ Ek Hc').
        apply elem_of_cons in H3 as [?|?]; done.
      * intros Hk. by apply (H3 k' a).
Qed.

Lemma exec_held (ls : list label) :
  ∀ s s' : State, scheduler_inv s → held s → exec ls s = Some s' → held s'.
Proof.
  induction ls as [|l ls IH]; intros s s' Hinv Hh; simpl.
  - by intros [= <-].
  - destruct (step l s) as [s1|] eqn:E; simpl; [|done].
    apply IH; [by apply (step_inv l s)|]. revert E. unfold step.
    destruct (drv s) eqn:Ed; try done; destruct l;
      solve [by apply driver_step_held | by apply super_step_held].
Qed.

(** X16: a core is occupied only by a run it was selected for, and a
    supervisor that has released the cores of its run leaves none of them
    occupied by this run: a run that is over holds no core. *)
Theorem cores_released (fuel : nat) (job : Job) (cfg : RuntimeConfig)
    (w : Job * list Task * gmap Z (option ActiveTaskRun)) (ls : list label) (s : State) :
  NewJob fuel job cfg = Ok w → exec ls (start w) = Some s →
  (∀ c a, tasksInFlight s !! c = Some (Some a) → c ∈ aCoreIds a) ∧
  (∀ k a, sups s !! k = Some (a, SRelease []) →
     ∀ c, tasksInFlight s !! c ≠ Some (Some a)).
Proof.
  intros Hload Hexec.
  assert (Hvac : ∀ c v, w.2 !! c = Some v → v = None).
  { rewrite (NewJob_map _ _ _ _ Hload). apply NewCoreMap_vacant. }
  assert (H0 : held (start w)).
  { unfold held. simpl. split_and!; try done. intros c a Hc. by apply Hvac in Hc. }
  pose proof (exec_held ls _ _ (start_inv w Hvac) H0 Hexec) as (H1 & _ & H3).
  split; [done|]. intros k a Hk c Hc. specialize (H3 _ _ _ _ Hk Hc).
  by apply not_elem_of_nil in H3.
Qed.

Lemma cores_released_witness :
  ∃ s : State,
    exec trace_whole (start loaded_single) = Some s ∧
    (∀ c a, tasksInFlight s !! c = Some (Some a) → c ∈ aCoreIds a) ∧
    (∀ k a, sups s !! k = Some (a, SRelease []) →
       ∀ c, tasksInFlight s !! c ≠ Some (Some a)).
Proof.
  eexists. split; [vm_compute; reflexivity|].
  apply (cores_released 2 job_single one_cpu loaded_single trace_whole);
    vm_compute; reflexivity.
Defined.

(** ** The order of the stages of a task *)

Lemma queue_of_insert_eq (h : list Task) (i : nat) (t' : Task) :
  (i < length h)%nat → queue_of (<[i := t']> h) i = truns t'.
Proof. intros H. unfold queue_of. by rewrite list_lookup_insert_eq. Qed.

Lemma queue_of_insert_ne (h : list Task) (i task : nat) (t' : Task) :
  i ≠ task → queue_of (<[i := t']> h) task = queue_of h task.
Proof. intros H. unfold queue_of. by rewrite list_lookup_insert_ne. Qed.

Lemma queue_of_insert_same (h : list Task) (i task : nat) (t t' : Task) :
  h !! i = Some t → truns t' = truns t → queue_of (<[i := t']> h) task = queue_of h task.
Proof.
  intros Ht Hq. destruct (decide (i = task)) as [<-|Hne].
  - rewrite queue_of_insert_eq by (by apply lookup_lt_Some in Ht).
    unfold queue_of. by rewrite Ht.
  - by apply queue_of_insert_ne.
Qed.

Lemma callUUID_queue (h h' : list Task) (i : nat) (u : string) :
  callUUID h i = Some (u, h') → ∀ task, queue_of h' task = queue_of h task.
Proof.
  unfold callUUID. destruct (h !! i) as [t|] eqn:Et; simpl; [|done].
  intros [= _ <-] task. apply (queue_of_insert_same _ _ _ t); [done | apply UUID_runs].
Qed.

Lemma excluded_queue (all : list (option ActiveTaskRun)) (task : nat) :
  ∀ (h h' : list Task) (b : bool),
    excluded all task h = Some (b, h') → ∀ x, queue_of h' x = queue_of h x.
Proof.
  induction all as [|[atr|] all IH]; intros h h' b; simpl.
  - by intros [= _ <-].
  - destruct (callUUID h (aTask atr)) as [[u1 h1]|] eqn:E1; simpl; [|done].
    destruct (callUUID h1 task) as [[u2 h2]|] eqn:E2; simpl; [|done].
    destruct (String.eqb u1 u2).
    + intros [= _ <-] x.
      by rewrite (callUUID_queue _ _ _ _ E2), (callUUID_queue _ _ _ _ E1).
    + intros H x. rewrite (IH _ _ _ H).
      by rewrite (callUUID_queue _ _ _ _ E2), (callUUID_queue _ _ _ _ E1).
  - apply IH.
Qed.

Lemma fst_insert (l : list (ActiveTaskRun * super)) (k : nat) (a : ActiveTaskRun)
    (pc pc' : super) :
  l !! k = Some (a, pc) → fst <$> <[k := (a, pc')]> l = fst <$> l.
Proof.
  intros H. rewrite list_fmap_insert. simpl. apply list_insert_id.
  by rewrite list_lookup_fmap, H.
Qed.

(** A step that dispatches nothing and leaves every queue as it is, or
    empty. *)
Lemma in_order_moved (runs : list Run) (s s' : State) :
  in_order runs s →
  (∀ task, dispatched s' task = dispatched s task) →
  (∀ task q, queue_of (heap s') task = Some q →
     queue_of (heap s) task = Some q ∨ q = [] ∧ is_Some (queue_of (heap s) task)) →
  (∀ freeCores task nextRun,
     drv s' = DExcl freeCores task nextRun ∨ drv s' = DNew freeCores task nextRun →
     (∃ fc, drv s = DExcl fc task nextRun ∨ drv s = DNew fc task nextRun) ∨
     (∃ fc q tl, drv s = DPeak fc task ∧ queue_of (heap s) task = Some q ∧
                 q = nextRun :: tl ∧ queue_of (heap s') task = Some q)) →
  in_order runs s'.
Proof.
  intros [H1 H2] Hd Hq Hdrv. split.
  - intros task q Hq'. rewrite Hd.
    destruct (Hq task q Hq') as [Hsame|[-> [q0 Hq0]]]; [by apply H1|].
    destruct (H1 task q0 Hq0) as (rest & Hr & _). exists rest. split; [done | by right].
  - intros fc task nextRun q Hdrv' Hq'. rewrite Hd.
    destruct (Hdrv fc task nextRun Hdrv') as [[fc0 Hdrv0]|(fc0 & q0 & tl & Hp & Hq0 & -> & Hq1)].
    + destruct (Hq task q Hq') as [Hsame|[-> [q0 Hq0]]]; [by apply (H2 fc0)|].
      destruct (H2 fc0 task nextRun q0 Hdrv0 Hq0) as (rest & Hr & _).
      exists rest. split; [done | by right].
    + rewrite Hq1 in Hq'. injection Hq' as <-.
      destruct (H1 task _ Hq0) as (rest & Hr & [<-|?]); [|done].
      exists tl. split; [done | by left].
Qed.

Lemma driver_step_in_order (runs : list Run) (newErr : bool) (s s' : State) :
  sound s → in_order runs s → driver_step newErr s = Some s' → in_order runs s'.
Proof.
  intros Hsound Hin Hstep.
  pose proof (driver_step_sound _ _ _ Hsound Hstep) as (_ & _ & _ & Hd').
  unfold driver_sound in Hd'.
  unfold driver_step, panic, NewActiveTaskRun in Hstep.
  destruct (drv s) eqn:Ed.
  - (* the head of the loop *)
    repeat case_match; simplify_eq; try done;
      (apply (in_order_moved runs s); [done| | |]);
      try (intros task'; unfold dispatched; simpl; by rewrite Ed);
      try (intros; by left); simpl; intros ? ? ? [|]; done.
  - (* Peak *)
    destruct (heap s !! task ≫= truns) as [q|] eqn:Eq; simplify_eq; [|done].
    unfold Peak in Hstep. destruct q as [|r q]; simpl in Hstep.
    + simplify_eq. apply (in_order_moved runs s); [done| | |].
      * intros task'. unfold dispatched. simpl. by rewrite Ed.
      * intros; by left.
      * simpl. intros ? ? ? [|]; done.
    + destruct (rCores r <=? len freeCores); simplify_eq;
        (apply (in_order_moved runs s); [done| | |]);
        try (intros task'; unfold dispatched; simpl; by rewrite Ed);
        try (intros; by left); simpl; try (intros ? ? ? [|]; done).
      intros fc task' run [[= <- <- <-]|?]; [|done].
      right. exists freeCores, (r :: q), q. by rewrite Ed.
  - (* the exclusion test *)
    destruct (excluded _ _ _) as [[[|] h]|] eqn:Ex; simplify_eq; [| |done];
      pose proof (excluded_queue _ _ _ _ _ Ex) as Hq;
      (apply (in_order_moved runs s); [done| | |]);
      try (intros task'; unfold dispatched; simpl; by rewrite Ed);
      try (simpl; intros task' q'; rewrite Hq; by left);
      simpl; try (intros ? ? ? [|]; done).
    intros fc task' run [?|[= <- <- <-]]; [done|]. left. exists freeCores. by left.
  - (* NewActiveTaskRun and Dequeue *)
    destruct (select_cores _ _ _) as [[cores rest0]|]; simplify_eq; [|done].
    destruct newErr.
    + (* the task is cancelled *)
      destruct (heap s !! task) as [t|] eqn:Et; simpl in Hstep; [|by simplify_eq].
      unfold Cancel in Hstep. destruct (truns t) as [q|] eqn:Etq; simpl in Hstep;
        simplify_eq; [|done].
      apply (in_order_moved runs s); [done| | |].
      * intros task'. unfold dispatched. simpl. by rewrite Ed.
      * simpl. intros task' q'. destruct (decide (task = task')) as [<-|Hne].
        -- rewrite queue_of_insert_eq by (by apply lookup_lt_Some in Et). simpl.
           intros [= <-]. right. split; [done|]. unfold queue_of. rewrite Et. simpl. eauto.
        -- rewrite queue_of_insert_ne by done. by left.
      * simpl. intros ? ? ? [|]; done.
    + (* the run is dispatched *)
      destruct (callUUID (heap s) task) as [[u h]|] eqn:Eu; simplify_eq; [|done].
      pose proof (callUUID_queue _ _ _ _ Eu) as Hq.
      destruct (h !! task) as [t|] eqn:Et; simplify_eq; [|done].
      destruct (truns t) as [q|] eqn:Etq; simplify_eq; [|done].
      assert (Hqt : queue_of (heap s) task = Some q)
        by (rewrite <- Hq; unfold queue_of; by rewrite Et).
      destruct Hin as [H1 H2].
      assert (Hdis : ∀ task', dispatched
                 (set_drv (set_heap s (<[task := set_runs t (Dequeue q).2]> h))
                    (DSet task {| aid := length (sups s); aTask := task; arun := nextRun;
                                  aCoreIds := cores |} cores 1)) task'
               = dispatched s task' ++ (if decide (task = task') then [nextRun] else [])).
      { intros task'. unfold dispatched. simpl. rewrite Ed. simpl.
        rewrite app_nil_r, filter_app, fmap_app. f_equal.
        rewrite filter_cons. simpl. by repeat case_decide. }
      split; [|simpl; intros ? ? ? ? [|]; done].
      intros task' q'. rewrite Hdis. simpl. destruct (decide (task = task')) as [<-|Hne].
      * rewrite queue_of_insert_eq by (by apply lookup_lt_Some in Et). simpl.
        intros [= <-].
        destruct (H2 freeCores task nextRun q (or_intror Ed) Hqt)
          as (rest & Hr & [-> | ->]).
        -- exists rest. rewrite <- app_assoc. split; [done | by left].
        -- exists rest. rewrite <- app_assoc. split; [done | by right].
      * rewrite queue_of_insert_ne by done. rewrite Hq, app_nil_r. apply H1.
  - (* the loop that sets the cores *)
    destruct (0 <? len cores).
    + destruct (index _ _) as [coreId|]; simplify_eq; [|done].
      destruct (Set_ _ _ _) as [m|]; simplify_eq;
        (apply (in_order_moved runs s); [done| | |]);
        try (intros task'; unfold dispatched; simpl; by rewrite Ed);
        try (intros; by left); simpl; intros ? ? ? [|]; done.
    + simplify_eq. apply (in_order_moved runs s); [done| | |].
      * intros task'. unfold dispatched. simpl. rewrite Ed. simpl.
        by rewrite fmap_app, app_nil_r.
      * intros; by left.
      * simpl. intros ? ? ? [|]; done.
  - (* the label iterator *)
    destruct (heap s !! task ≫= truns) as [q|]; simplify_eq; [|done].
    destruct (QLen q =? 0); simpl in Hstep; simplify_eq;
      (apply (in_order_moved runs s); [done| | |]);
      try (intros task'; unfold dispatched; simpl; by rewrite Ed);
      try (intros; by left); simpl; intros ? ? ? [|]; done.
  - (* wg.Wait() *)
    destruct (wg s =? 0); simplify_eq.
    apply (in_order_moved runs s); [done| | |].
    * intros task'. unfold dispatched. simpl. by rewrite Ed.
    * intros; by left.
    * simpl. intros ? ? ? [|]; done.
  - done.
  - done.
Qed.

Lemma super_step_in_order (runs : list Run) (k : nat) (returnCode : Z) (startErr : bool)
    (s s' : State) :
  sound s → in_order runs s → super_step k returnCode startErr s = Some s' →
  in_order runs s'.
Proof.
  intros Hsound Hin Hstep.
  pose proof (super_step_sound _ _ _ _ _ Hsound Hstep) as (_ & _ & _ & Hd').
  unfold driver_sound in Hd'. revert Hstep Hd'. unfold super_step, panic.
  destruct (sups s !! k) as [[atr pc]|] eqn:Ek; simpl; [|done].
  assert (Hdis : ∀ pc' h m n task,
            dispatched (set_sups (set_cores (set_heap s h) m)
                          (<[k := (atr, pc')]> (sups s)) n) task
            = dispatched s task).
  { intros. unfold dispatched. simpl. by rewrite (fst_insert _ _ _ _ _ Ek). }
  assert (Hdrv : ∀ s1, drv s1 = drv s →
            ∀ freeCores task nextRun,
              drv s1 = DExcl freeCores task nextRun ∨ drv s1 = DNew freeCores task nextRun →
              (∃ fc, drv s = DExcl fc task nextRun ∨ drv s = DNew fc task nextRun) ∨
              (∃ fc q tl, drv s = DPeak fc task ∧ queue_of (heap s) task = Some q ∧
                          q = nextRun :: tl ∧ queue_of (heap s1) task = Some q)).
  { intros s1 -> fc task run H. left. by exists fc. }
  destruct pc as [| |[|coreId rest]].
  - destruct (startErr || negb (returnCode =? 0)).
    + destruct (heap s !! aTask atr) as [t|] eqn:Et; simpl; [|by intros [= <-] ?].
      unfold Cancel. destruct (truns t) as [q|] eqn:Etq; simpl; [|by intros [= <-] ?].
      intros [= <-] _. apply (in_order_moved runs s); [done| | |by apply Hdrv].
      * intros task.
        apply (Hdis SSignal
                 (<[aTask atr := {| tParams := tParams t; tInputs := tInputs t;
                                    tOutputs := tOutputs t; truns := Some (Clear q);
                                    tuuid := tuuid t |}]> (heap s))
                 (tasksInFlight s) (wg s) task).
      * simpl. intros task q'. destruct (decide (aTask atr = task)) as [<-|Hne].
        -- rewrite queue_of_insert_eq by (by apply lookup_lt_Some in Et). simpl.
           intros [= <-]. right. split; [done|]. unfold queue_of. rewrite Et. simpl. eauto.
        -- rewrite queue_of_insert_ne by done. by left.
    + intros [= <-] _. apply (in_order_moved runs s); [done| | |by apply Hdrv].
      * intros task. apply (Hdis SSignal (heap s) (tasksInFlight s) (wg s) task).
      * intros; by left.
  - intros [= <-] _. apply (in_order_moved runs s); [done| | |by apply Hdrv].
    + intros task.
      apply (Hdis (SRelease (aCoreIds atr)) (heap s) (tasksInFlight s) (wg s - 1) task).
    + intros; by left.
  - done.
  - intros [= <-] _. apply (in_order_moved runs s); [done| | |by apply Hdrv].
    + intros task.
      apply (Hdis (SRelease rest) (heap s) (Unset_ (tasksInFlight s) coreId) (wg s) task).
    + intros; by left.
Qed.

Lemma exec_in_order (runs : list Run) (ls : list label) :
  ∀ s s' : State, sound s → in_order runs s → exec ls s = Some s' → in_order runs s'.
Proof.
  induction ls as [|l ls IH]; intros s s' Hs Hin; simpl.
  - by intros [= <-].
  - destruct (step l s) as [s1|] eqn:E; simpl; [|done].
    apply IH; [by apply (step_sound l s)|]. revert E. unfold step.
    destruct (drv s) eqn:Ed; try done; destruct l;
      solve [by apply driver_step_in_order | by apply super_step_in_order].
Qed.

Lemma start_in_order (fuel : nat) (job : Job) (cfg : RuntimeConfig)
    (w : Job * list Task * gmap Z (option ActiveTaskRun)) :
  NewJob fuel job cfg = Ok w → in_order (jRuns w.1.1) (start w).
Proof.
  intros H. apply NewJob_accepts in H as (ts & _ & -> & _).
  split; [|simpl; intros ? ? ? ? [|]; done].
  intros task q. unfold queue_of, dispatched.
  cbn [start heap sups drv fst snd fmap list_fmap pending app filter list_filter].
  rewrite list_lookup_fmap.
  destruct (ts !! task) as [t|] eqn:Et; [|done].
  cbn [fmap option_fmap option_map mbind option_bind]. rewrite Init_runs. intros [= <-].
  exists (default_cores <$> jRuns job). split; [|by left].
  destruct ts; [done | reflexivity].
Qed.

(** X17: the stages of a task are dispatched in the order of the stage
    list, none left out and none twice: in every state the scheduler
    reaches from a loaded job, the stages dispatched for a task so far
    followed by the stages in its run queue are the stage list of the job,
    unless the queue has been cleared, in which case the dispatched stages
    are still a prefix of that list. *)
Theorem stages_in_order (fuel : nat) (job : Job) (cfg : RuntimeConfig)
    (w : Job * list Task * gmap Z (option ActiveTaskRun)) (ls : list label) (s : State) :
  NewJob fuel job cfg = Ok w → exec ls (start w) = Some s →
  ∀ task q, queue_of (heap s) task = Some q →
    ∃ rest, dispatched s task ++ rest = jRuns w.1.1 ∧ (q = rest ∨ q = []).
Proof.
  intros Hload Hexec.
  pose proof (start_sound _ _ _ _ Hload) as Hs0.
  by pose proof (exec_in_order _ ls _ _ Hs0 (start_in_order _ _ _ _ Hload) Hexec) as [H1 _].
Qed.

Lemma stages_in_order_witness :
  ∃ s : State,
    exec trace_two_stages (start loaded_two_stages) = Some s ∧
    rName <$> dispatched s 0 = ["s1"; "s2"] ∧
    ∀ task q, queue_of (heap s) task = Some q →
      ∃ rest, dispatched s task ++ rest = jRuns loaded_two_stages.1.1 ∧
              (q = rest ∨ q = []).
Proof.
  eexists. split; [vm_compute; reflexivity|]. split; [reflexivity|].
  apply (stages_in_order 2 job_two_stages two_cpus loaded_two_stages trace_two_stages);
    vm_compute; reflexivity.
Defined.

(** ** The cores a run occupies *)

Lemma select_cores_length (n : nat) :
  ∀ (freeCores cores r1 r2 : list Z),
    select_cores n freeCores cores = Some (r1, r2) → length r1 = (length cores + n)%nat.
Proof.
  induction n as [|n IH]; intros fc cores r1 r2; simpl.
  - intros [= <- <-]. lia.
  - destruct (last fc) as [c|]; simpl; [|done]. intros H. apply IH in H.
    rewrite length_app in H. simpl in H. lia.
Qed.

Lemma Unset_other (m : gmap Z (option ActiveTaskRun)) (c c' : Z) :
  c ≠ c' → Unset_ m c !! c' = m !! c'.
Proof.
  intros H. unfold Unset_. destruct (m !! c); [|done]. by rewrite lookup_insert_ne.
Qed.

Lemma owned_moved (s s' : State) :
  owned s → tasksInFlight s' = tasksInFlight s → sups s' = sups s →
  (∀ task atr cores j, drv s' ≠ DSet task atr cores j) → owned s'.
Proof.
  intros [H1 _] Hm Hs Hd. unfold owned. rewrite Hm, Hs. split; [done|].
  intros task atr cores j H. by apply Hd in H.
Qed.

Lemma driver_step_owned (newErr : bool) (s s' : State) :
  sound s → scheduler_inv s → owned s → driver_step newErr s = Some s' → owned s'.
Proof.
  intros (_ & _ & _ & Hd) _ Ho Hstep. unfold driver_sound in Hd.
  unfold driver_step, panic, NewActiveTaskRun in Hstep.
  destruct (drv s) eqn:Ed.
  - repeat case_match; simplify_eq; try done; by apply (owned_moved s).
  - repeat case_match; simplify_eq; by apply (owned_moved s).
  - repeat case_match; simplify_eq; by apply (owned_moved s).
  - destruct Hd as (_ & Hv & _).
    destruct (select_cores _ _ _) as [[cores rest]|] eqn:Hsel; simplify_eq;
      [|by apply (owned_moved s)].
    pose proof (select_cores_vacant _ _ _ _ _ Hv Hsel) as [Hnd _].
    apply select_cores_length in Hsel. simpl in Hsel.
    repeat case_match; simplify_eq; try by apply (owned_moved s).
    destruct Ho as [H1 _]. split; [done|]. simpl.
    intros ? ? ? ? [= _ <- <- _]. simpl. split; [done|]. intros c Hc. by left.
  - destruct Hd as (_ & _ & [Hnd Hv] & ->). destruct Ho as [H1 H2].
    destruct (H2 _ _ _ _ Ed) as [Hg Hc].
    destruct cores as [|c0 cores _] using rev_ind.
    + simpl in Hstep. simplify_eq. split; [|done]. simpl.
      intros k a pc Hk. apply lookup_app_Some in Hk as [Hk|[_ Hk]]; [by apply (H1 k)|].
      apply list_lookup_singleton_Some in Hk as [_ [= <- <-]]. simpl.
      split; [done|]. split; [by destruct Hg|]. intros c Hin.
      destruct (Hc c Hin) as [Hin'|?]; [by apply not_elem_of_nil in Hin' | done].
    + destruct (index_last cores c0) as [Hi Ht].
      replace (0 <? len (cores ++ [c0])) with true in Hstep
        by (symmetry; apply Z.ltb_lt; unfold len; rewrite length_app; simpl; lia).
      rewrite Hi, Ht in Hstep. unfold Set_ in Hstep.
      assert (H0 : tasksInFlight s !! c0 = Some None)
        by (apply Hv, elem_of_app; right; apply list_elem_of_here).
      rewrite H0 in Hstep. simplify_eq. split; simpl.
      * intros k a pc Hk. destruct (H1 k a pc Hk) as (Hga & Hnda & Hheld).
        split; [done|]. split; [done|]. intros c Hin.
        rewrite lookup_insert_ne; [by apply Hheld|].
        intros <-. specialize (Hheld _ Hin). congruence.
      * intros ? ? ? ? [= _ <- <- _]. split; [done|]. intros c Hin.
        destruct (decide (c = c0)) as [->|Hne]; [right; by rewrite lookup_insert_eq|].
        rewrite lookup_insert_ne by done.
        destruct (Hc c Hin) as [Hin'|?]; [|by right]. left.
        apply elem_of_app in Hin' as [?|Hin']; [done|].
        by apply list_elem_of_singleton in Hin'.
  - repeat case_match; simplify_eq; by apply (owned_moved s).
  - repeat case_match; simplify_eq; by apply (owned_moved s).
  - done.
  - done.
Qed.

Lemma super_step_owned (k : nat) (returnCode : Z) (startErr : bool) (s s' : State) :
  scheduler_inv s → owned s → super_step k returnCode startErr s = Some s' → owned s'.
Proof.
  intros (_ & _ & Hr1 & _ & Hr3) [H1 H2]. unfold super_step, panic.
  destruct (sups s !! k) as [[atr pc]|] eqn:Ek; simpl; [|done].
  destruct (H1 k atr pc Ek) as (Hg & Hnd & Hheld).
  assert (Hsame : ∀ pc' h n,
            to_release atr pc' = to_release atr pc →
            owned (set_sups (set_heap s h) (<[k := (atr, pc')]> (sups s)) n)).
  { intros pc' h n Heq. split; simpl; [|done].
    intros k' a pc0. rewrite list_lookup_insert by (by apply lookup_lt_Some in Ek).
    case_decide as Hkk; [|apply H1]. intros [= <- <-]. by rewrite Heq. }
  destruct pc as [| |[|coreId rest]].
  - repeat case_match; intros [= <-].
    + by apply (Hsame SSignal).
    + split; [done|]. simpl. by intros.
    + by apply (Hsame SSignal (heap s)).
  - intros [= <-]. by apply (Hsame (SRelease (aCoreIds atr)) (heap s)).
  - done.
  - intros [= <-]. simpl in Hnd, Hheld. apply NoDup_cons in Hnd as [Hnin Hnd].
    assert (H0 : tasksInFlight s !! coreId = Some (Some atr))
      by apply Hheld, list_elem_of_here.
    pose proof (Hr1 _ _ _ Ek) as Haid.
    split; simpl.
    + intros k' a pc0. rewrite list_lookup_insert by (by apply lookup_lt_Some in Ek).
      case_decide as Hkk.
      * intros [= <- <-]. simpl. split; [done|]. split; [done|]. intros c Hin.
        rewrite Unset_other by (by intros <-). by apply Hheld, list_elem_of_further.
      * intros Hk'. destruct (H1 k' a pc0 Hk') as (Hga & Hnda & Hhelda).
        split; [done|]. split; [done|]. intros c Hin.
        rewrite Unset_other; [by apply Hhelda|]. intros <-.
        specialize (Hhelda _ Hin). rewrite H0 in Hhelda. injection Hhelda as <-.
        pose proof (Hr1 _ _ _ Hk'). apply Hkk. split; [congruence | by apply lookup_lt_Some in Ek].
    + intros task a cores j Hd. destruct (H2 _ _ _ _ Hd) as [Hga Hc].
      split; [done|]. intros c Hin. destruct (Hc c Hin) as [?|Hm]; [by left|]. right.
      rewrite Unset_other; [done|]. intros <-. rewrite H0 in Hm. injection Hm as <-.
      pose proof (Hr3 _ _ _ _ Hd). apply lookup_lt_Some in Ek. lia.
Qed.

Lemma exec_owned (ls : list label) :
  ∀ s s' : State,
    sound s → scheduler_inv s → owned s → exec ls s = Some s' → owned s'.
Proof.
  induction ls as [|l ls IH]; intros s s' Hs Hinv Ho; simpl.
  - by intros [= <-].
  - destruct (step l s) as [s1|] eqn:E; simpl; [|done].
    apply IH; [by apply (step_sound l s) | by apply (step_inv l s) |].
    revert E. unfold step.
    destruct (drv s) eqn:Ed; try done; destruct l;
      solve [by apply driver_step_owned | by apply super_step_owned].
Qed.

(** X18: every run that has been started has as many cores as its stage
    asks for, each once, and occupies every core that its supervisor has
    not released yet: all of them until the supervisor has called
    [wg.Done()].  No other run and no other supervisor takes a core from
    a run. *)
Theorem cores_owned (fuel : nat) (job : Job) (cfg : RuntimeConfig)
    (w : Job * list Task * gmap Z (option ActiveTaskRun)) (ls : list label) (s : State) :
  NewJob fuel job cfg = Ok w → exec ls (start w) = Some s →
  ∀ k a pc, sups s !! k = Some (a, pc) →
    NoDup (aCoreIds a) ∧ length (aCoreIds a) = Z.to_nat (rCores (arun a)) ∧
    ∀ c, c ∈ to_release a pc → tasksInFlight s !! c = Some (Some a).
Proof.
  intros Hload Hexec k a pc Hk.
  assert (Hvac : ∀ c v, w.2 !! c = Some v → v = None).
  { rewrite (NewJob_map _ _ _ _ Hload). apply NewCoreMap_vacant. }
  assert (H0 : owned (start w)) by (by split).
  pose proof (exec_owned ls _ _ (start_sound _ _ _ _ Hload) (start_inv w Hvac) H0 Hexec)
    as [H1 _].
  destruct (H1 k a pc Hk) as ([Hnd Hl] & _ & Hheld). done.
Qed.

Lemma cores_owned_witness :
  ∃ (s : State) (a : ActiveTaskRun),
    exec trace_wide (start loaded_wide) = Some s ∧ sups s !! 0%nat = Some (a, SRun) ∧
    NoDup (aCoreIds a) ∧ length (aCoreIds a) = Z.to_nat (rCores (arun a)) ∧
    ∀ c, c ∈ to_release a SRun → tasksInFlight s !! c = Some (Some a).
Proof.
  eexists _, _. split; [vm_compute; reflexivity|]. split; [reflexivity|].
  refine (cores_owned 2 job_wide two_cpus loaded_wide trace_wide _ _ _ 0%nat _ _ _);
    vm_compute; reflexivity.
Defined.

(** ** The default pool of cores *)

Lemma parse_digits_acc (d : Decimal.uint) :
  ∀ acc : positive,
    parse_digits (NilEmpty.string_of_uint d) (Z.pos acc)
    = Some (Z.pos (Pos.of_uint_acc d acc)).
Proof.
  induction d as [|d IH|d IH|d IH|d IH|d IH|d IH|d IH|d IH|d IH|d IH]; intros acc;
    [done|..];
    cbn [NilEmpty.string_of_uint parse_digits Pos.of_uint_acc];
    (replace (is_digit _) with true by (by vm_compute));
    rewrite <- IH; f_equal;
    match goal with
    | |- context [Z.of_nat (nat_of_ascii ?c)] =>
        let v := eval vm_compute in (Z.of_nat (nat_of_ascii c)) in
        change (Z.of_nat (nat_of_ascii c)) with v
    end; lia.
Qed.

Lemma parse_digits_uint (d : Decimal.uint) :
  parse_digits (NilEmpty.string_of_uint d) 0 = Some (Z.of_N (Pos.of_uint d)).
Proof.
  induction d as [|d IH|d IH|d IH|d IH|d IH|d IH|d IH|d IH|d IH|d IH];
    [done|exact IH|..];
    cbn [NilEmpty.string_of_uint parse_digits Pos.of_uint];
    (replace (is_digit _) with true by (by vm_compute));
    apply parse_digits_acc.
Qed.

Lemma string_of_uint_unsigned (d : Decimal.uint) :
  Contains (NilEmpty.string_of_uint d) "-" = false.
Proof.
  induction d as [|d IH|d IH|d IH|d IH|d IH|d IH|d IH|d IH|d IH|d IH]; [done|..];
    exact IH.
Qed.

(** [strconv.Atoi] reads what [strconv.Itoa] writes. *)
Lemma Atoi_Itoa (n : Z) :
  0 ≤ n ≤ MaxInt → Atoi (Itoa n) = Ok n ∧ Contains (Itoa n) "-" = false.
Proof.
  intros Hn. destruct n as [|p|p]; [done| |lia].
  unfold Itoa. cbn [Z.to_int NilZero.string_of_int NilZero.string_of_uint].
  pose proof (DecimalPos.Unsigned.to_uint_nonnil p) as Hnil.
  pose proof (DecimalPos.Unsigned.of_to p) as Hof.
  pose proof (parse_digits_uint (Pos.to_uint p)) as Hp. rewrite Hof in Hp.
  pose proof (string_of_uint_unsigned (Pos.to_uint p)) as Hc.
  assert (Hs : NilZero.string_of_uint (Pos.to_uint p)
               = NilEmpty.string_of_uint (Pos.to_uint p))
    by (by destruct (Pos.to_uint p)).
  rewrite Hs. split; [|done].
  assert (Hr : (MinInt <=? Z.pos p) && (Z.pos p <=? MaxInt) = true).
  { apply andb_true_intro. split; [apply Z.leb_le; unfold MinInt; lia | apply Z.leb_le; lia]. }
  revert Hp Hc. destruct (Pos.to_uint p); [done|..];
    cbn [NilEmpty.string_of_uint]; intros Hp Hc; unfold Atoi;
    cbn [Ascii.eqb Bool.eqb orb andb]; rewrite Hp; simpl Z.of_N; cbv zeta; by rewrite Hr.
Qed.

(** X19: with the default of the flag [--cpu-sets] on a machine of [n]
    processors, the pool of cores is [1, ..., n-1]: core [0] is left out,
    the pool has [n-1] cores, and it is empty on a machine of one
    processor. *)
Theorem default_pool (n : Z) (fuel : nat) :
  1 ≤ n ≤ MaxInt → (Z.to_nat n ≤ fuel)%nat →
  parseCpuSets fuel (default_CpuSets n) = Ok (seqZ 1 (n - 1), false) ∧
  len (seqZ 1 (n - 1)) = n - 1.
Proof.
  intros Hn Hfuel. split; [|unfold len; rewrite length_seqZ; lia].
  destruct (Atoi_Itoa n ltac:(lia)) as [Ha Hc].
  unfold parseCpuSets, default_CpuSets.
  change ("1-" +:+ Itoa n) with (String "1" (String "-" (Itoa n))).
  cbn [Contains Ascii.eqb Bool.eqb orb andb Split].
  rewrite (Atoi_no_comma _ _ Ha), (Split_whole _ _ Hc).
  change (2 <? len ["1"%string; Itoa n]) with false.
  change (index ["1"%string; Itoa n] 0) with (Some "1"%string).
  change (index ["1"%string; Itoa n] 1) with (Some (Itoa n)).
  cbv iota. rewrite Ha. change (Atoi "1") with (Ok 1). cbv iota.
  by rewrite (count_loop n (Z.to_nat (n - 1))) by (unfold MinInt; lia).
Qed.

Lemma default_pool_witness :
  parseCpuSets 4 (default_CpuSets 4) = Ok ([1; 2; 3], false) ∧ len (seqZ 1 (4 - 1)) = 4 - 1.
Proof. apply (default_pool 4 4); [unfold MaxInt; lia | simpl; lia]. Defined.

(** ** Declarations that list their values *)

(** X20: a declaration of type string, and a declaration of an integer
    type that has an [only] list or no [min], yields the values of its
    [only] list, or else its default, or else nothing, whatever its other
    fields hold: the values of an integer declaration are not checked to
    be numbers, and a range next to an [only] list is not read. *)
Theorem listed_values (fuel : nat) (param : JobParam) :
  jpType param = "string" ∨
  (jpType param = "int" ∨ jpType param = "integer") ∧ (jpOnly param ≠ [] ∨ jpMin param = "") →
  paramPermutations fuel param = Ok (mkTaskParam param <$> listed param).
Proof.
  assert (Hstr : parseParamStr param = Ok (mkTaskParam param <$> listed param)).
  { unfold parseParamStr, listed. rewrite append_only_app, slen_pos.
    destruct (jpOnly param) as [|v vs]; [|done]. simpl.
    by destruct (String.eqb (jpDefault param) ""). }
  assert (Hint : jpOnly param ≠ [] ∨ jpMin param = "" →
            parseParamInt fuel param = Ok (mkTaskParam param <$> listed param)).
  { intros H. unfold parseParamInt, listed. rewrite append_only_app, !slen_pos.
    destruct (jpOnly param) as [|v vs]; [|done]. simpl.
    destruct H as [?| ->]; [done|]. simpl.
    by destruct (String.eqb (jpDefault param) ""). }
  unfold paramPermutations. intros [Ht|[[Ht|Ht] H]]; rewrite Ht; simpl; auto.
Qed.

Lemma listed_values_witness :
  paramPermutations 0 decl_unchecked = Ok [mkTaskParam decl_unchecked "abc"].
Proof. apply (listed_values 0 decl_unchecked). right. split; [by right | by left]. Defined.

(** ** A pool without cores *)

(** X21: on a pool without cores the scheduler of a job with a task never
    leaves the head of its loop: whatever steps are taken, the state is
    the one [Start] was entered with, so that no stage is dispatched and
    [Start] does not return. *)
Theorem empty_pool_spins (fuel : nat) (job : Job) (cfg : RuntimeConfig)
    (w : Job * list Task * gmap Z (option ActiveTaskRun)) (ls : list label) (s : State) :
  NewJob fuel job cfg = Ok w → Cpus cfg = [] → w.1.2 ≠ [] →
  exec ls (start w) = Some s → s = start w.
Proof.
  intros Hload Hcpus Hts.
  apply NewJob_accepts in Hload as (ts & _ & -> & _). rewrite Hcpus in *. simpl in Hts.
  assert (Hne : ts ≠ []) by (by destruct ts).
  induction ls as [|l ls IH]; simpl; [by intros [= <-]|].
  destruct l as [newErr|k returnCode startErr].
  - unfold step, driver_step. simpl.
    replace (0 <? len (seq 0 (length ts))) with true
      by (symmetry; apply Z.ltb_lt; unfold len; rewrite length_seq;
          destruct ts; [done | simpl; lia]).
    simpl. apply IH.
  - by unfold step, super_step.
Qed.

Lemma empty_pool_spins_witness :
  ∃ s : State,
    exec [Drive false; Drive false; Drive false] (start loaded_nowhere) = Some s ∧
    s = start loaded_nowhere.
Proof.
  eexists. split; [vm_compute; reflexivity|].
  apply (empty_pool_spins 2 job_one no_cpus loaded_nowhere
           [Drive false; Drive false; Drive false]);
    [reflexivity | reflexivity | discriminate | vm_compute; reflexivity].
Defined.
